(** * useCondition: a shallow embedding of [src/index.ts]

    The hook keeps an array of condition records ([conditions.current]) and a
    metadata object ([meta.current]); the fluent API pushes records, mutates
    the last one in place and finally scans the array in [otherwise].

    The embedding follows the source operation by operation:
    - JavaScript values are a small tagged union with numbers as IEEE-754
      binary64 data ([spec_float]), so that [NaN] and signed zeros exist;
    - condition records live in an object store and arrays in an array store,
      both addressed by index, so that the aliasing between the internal array
      and the array returned by [getConditions] is explicit;
    - the console is an output trace carrying the very messages of the source;
    - every API call is a computation in a state-and-exception monad, with
      [try]/[catch] written where the source has it. *)

From Stdlib Require Import ZArith Lia Bool String DecimalString.
From Stdlib Require Import DecimalNat DecimalFacts.
From Stdlib Require Import Floats.SpecFloat.
From stdpp Require Import base option list strings.

Local Open Scope string_scope.
Local Open Scope list_scope.

(* ===================================================================== *)
(** ** JavaScript values *)
(* ===================================================================== *)

(** The engine raises [TypeError] instances on a write to a frozen array or on
    a property access on [undefined]; [JSTypeError] stands for such an
    instance.  Objects and functions are references. BigInt and Symbol values
    never reach the hook's own tests differently from objects and are left
    out. *)
Inductive JsValue : Type :=
| JSUndefined
| JSNull
| JSBoolean (b : bool)
| JSNumber (n : spec_float)
| JSString (s : string)
| JSObject (ref : nat)
| JSFunction (ref : nat)
| JSTypeError.

Definition NaN : JsValue := JSNumber S754_nan.

(** [typeof v] *)
Definition typeof (v : JsValue) : string :=
  match v with
  | JSUndefined => "undefined"
  | JSNull => "object"
  | JSBoolean _ => "boolean"
  | JSNumber _ => "number"
  | JSString _ => "string"
  | JSObject _ => "object"
  | JSFunction _ => "function"
  | JSTypeError => "object"
  end.

(** [Boolean(v)], the abstract operation ToBoolean. *)
Definition ToBoolean (v : JsValue) : bool :=
  match v with
  | JSUndefined | JSNull => false
  | JSBoolean b => b
  | JSNumber (S754_zero _) | JSNumber S754_nan => false
  | JSNumber _ => true
  | JSString s => negb (String.eqb s EmptyString)
  | JSObject _ | JSFunction _ | JSTypeError => true
  end.

(** [Number.isNaN(v)]: no coercion, true on the number NaN only. *)
Definition Number_isNaN (v : JsValue) : bool :=
  match v with
  | JSNumber S754_nan => true
  | _ => false
  end.

(** [a === b].  Numbers compare as IEEE-754 values: NaN differs from itself
    and the two zeros are equal. *)
Definition strict_equals (a b : JsValue) : bool :=
  match a, b with
  | JSUndefined, JSUndefined => true
  | JSNull, JSNull => true
  | JSBoolean x, JSBoolean y => Bool.eqb x y
  | JSNumber x, JSNumber y => SFeqb x y
  | JSString x, JSString y => String.eqb x y
  | JSObject x, JSObject y => Nat.eqb x y
  | JSFunction x, JSFunction y => Nat.eqb x y
  | JSTypeError, JSTypeError => true
  | _, _ => false
  end.

(** [a !== null] *)
Definition not_null (a : JsValue) : bool := negb (strict_equals a JSNull).

(** [defaultComparator] (index.ts, lines 226-232). *)
Definition defaultComparator (value matchValue : JsValue) : JsValue :=
  if Number_isNaN value && Number_isNaN matchValue then JSBoolean true
  else JSBoolean (strict_equals value matchValue).

(** [comparators.strict] (index.ts, line 730). *)
Definition comparators_strict (a b : JsValue) : JsValue :=
  JSBoolean (strict_equals a b).

(* ===================================================================== *)
(** ** Records, arrays and the console *)
(* ===================================================================== *)

(** [ConditionCase["type"]] *)
Inductive ConditionType : Type := type_when | type_match | type_fallback.

Definition type_name (t : ConditionType) : string :=
  match t with
  | type_when => "when"
  | type_match => "match"
  | type_fallback => "fallback"
  end.

Definition type_eqb (a b : ConditionType) : bool :=
  String.eqb (type_name a) (type_name b).

(** [ConditionCase] (index.ts, lines 6-17).  [condition] and [matchValue] are
    optional properties: [None] is an absent property, which reads as
    [undefined]. *)
Record ConditionCase : Type := mkCase {
  type : ConditionType;
  condition : option JsValue;
  matchValue : option JsValue;
  component : JsValue;
  id : string
}.

(** Reading an optional property. *)
Definition read_property (p : option JsValue) : JsValue :=
  match p with
  | Some v => v
  | None => JSUndefined
  end.

(** The function stored in [meta.current.comparator]: the module's own
    [defaultComparator] or a function supplied by the caller. *)
Inductive MatchComparator : Type :=
| comparator_default
| comparator_function (ref : nat).

(** [ConditionMeta] (index.ts, lines 30-39). *)
Record ConditionMeta : Type := mkMeta {
  matchedIndex : Z;
  value : JsValue;
  comparator : MatchComparator;
  isInMatchMode : bool
}.

(** An array object: its elements are references into the object store. *)
Record JsArray : Type := mkArray {
  frozen : bool;
  items : list nat
}.

(** What [debug] hands to [console.log], as the console shows it: the
    records of the array, the fields of the metadata object, a number. *)
Inductive ConsoleArg : Type :=
| arg_conditions (rs : list ConditionCase)
| arg_meta (m : ConditionMeta)
| arg_number (z : Z).

(** One call on the console. *)
Inductive ConsoleCall : Type :=
| Warn (message : string)
| Error (message : string) (error : JsValue)
| Group (label : string)
| Log (label : string) (arg : ConsoleArg)
| GroupEnd.

(** The state the hook runs in: the two stores, the module-level
    [conditionIdCounter], the console trace (oldest call first) and the two
    refs of one hook instance. *)
Record World : Type := mkWorld {
  objects : list ConditionCase;
  arrays : list JsArray;
  conditionIdCounter : nat;
  console : list ConsoleCall;
  conditions_current : nat;
  meta_current : ConditionMeta
}.

Definition set_objects (o : list ConditionCase) (w : World) : World :=
  mkWorld o (arrays w) (conditionIdCounter w) (console w)
          (conditions_current w) (meta_current w).
Definition set_arrays (a : list JsArray) (w : World) : World :=
  mkWorld (objects w) a (conditionIdCounter w) (console w)
          (conditions_current w) (meta_current w).
Definition set_conditionIdCounter (n : nat) (w : World) : World :=
  mkWorld (objects w) (arrays w) n (console w)
          (conditions_current w) (meta_current w).
Definition set_console (c : list ConsoleCall) (w : World) : World :=
  mkWorld (objects w) (arrays w) (conditionIdCounter w) c
          (conditions_current w) (meta_current w).
Definition set_conditions_current (r : nat) (w : World) : World :=
  mkWorld (objects w) (arrays w) (conditionIdCounter w) (console w)
          r (meta_current w).
Definition set_meta_current (m : ConditionMeta) (w : World) : World :=
  mkWorld (objects w) (arrays w) (conditionIdCounter w) (console w)
          (conditions_current w) m.

Definition set_matchedIndex (i : Z) (m : ConditionMeta) : ConditionMeta :=
  mkMeta i (value m) (comparator m) (isInMatchMode m).
Definition set_component (v : JsValue) (c : ConditionCase) : ConditionCase :=
  mkCase (type c) (condition c) (matchValue c) v (id c).
Definition set_condition (v : JsValue) (c : ConditionCase) : ConditionCase :=
  mkCase (type c) (Some v) (matchValue c) (component c) (id c).
Definition set_type (t : ConditionType) (c : ConditionCase) : ConditionCase :=
  mkCase t (condition c) (matchValue c) (component c) (id c).

(* ===================================================================== *)
(** ** Computations: state and exceptions *)
(* ===================================================================== *)

(** How a piece of JavaScript ends: normally with a value, or by throwing. *)
Inductive Completion (A : Type) : Type :=
| Normal (a : A)
| Throw (e : JsValue).
Arguments Normal {A} a.
Arguments Throw {A} e.

Definition M (A : Type) : Type := World -> Completion A * World.

Definition ret {A} (a : A) : M A := fun w => (Normal a, w).
Definition bind {A B} (c : M A) (k : A -> M B) : M B :=
  fun w =>
    match c w with
    | (Normal a, w') => k a w'
    | (Throw e, w') => (Throw e, w')
    end.
Definition throw {A} (e : JsValue) : M A := fun w => (Throw e, w).
(** [try { body } catch (error) { handler }] *)
Definition try_catch {A} (body : M A) (handler : JsValue -> M A) : M A :=
  fun w =>
    match body w with
    | (Normal a, w') => (Normal a, w')
    | (Throw e, w') => handler e w'
    end.

Declare Scope js_scope.
Delimit Scope js_scope with js.
Notation "'let*' x := c 'in' k" := (bind c (fun x => k))
  (at level 10, x name, c at level 100, k at level 200) : js_scope.
Notation "c ;;; k" := (bind c (fun _ => k))
  (at level 100, k at level 200, right associativity) : js_scope.
Local Open Scope js_scope.

Definition get_world : M World := fun w => (Normal w, w).
Definition modify (f : World -> World) : M unit := fun w => (Normal tt, f w).
(** [if (b) { c }] *)
Definition when_true (b : bool) (c : M unit) : M unit :=
  if b then c else ret tt.

(** The world a computation leaves and the way it ends. *)
Definition exec {A} (c : M A) (w : World) : World := snd (c w).
Definition outcome {A} (c : M A) (w : World) : Completion A := fst (c w).

(* ===================================================================== *)
(** ** The stores *)
(* ===================================================================== *)

(** A property access through a reference that holds no object is the
    engine's [TypeError] (reading a property of [undefined]). *)
Definition load (l : nat) : M ConditionCase :=
  fun w =>
    match objects w !! l with
    | Some c => (Normal c, w)
    | None => (Throw JSTypeError, w)
    end.

(** [obj.field = v], as an update [f] of the record at [l]. *)
Definition update_object (l : nat) (f : ConditionCase -> ConditionCase)
  : M unit :=
  let* c := load l in
  modify (fun w => set_objects (<[l := f c]> (objects w)) w).

(** An object literal: a new record at the next free address. *)
Definition new_object (c : ConditionCase) : M nat :=
  fun w => (Normal (length (objects w)), set_objects (objects w ++ [c]) w).

(** An array literal or a spread copy: a new array object. *)
Definition new_array (a : JsArray) : M nat :=
  fun w => (Normal (length (arrays w)), set_arrays (arrays w ++ [a]) w).

Definition load_array (a : nat) : M JsArray :=
  fun w =>
    match arrays w !! a with
    | Some arr => (Normal arr, w)
    | None => (Throw JSTypeError, w)
    end.

(** [arr.push(x)]; strict-mode code, so a frozen array throws. *)
Definition array_push (a : nat) (x : nat) : M unit :=
  let* arr := load_array a in
  if frozen arr then throw JSTypeError
  else modify (fun w =>
         set_arrays (<[a := mkArray false (items arr ++ [x])]> (arrays w)) w).

(** [arr[i] = x] in strict-mode code. *)
Definition array_store (a : nat) (i : nat) (x : nat) : M unit :=
  let* arr := load_array a in
  if frozen arr then throw JSTypeError
  else modify (fun w =>
         set_arrays (<[a := mkArray false (<[i := x]> (items arr))]> (arrays w)) w).

(** [arr.length = 0] in strict-mode code. *)
Definition array_clear (a : nat) : M unit :=
  let* arr := load_array a in
  if frozen arr then throw JSTypeError
  else modify (fun w => set_arrays (<[a := mkArray false []]> (arrays w)) w).

(** [Object.freeze(arr)] *)
Definition Object_freeze (a : nat) : M nat :=
  let* arr := load_array a in
  modify (fun w => set_arrays (<[a := mkArray true (items arr)]> (arrays w)) w) ;;;
  ret a.

(** [arr.find(c => p(c))]: the first element whose record satisfies [p]. *)
Fixpoint find_in (p : ConditionCase -> bool) (ls : list nat) : M (option nat) :=
  match ls with
  | [] => ret None
  | l :: ls' =>
      let* c := load l in
      if p c then ret (Some l) else find_in p ls'
  end.

(** [arr.filter(c => p(c)).length] *)
Fixpoint count_in (p : ConditionCase -> bool) (ls : list nat) : M nat :=
  match ls with
  | [] => ret 0
  | l :: ls' =>
      let* c := load l in
      let* n := count_in p ls' in
      ret (if p c then S n else n)
  end.

(** The console. *)
Definition console_call (c : ConsoleCall) : M unit :=
  modify (fun w => set_console (console w ++ [c]) w).
Definition console_warn (message : string) : M unit :=
  console_call (Warn message).
Definition console_error (message : string) (error : JsValue) : M unit :=
  console_call (Error message error).

(** Decimal rendering of a number inside a template literal. *)
Definition decimal (n : nat) : string := NilZero.string_of_uint (Nat.to_uint n).

(** [++conditionIdCounter] *)
Definition next_conditionIdCounter : M nat :=
  fun w => (Normal (S (conditionIdCounter w)),
            set_conditionIdCounter (S (conditionIdCounter w)) w).

Definition get_meta : M ConditionMeta := fun w => (Normal (meta_current w), w).
Definition put_meta (m : ConditionMeta) : M unit := modify (set_meta_current m).
Definition get_conditions : M nat := fun w => (Normal (conditions_current w), w).

(** The records behind a list of references. *)
Fixpoint records_at (objs : list ConditionCase) (ls : list nat)
  : list ConditionCase :=
  match ls with
  | [] => []
  | l :: ls' =>
      match objs !! l with
      | Some c => c :: records_at objs ls'
      | None => records_at objs ls'
      end
  end.

(** The elements of [conditions.current]. *)
Definition current_items (w : World) : list nat :=
  match arrays w !! conditions_current w with
  | Some arr => items arr
  | None => []
  end.

(** The branch sequence: the records of [conditions.current], in order. *)
Definition chain (w : World) : list ConditionCase :=
  records_at (objects w) (current_items w).

(* ===================================================================== *)
(** ** The hook *)
(* ===================================================================== *)

Section UseCondition.

(** The functions the caller passes as comparators: [call_function ref a b]
    is how the call [f(a, b)] of the function at [ref] ends.  Comparators are
    taken to be pure: they neither touch the hook nor the console. *)
Variable call_function : nat -> JsValue -> JsValue -> Completion JsValue.

(** [comparator(value, matchValue)] for the stored comparator. *)
Definition call_comparator (c : MatchComparator) (a b : JsValue) : M JsValue :=
  match c with
  | comparator_default => ret (defaultComparator a b)
  | comparator_function ref =>
      match call_function ref a b with
      | Normal v => ret v
      | Throw e => throw e
      end
  end.

(** The object both [useRef] and [reset] store in [meta.current]. *)
Definition initial_meta : ConditionMeta :=
  mkMeta (-1) JSNull comparator_default false.

(** [useCondition()] on first render (index.ts, lines 415-422): the two refs
    are created. *)
Definition useCondition : M unit :=
  let* a := new_array (mkArray false []) in
  modify (set_conditions_current a) ;;;
  put_meta initial_meta.

(** [reset] (index.ts, lines 425-434). *)
Definition reset : M unit :=
  let* a := new_array (mkArray false []) in
  modify (set_conditions_current a) ;;;
  put_meta initial_meta.

(** [conditions.current[conditions.current.length - 1]]: [None] is
    [undefined]. *)
Definition last_condition : M (option nat) :=
  let* a := get_conditions in
  let* arr := load_array a in
  ret (last (items arr)).

(** [validateChaining] (index.ts, lines 437-465). *)
Definition validateChaining (expectedPrevious operation : string) : M bool :=
  let* lastCondition := last_condition in
  match lastCondition with
  | None =>
      console_warn ("[useCondition] " +:+ operation +:+
        " called without a preceding condition. Use 'when()' or 'case()' first.") ;;;
      ret false
  | Some l =>
      let* c := load l in
      if String.eqb expectedPrevious "when" && negb (type_eqb (type c) type_when)
      then
        console_warn ("[useCondition] " +:+ operation +:+
          " should follow 'when()' but found '" +:+ type_name (type c) +:+ "'.") ;;;
        ret false
      else if String.eqb expectedPrevious "case"
              && negb (type_eqb (type c) type_match)
      then
        console_warn ("[useCondition] " +:+ operation +:+
          " should follow 'case()' but found '" +:+ type_name (type c) +:+ "'.") ;;;
        ret false
      else ret true
  end.

(** [when] (index.ts, lines 469-490). *)
Definition when (cond : JsValue) : M unit :=
  try_catch
    (when_true (negb (String.eqb (typeof cond) "boolean"))
       (console_warn "[useCondition] when() expects a boolean value. Non-boolean values will be converted using Boolean().") ;;;
     let* a := get_conditions in
     let* n := next_conditionIdCounter in
     let* l := new_object
                 (mkCase type_when (Some (JSBoolean (ToBoolean cond))) None
                         JSNull ("when-" +:+ decimal n)) in
     array_push a l)
    (fun error =>
       console_error "[useCondition] Error during condition evaluation:" error).

(** The body shared, word for word, by [then] and [render] after the
    validation. *)
Definition attach (multiple : string) (component' : JsValue) : M unit :=
  let* lastCondition := last_condition in
  match lastCondition with
  | None => ret tt
  | Some l =>
      let* c := load l in
      when_true (not_null (component c)) (console_warn multiple) ;;;
      update_object l (set_component component')
  end.

(** [then] (index.ts, lines 492-507). *)
Definition then_ (component' : JsValue) : M unit :=
  let* ok := validateChaining "when" "then()" in
  if negb ok then ret tt
  else attach "[useCondition] Multiple then() calls detected. Only the last one will be used." component'.

(** [match] (index.ts, lines 509-527).  An omitted comparator is [undefined],
    for which the default parameter value [defaultComparator] is taken
    silently. *)
Definition match_ (value' : JsValue) (comparator' : JsValue) : M unit :=
  let* m := get_meta in
  when_true (isInMatchMode m)
    (console_warn "[useCondition] Multiple match() calls detected. Previous match context will be overridden.") ;;;
  let* cmp :=
    match comparator' with
    | JSUndefined => ret comparator_default
    | JSFunction ref => ret (comparator_function ref)
    | _ =>
        console_warn "[useCondition] comparator must be a function. Using default comparator." ;;;
        ret comparator_default
    end in
  let* m := get_meta in
  put_meta (mkMeta (matchedIndex m) value' cmp true).

(** [case] (index.ts, lines 529-566). *)
Definition case (matchValue' : JsValue) : M unit :=
  try_catch
    (let* m := get_meta in
     if negb (isInMatchMode m) then
       console_warn "[useCondition] case() called without match(). Use match() first to set the value to compare against."
     else
       let currentValue := value m in
       let cmp := comparator m in
       let* cond :=
         try_catch (call_comparator cmp currentValue matchValue')
           (fun error =>
              console_error "[useCondition] Comparator function threw an error:" error ;;;
              ret (JSBoolean false)) in
       let* a := get_conditions in
       let* n := next_conditionIdCounter in
       let* l := new_object
                   (mkCase type_match (Some cond) (Some matchValue')
                           JSNull ("case-" +:+ decimal n)) in
       array_push a l)
    (fun error =>
       console_error "[useCondition] Error during condition evaluation:" error).

(** [render] (index.ts, lines 568-583). *)
Definition render (component' : JsValue) : M unit :=
  let* ok := validateChaining "case" "render()" in
  if negb ok then ret tt
  else attach "[useCondition] Multiple render() calls detected. Only the last one will be used." component'.

Definition is_fallback (c : ConditionCase) : bool :=
  type_eqb (type c) type_fallback.

(** [fallback] (index.ts, lines 585-603). *)
Definition fallback (component' : JsValue) : M unit :=
  let* a := get_conditions in
  let* arr := load_array a in
  let* existingFallback := find_in is_fallback (items arr) in
  match existingFallback with
  | Some l =>
      console_warn "[useCondition] Multiple fallback() calls detected. Only the last one will be used." ;;;
      update_object l (set_component component')
  | None =>
      let* n := next_conditionIdCounter in
      let* l := new_object
                  (mkCase type_fallback None None component'
                          ("fallback-" +:+ decimal n)) in
      array_push a l
  end.

(** [debug] (index.ts, lines 605-612). *)
Definition debug : M unit :=
  console_call (Group "[useCondition] Debug Info") ;;;
  let* w := get_world in
  console_call (Log "Conditions:" (arg_conditions (chain w))) ;;;
  let* m := get_meta in
  console_call (Log "Meta:" (arg_meta m)) ;;;
  let* m := get_meta in
  console_call (Log "Matched Index:" (arg_number (matchedIndex m))) ;;;
  console_call GroupEnd.

(** [getMatchedIndex] (index.ts, lines 616-618). *)
Definition getMatchedIndex : M Z :=
  let* m := get_meta in ret (matchedIndex m).

(** [hasMatched] (index.ts, lines 620-622). *)
Definition hasMatched : M bool :=
  let* m := get_meta in ret (negb (Z.eqb (matchedIndex m) (-1))).

(** [getConditions] (index.ts, lines 624-626): a spread copy, then frozen. *)
Definition getConditions : M nat :=
  let* a := get_conditions in
  let* arr := load_array a in
  let* copy := new_array (mkArray false (items arr)) in
  Object_freeze copy.

(** The filter predicate of [otherwise]. *)
Definition is_incomplete (c : ConditionCase) : bool :=
  (type_eqb (type c) type_when || type_eqb (type c) type_match)
  && strict_equals (component c) JSNull.

(** The test of the [for] loop of [otherwise]. *)
Definition is_selected (c : ConditionCase) : bool :=
  (type_eqb (type c) type_when || type_eqb (type c) type_match)
  && ToBoolean (read_property (condition c))
  && not_null (component c).

(** The [for] loop of [otherwise], from index [i] on; [Some v] is
    [return v] from inside the loop. *)
Fixpoint otherwise_loop (i : nat) (ls : list nat) : M (option JsValue) :=
  match ls with
  | [] => ret None
  | l :: ls' =>
      let* conditionCase := load l in
      if is_selected conditionCase then
        let* m := get_meta in
        put_meta (set_matchedIndex (Z.of_nat i) m) ;;;
        ret (Some (component conditionCase))
      else otherwise_loop (S i) ls'
  end.

(** [otherwise] (index.ts, lines 628-677).  An omitted argument is
    [undefined], replaced by the default parameter value [null]. *)
Definition otherwise (defaultComponent' : JsValue) : M JsValue :=
  let defaultComponent :=
    match defaultComponent' with
    | JSUndefined => JSNull
    | v => v
    end in
  try_catch
    (let* m := get_meta in
     put_meta (set_matchedIndex (-1) m) ;;;
     let* a := get_conditions in
     let* arr := load_array a in
     let* incompleteConditions := count_in is_incomplete (items arr) in
     when_true (0 <? incompleteConditions)%nat
       (console_warn ("[useCondition] Found " +:+ decimal incompleteConditions
                      +:+ " incomplete condition(s). These will be ignored.")) ;;;
     let* arr := load_array a in
     let* found := otherwise_loop 0 (items arr) in
     match found with
     | Some v => ret v
     | None =>
         let* arr := load_array a in
         let* fb := find_in is_fallback (items arr) in
         match fb with
         | Some l =>
             let* c := load l in
             if not_null (component c) then ret (component c)
             else ret defaultComponent
         | None => ret defaultComponent
         end
     end)
    (fun error =>
       console_error "[useCondition] Error during condition evaluation:" error ;;;
       ret defaultComponent).

End UseCondition.

(* ===================================================================== *)
(** ** API calls as data *)
(* ===================================================================== *)

(** One call on the handle.  An omitted optional argument is passed as
    [JSUndefined]. *)
Inductive ApiCall : Type :=
| call_when (cond : JsValue)
| call_then (component' : JsValue)
| call_match (value' comparator' : JsValue)
| call_case (matchValue' : JsValue)
| call_render (component' : JsValue)
| call_fallback (component' : JsValue)
| call_debug
| call_reset
| call_otherwise (defaultComponent' : JsValue)
| call_getMatchedIndex
| call_hasMatched
| call_getConditions.

(** What a call hands back: the handle itself, a payload, a number, a boolean
    or an array, observed through its frozen flag and the records its
    elements point to at the time of the call. *)
Inductive ApiResult : Type :=
| result_api
| result_node (v : JsValue)
| result_number (z : Z)
| result_boolean (b : bool)
| result_array (is_frozen : bool) (elements : list ConditionCase).

Definition read_array (a : nat) : M ApiResult :=
  let* arr := load_array a in
  let* w := get_world in
  ret (result_array (frozen arr) (records_at (objects w) (items arr))).

Section Calls.

Variable call_function : nat -> JsValue -> JsValue -> Completion JsValue.

Definition perform (c : ApiCall) : M ApiResult :=
  match c with
  | call_when cond => when cond ;;; ret result_api
  | call_then p => then_ p ;;; ret result_api
  | call_match v cmp => match_ v cmp ;;; ret result_api
  | call_case v => case call_function v ;;; ret result_api
  | call_render p => render p ;;; ret result_api
  | call_fallback p => fallback p ;;; ret result_api
  | call_debug => debug ;;; ret result_api
  | call_reset => reset ;;; ret result_api
  | call_otherwise d => let* v := otherwise d in ret (result_node v)
  | call_getMatchedIndex => let* i := getMatchedIndex in ret (result_number i)
  | call_hasMatched => let* b := hasMatched in ret (result_boolean b)
  | call_getConditions => let* a := getConditions in read_array a
  end.

(** A sequence of calls, collecting what each returns. *)
Fixpoint perform_all (cs : list ApiCall) : M (list ApiResult) :=
  match cs with
  | [] => ret []
  | c :: cs' =>
      let* r := perform c in
      let* rs := perform_all cs' in
      ret (r :: rs)
  end.

End Calls.

(* ===================================================================== *)
(** ** The chain of a world *)
(* ===================================================================== *)

Fixpoint distinct (ls : list nat) : bool :=
  match ls with
  | [] => true
  | l :: ls' => negb (existsb (Nat.eqb l) ls') && distinct ls'
  end.

(** Heap typing of one hook instance: [conditions.current] is an array the
    hook created itself (never frozen) whose elements are distinct records
    of the object store.  Every world the API produces satisfies it. *)
Definition wf (w : World) : bool :=
  match arrays w !! conditions_current w with
  | Some arr =>
      negb (frozen arr)
      && forallb (fun l => l <? length (objects w))%nat (items arr)
      && distinct (items arr)
  | None => false
  end.

(** The match context: the three fields of [meta.current] but
    [matchedIndex]. *)
Definition context_of (m : ConditionMeta) : JsValue * MatchComparator * bool :=
  (value m, comparator m, isInMatchMode m).
Definition match_context (w : World) : JsValue * MatchComparator * bool :=
  context_of (meta_current w).

(** The first record the [for] loop of [otherwise] accepts, with its index. *)
Definition first_selected (rs : list ConditionCase)
  : option (nat * ConditionCase) :=
  list_find (fun c => Is_true (is_selected c)) rs.

(** The record [find(c => c.type === "fallback")] returns. *)
Definition first_fallback (rs : list ConditionCase)
  : option (nat * ConditionCase) :=
  list_find (fun c => Is_true (is_fallback c)) rs.

(** The number of records [otherwise] reports as incomplete. *)
Definition incomplete_count (rs : list ConditionCase) : nat :=
  length (List.filter is_incomplete rs).

(** What [otherwise] returns on a chain without a selected record. *)
Definition fallback_or_default (rs : list ConditionCase) (d : JsValue)
  : JsValue :=
  let d' := match d with JSUndefined => JSNull | v => v end in
  match first_fallback rs with
  | Some (_, f) => if not_null (component f) then component f else d'
  | None => d'
  end.

(** The console calls of one [otherwise] on the chain [rs]. *)
Definition incomplete_warning (rs : list ConditionCase) : list ConsoleCall :=
  if (0 <? incomplete_count rs)%nat then
    [Warn ("[useCondition] Found " +:+ decimal (incomplete_count rs)
           +:+ " incomplete condition(s). These will be ignored.")]
  else [].

(* ===================================================================== *)
(** ** The operations on the chain alone *)
(* ===================================================================== *)

(** What the API can observe of a world: the branch sequence, [meta.current]
    and the id counter.  The functions below are the operations of the hook
    read on these three components only; each returns its result, the console
    calls it makes and the next state.  [perform_refines] proves that the
    store-based operations above compute exactly these. *)
Record Chain : Type := mkChain {
  branches : list ConditionCase;
  info : ConditionMeta;
  counter : nat
}.

Definition abstract (w : World) : Chain :=
  mkChain (chain w) (meta_current w) (conditionIdCounter w).

(** The warning of [validateChaining], if any. *)
Definition chaining_warning (expectedPrevious operation : string)
  (rs : list ConditionCase) : option string :=
  match last rs with
  | None =>
      Some ("[useCondition] " +:+ operation +:+
        " called without a preceding condition. Use 'when()' or 'case()' first.")
  | Some c =>
      if String.eqb expectedPrevious "when" && negb (type_eqb (type c) type_when)
      then Some ("[useCondition] " +:+ operation +:+
          " should follow 'when()' but found '" +:+ type_name (type c) +:+ "'.")
      else if String.eqb expectedPrevious "case"
              && negb (type_eqb (type c) type_match)
      then Some ("[useCondition] " +:+ operation +:+
          " should follow 'case()' but found '" +:+ type_name (type c) +:+ "'.")
      else None
  end.

Definition when_record (cond : JsValue) (n : nat) : ConditionCase :=
  mkCase type_when (Some (JSBoolean (ToBoolean cond))) None JSNull
         ("when-" +:+ decimal n).
Definition case_record (cond matchValue' : JsValue) (n : nat) : ConditionCase :=
  mkCase type_match (Some cond) (Some matchValue') JSNull
         ("case-" +:+ decimal n).
Definition fallback_record (component' : JsValue) (n : nat) : ConditionCase :=
  mkCase type_fallback None None component' ("fallback-" +:+ decimal n).

Definition then_multiple : string :=
  "[useCondition] Multiple then() calls detected. Only the last one will be used.".
Definition render_multiple : string :=
  "[useCondition] Multiple render() calls detected. Only the last one will be used.".
Definition fallback_multiple : string :=
  "[useCondition] Multiple fallback() calls detected. Only the last one will be used.".
Definition when_not_boolean : string :=
  "[useCondition] when() expects a boolean value. Non-boolean values will be converted using Boolean().".
Definition comparator_threw : string :=
  "[useCondition] Comparator function threw an error:".

Definition pure_when (cond : JsValue) (s : Chain)
  : list ConsoleCall * Chain :=
  ((if String.eqb (typeof cond) "boolean" then [] else [Warn when_not_boolean]),
   mkChain (branches s ++ [when_record cond (S (counter s))])
           (info s) (S (counter s))).

Definition pure_attach (expectedPrevious operation multiple : string)
  (p : JsValue) (s : Chain) : list ConsoleCall * Chain :=
  match chaining_warning expectedPrevious operation (branches s) with
  | Some message => ([Warn message], s)
  | None =>
      match last (branches s) with
      | Some r =>
          ((if not_null (component r) then [Warn multiple] else []),
           mkChain (<[pred (length (branches s)) := set_component p r]>
                      (branches s))
                   (info s) (counter s))
      | None => ([], s)
      end
  end.

Definition pure_match (value' comparator' : JsValue) (s : Chain)
  : list ConsoleCall * Chain :=
  let m := info s in
  ((if isInMatchMode m then
      [Warn "[useCondition] Multiple match() calls detected. Previous match context will be overridden."]
    else [])
   ++ match comparator' with
      | JSUndefined | JSFunction _ => []
      | _ => [Warn "[useCondition] comparator must be a function. Using default comparator."]
      end,
   mkChain (branches s)
           (mkMeta (matchedIndex m) value'
                   match comparator' with
                   | JSFunction ref => comparator_function ref
                   | _ => comparator_default
                   end
                   true)
           (counter s)).

Section PureCalls.

Variable call_function : nat -> JsValue -> JsValue -> Completion JsValue.

(** The value [case] stores in [condition], with the console call of the
    inner [catch]. *)
Definition compare (c : MatchComparator) (a b : JsValue)
  : JsValue * list ConsoleCall :=
  match c with
  | comparator_default => (defaultComparator a b, [])
  | comparator_function ref =>
      match call_function ref a b with
      | Normal v => (v, [])
      | Throw e => (JSBoolean false, [Error comparator_threw e])
      end
  end.

Definition pure_case (matchValue' : JsValue) (s : Chain)
  : list ConsoleCall * Chain :=
  let m := info s in
  if negb (isInMatchMode m) then
    ([Warn "[useCondition] case() called without match(). Use match() first to set the value to compare against."], s)
  else
    let r := compare (comparator m) (value m) matchValue' in
    (snd r,
     mkChain (branches s ++ [case_record (fst r) matchValue' (S (counter s))])
             m (S (counter s))).

Definition pure_fallback (component' : JsValue) (s : Chain)
  : list ConsoleCall * Chain :=
  match first_fallback (branches s) with
  | Some (i, f) =>
      ([Warn fallback_multiple],
       mkChain (<[i := set_component component' f]> (branches s))
               (info s) (counter s))
  | None =>
      ([],
       mkChain (branches s ++ [fallback_record component' (S (counter s))])
               (info s) (S (counter s)))
  end.

Definition pure_debug (s : Chain) : list ConsoleCall * Chain :=
  ([Group "[useCondition] Debug Info";
    Log "Conditions:" (arg_conditions (branches s));
    Log "Meta:" (arg_meta (info s));
    Log "Matched Index:" (arg_number (matchedIndex (info s)));
    GroupEnd], s).

Definition pure_reset (s : Chain) : list ConsoleCall * Chain :=
  ([], mkChain [] initial_meta (counter s)).

Definition pure_otherwise (d : JsValue) (s : Chain)
  : JsValue * (list ConsoleCall * Chain) :=
  match first_selected (branches s) with
  | Some (i, c) =>
      (component c,
       (incomplete_warning (branches s),
        mkChain (branches s) (set_matchedIndex (Z.of_nat i) (info s))
                (counter s)))
  | None =>
      (fallback_or_default (branches s) d,
       (incomplete_warning (branches s),
        mkChain (branches s) (set_matchedIndex (-1) (info s)) (counter s)))
  end.

Definition pure_perform (c : ApiCall) (s : Chain)
  : ApiResult * (list ConsoleCall * Chain) :=
  match c with
  | call_when cond => (result_api, pure_when cond s)
  | call_then p => (result_api, pure_attach "when" "then()" then_multiple p s)
  | call_match v cmp => (result_api, pure_match v cmp s)
  | call_case v => (result_api, pure_case v s)
  | call_render p =>
      (result_api, pure_attach "case" "render()" render_multiple p s)
  | call_fallback p => (result_api, pure_fallback p s)
  | call_debug => (result_api, pure_debug s)
  | call_reset => (result_api, pure_reset s)
  | call_otherwise d =>
      let r := pure_otherwise d s in (result_node (fst r), snd r)
  | call_getMatchedIndex =>
      (result_number (matchedIndex (info s)), ([], s))
  | call_hasMatched =>
      (result_boolean (negb (Z.eqb (matchedIndex (info s)) (-1))), ([], s))
  | call_getConditions => (result_array true (branches s), ([], s))
  end.

Fixpoint pure_perform_all (cs : list ApiCall) (s : Chain)
  : list ApiResult * (list ConsoleCall * Chain) :=
  match cs with
  | [] => ([], ([], s))
  | c :: cs' =>
      let r := pure_perform c s in
      let rs := pure_perform_all cs' (snd (snd r)) in
      (fst r :: fst rs, (fst (snd r) ++ fst (snd rs), snd (snd rs)))
  end.

End PureCalls.

(** A computation that ends normally with [r], keeps the world well formed,
    appends [out] to the console and leaves the observable state [s']. *)
Definition refines {A} (c : M A) (w : World) (r : A)
  (out : list ConsoleCall) (s' : Chain) : Prop :=
  outcome c w = Normal r
  /\ wf (exec c w) = true
  /\ abstract (exec c w) = s'
  /\ console (exec c w) = console w ++ out.

(* ===================================================================== *)
(** ** Representation: a world and the chain it stores *)
(* ===================================================================== *)

Definition points_to (objs : list ConditionCase) (l : nat) (c : ConditionCase)
  : Prop := objs !! l = Some c.

(** [Rep w ls rs]: [conditions.current] is an unfrozen array with the
    distinct elements [ls], which point to the records [rs]. *)
Record Rep (w : World) (ls : list nat) (rs : list ConditionCase) : Prop := {
  rep_array : arrays w !! conditions_current w = Some (mkArray false ls);
  rep_nodup : NoDup ls;
  rep_items : Forall2 (points_to (objects w)) ls rs
}.

(* ===================================================================== *)
(** ** Vocabulary of the properties *)
(* ===================================================================== *)

(** The three conditions of the loop test of [otherwise], one by one: the
    record is a [when] or a [match] record, its [condition] is truthy, its
    [component] is not [null]. *)
Definition guarded (r : ConditionCase) : Prop :=
  type r = type_when \/ type r = type_match.
Definition satisfied (r : ConditionCase) : Prop :=
  ToBoolean (read_property (condition r)) = true.
Definition payload_set (r : ConditionCase) : Prop :=
  component r <> JSNull.

(** The number of [fallback] records of a chain. *)
Definition fallback_count (rs : list ConditionCase) : nat :=
  length (List.filter is_fallback rs).

(** The calls other than [match] and [reset]. *)
Definition keeps_context (c : ApiCall) : bool :=
  match c with
  | call_match _ _ | call_reset => false
  | _ => true
  end.

(** *** What the holder of a snapshot can do with it *)

(** Code outside the hook that holds the array [getConditions] returned:
    it may push onto it, assign an element, truncate it, or write a field
    of one of its entries ([f] is the field update). *)
Inductive Mutation : Type :=
| mutate_push (x : nat)
| mutate_store (i x : nat)
| mutate_clear
| mutate_entry (i : nat) (f : ConditionCase -> ConditionCase).

Definition mutate (snapshot : nat) (m : Mutation) : M unit :=
  match m with
  | mutate_push x => array_push snapshot x
  | mutate_store i x => array_store snapshot i x
  | mutate_clear => array_clear snapshot
  | mutate_entry i f =>
      let* arr := load_array snapshot in
      match items arr !! i with
      | Some l => update_object l f
      | None => throw JSTypeError
      end
  end.

(** The mutations of the sequence itself, as opposed to its entries. *)
Definition on_sequence (m : Mutation) : bool :=
  match m with
  | mutate_entry _ _ => false
  | _ => true
  end.

(** [const s = c.getConditions(); try { mutation of s } catch {};
    c.otherwise(d)] *)
Definition otherwise_after_mutation (m : Mutation) (d : JsValue) : M JsValue :=
  let* snapshot := getConditions in
  try_catch (mutate snapshot m) (fun _ => ret tt) ;;;
  otherwise d.

(** [c.getConditions(); c.otherwise(d)] *)
Definition otherwise_after_snapshot (d : JsValue) : M JsValue :=
  getConditions ;;; otherwise d.

(** *** Observations up to record ids *)

(** The [id] of a record comes from the module-level counter; the
    following forget it, in records, results, console calls and states. *)
Definition erase_id (r : ConditionCase) : ConditionCase :=
  mkCase (type r) (condition r) (matchValue r) (component r) EmptyString.
Definition erase_chain (s : Chain) : Chain :=
  mkChain (erase_id <$> branches s) (info s) 0.
Definition erase_result (r : ApiResult) : ApiResult :=
  match r with
  | result_array fr rs => result_array fr (erase_id <$> rs)
  | _ => r
  end.
Definition erase_call (c : ConsoleCall) : ConsoleCall :=
  match c with
  | Log label (arg_conditions rs) => Log label (arg_conditions (erase_id <$> rs))
  | _ => c
  end.

(** Two steps (result, console calls, next state) that agree up to ids. *)
Definition same_but_ids {A} (erase : A -> A)
  (x y : A * (list ConsoleCall * Chain)) : Prop :=
  erase (fst x) = erase (fst y)
  /\ erase_call <$> fst (snd x) = erase_call <$> fst (snd y)
  /\ erase_chain (snd (snd x)) = erase_chain (snd (snd y)).

(** *** Sample worlds *)

(** A module just loaded, before any hook instance exists, and a first
    hook instance in it. *)
Definition empty_world : World := mkWorld [] [] 0 [] 0 initial_meta.
Definition fresh_handle : World := exec useCondition empty_world.

(** Four comparators a caller may pass: [comparators.strict], one that
    throws, one that returns the number 1, one that returns the empty
    string. *)
Definition sample_functions (ref : nat) (a b : JsValue) : Completion JsValue :=
  match ref with
  | 0 => Normal (comparators_strict a b)
  | 1 => Throw (JSString "Comparator error")
  | 2 => Normal (JSNumber (S754_finite false 1 0))
  | _ => Normal (JSString EmptyString)
  end.

(** [when(false).then(A).when(true).then(B).when(true).then(C)] *)
Definition sample_chain : World :=
  exec (perform_all sample_functions
          [call_when (JSBoolean false); call_then (JSString "A");
           call_when (JSBoolean true); call_then (JSString "B");
           call_when (JSBoolean true); call_then (JSString "C")])
       fresh_handle.
(** [when(false).then(A)] *)
Definition sample_unselected : World :=
  exec (perform_all sample_functions
          [call_when (JSBoolean false); call_then (JSString "A")])
       fresh_handle.
(** [snapshot[0].condition = true], by the holder of a snapshot *)
Definition write_condition_true : Mutation :=
  mutate_entry 0 (set_condition (JSBoolean true)).
(** [when(true)] *)
Definition sample_when : World :=
  exec (perform_all sample_functions [call_when (JSBoolean true)]) fresh_handle.
(** [match("test", throwing)] *)
Definition sample_throwing : World :=
  exec (perform_all sample_functions
          [call_match (JSString "test") (JSFunction 1)]) fresh_handle.
(** [match("x", () => 1)] *)
Definition sample_truthy : World :=
  exec (perform_all sample_functions
          [call_match (JSString "x") (JSFunction 2)]) fresh_handle.
(** [match("user", comparators.strict)] *)
Definition sample_match : World :=
  exec (perform_all sample_functions
          [call_match (JSString "user") (JSFunction 0)]) fresh_handle.

(** What a chain of calls on a new handle returns, and what it logs. *)
Definition replay (cs : list ApiCall) : Completion (list ApiResult) :=
  outcome (perform_all sample_functions cs) fresh_handle.
Definition replay_console (cs : list ApiCall) : list ConsoleCall :=
  console (exec (perform_all sample_functions cs) fresh_handle).

(* ===================================================================== *)
(** ** The other exports of the module *)
(* ===================================================================== *)

(** [comparators.greaterThan], [comparators.lessThan] and
    [comparators.range] (index.ts, lines 745-753), on the numbers their
    signatures ask for: [>], [<], [>=] and [<=] are the IEEE-754
    comparisons, false as soon as an operand is NaN. *)
Definition comparators_greaterThan (a b : spec_float) : bool := SFltb b a.
Definition comparators_lessThan (a b : spec_float) : bool := SFltb a b.
Definition comparators_range (value min max : spec_float) : bool :=
  SFleb min value && SFleb value max.

(** [Number.isNaN] on a number. *)
Definition is_nan (x : spec_float) : bool :=
  match x with
  | S754_nan => true
  | _ => false
  end.

(** A value handed to [comparators.includes]: an array with its elements, or
    anything else. *)
Inductive Includable : Type :=
| an_array (elements : list JsValue)
| not_an_array (v : JsValue).

(** The comparison [Array.prototype.includes] uses: strict equality, but NaN
    equals NaN. *)
Definition SameValueZero (x y : JsValue) : bool :=
  (Number_isNaN x && Number_isNaN y) || strict_equals x y.

(** [comparators.includes] (index.ts, lines 742-743). *)
Definition comparators_includes (array : Includable) (value : JsValue) : bool :=
  match array with
  | an_array elements => existsb (fun x => SameValueZero x value) elements
  | not_an_array _ => false
  end.

Section ReactNode.

(** [React.isValidElement] and [Array.isArray], which the module takes from
    its host. *)
Variable React_isValidElement : JsValue -> bool.
Variable Array_isArray : JsValue -> bool.

(** [isValidReactNode] (index.ts, lines 774-784). *)
Definition isValidReactNode (value : JsValue) : bool :=
  strict_equals value JSNull
  || strict_equals value JSUndefined
  || String.eqb (typeof value) "string"
  || String.eqb (typeof value) "number"
  || String.eqb (typeof value) "boolean"
  || React_isValidElement value
  || Array_isArray value.

End ReactNode.

(* ===================================================================== *)
(** ** Vocabulary of the properties of whole call sequences *)
(* ===================================================================== *)

(** The only error a call logs is the one of a throwing comparator. *)
Definition comparator_error (c : ConsoleCall) : Prop :=
  match c with
  | Error message _ => message = comparator_threw
  | _ => True
  end.

(** The comparator [match] stores for the value it is given. *)
Definition resolve_comparator (comparator' : JsValue) : MatchComparator :=
  match comparator' with
  | JSFunction ref => comparator_function ref
  | _ => comparator_default
  end.

(** What [debug] prints (index.ts, lines 605-612). *)
Definition debug_output (s : Chain) : list ConsoleCall :=
  [Group "[useCondition] Debug Info";
   Log "Conditions:" (arg_conditions (branches s));
   Log "Meta:" (arg_meta (info s));
   Log "Matched Index:" (arg_number (matchedIndex (info s)));
   GroupEnd].

(** The matched index is -1 or an index of the chain. *)
Definition index_in_range (s : Chain) : Prop :=
  (-1 <= matchedIndex (info s) < Z.of_nat (length (branches s)))%Z.

(** Two records that differ at most in their [component]. *)
Definition same_branch (r r' : ConditionCase) : Prop :=
  type r' = type r /\ condition r' = condition r
  /\ matchValue r' = matchValue r /\ id r' = id r.

(** [rs'] keeps every record of [rs] at its index, up to its [component]. *)
Definition keeps_branches (rs rs' : list ConditionCase) : Prop :=
  forall i r, rs !! i = Some r -> exists r', rs' !! i = Some r' /\ same_branch r r'.

(** The call is [reset]. *)
Definition is_reset (c : ApiCall) : bool :=
  match c with
  | call_reset => true
  | _ => false
  end.



(** The payloads and defaults a call hands to the hook. *)
Definition supplied (c : ApiCall) : list JsValue :=
  match c with
  | call_then p | call_render p | call_fallback p => [p]
  | call_otherwise d => [d]
  | _ => []
  end.

(** [P] holds of the node a call returned, if it returned one. *)
Definition node_results (P : JsValue -> Prop) (r : ApiResult) : Prop :=
  match r with
  | result_node v => P v
  | _ => True
  end.

(** [c] keeps [Q]: if [Q] holds before, it holds after, however [c] ends. *)
Definition keeps (Q : World -> Prop) {A} (c : M A) : Prop :=
  forall w, Q w -> Q (exec c w).

(** The array at [s] is frozen and holds the references [ls]. *)
Definition frozen_at (s : nat) (ls : list nat) (w : World) : Prop :=
  arrays w !! s = Some (mkArray true ls).

(** [rs'] is longer than [rs] and keeps its records as they are, except for
    the [component] of fallback records. *)
Definition keeps_guards (rs rs' : list ConditionCase) : Prop :=
  length rs < length rs'
  /\ forall i r, rs !! i = Some r ->
       exists r', rs' !! i = Some r'
                  /\ is_fallback r' = is_fallback r
                  /\ (is_fallback r = false -> r' = r).

Arguments first_selected : simpl never.
Arguments first_fallback : simpl never.
Arguments incomplete_count : simpl never.

(* ===================================================================== *)
(** ** The stores represent the chain *)
(* ===================================================================== *)

Lemma distinct_NoDup (ls : list nat) : distinct ls = true -> NoDup ls.
Proof.
  induction ls as [|l ls IH]; simpl; intros H; [constructor|].
  apply andb_prop in H as [Hn Hd]. constructor; [|auto].
  intros Hin. apply negb_true_iff in Hn.
  assert (existsb (Nat.eqb l) ls = true); [|congruence].
  apply existsb_exists. exists l. split; [|apply Nat.eqb_refl].
  by apply list_elem_of_In.
Qed.

Lemma NoDup_distinct (ls : list nat) : NoDup ls -> distinct ls = true.
Proof.
  induction 1 as [|l ls Hn _ IH]; simpl; [done|].
  rewrite IH, andb_true_r. apply negb_true_iff.
  destruct (existsb (Nat.eqb l) ls) eqn:E; [|done].
  apply existsb_exists in E as (y & Hy & Heq).
  apply Nat.eqb_eq in Heq; subst y. by apply list_elem_of_In in Hy.
Qed.

Lemma bounded_points_to (objs : list ConditionCase) (ls : list nat) :
  forallb (fun l => l <? length objs)%nat ls = true ->
  Forall2 (points_to objs) ls (records_at objs ls).
Proof.
  induction ls as [|l ls IH]; simpl; intros H; [constructor|].
  apply andb_prop in H as [Hl Hls]. apply Nat.ltb_lt in Hl.
  destruct (lookup_lt_is_Some_2 objs l Hl) as [c Hc].
  rewrite Hc. constructor; [done|by apply IH].
Qed.

Lemma points_to_records (objs : list ConditionCase) ls rs :
  Forall2 (points_to objs) ls rs -> records_at objs ls = rs.
Proof.
  induction 1 as [|l c ls rs Hl _ IH]; [done|].
  simpl. rewrite Hl. by rewrite IH.
Qed.

Lemma points_to_bounded (objs : list ConditionCase) ls rs :
  Forall2 (points_to objs) ls rs ->
  forallb (fun l => l <? length objs)%nat ls = true.
Proof.
  induction 1 as [|l c ls rs Hl _ IH]; [done|]. simpl.
  rewrite IH, andb_true_r. apply Nat.ltb_lt. by eapply lookup_lt_Some.
Qed.

(** A well-formed world represents its chain, and conversely. *)
Lemma wf_Rep (w : World) : wf w = true -> Rep w (current_items w) (chain w).
Proof.
  unfold wf, chain, current_items.
  destruct (arrays w !! conditions_current w) as [[fr ls]|] eqn:E; [|done].
  simpl. intros H. apply andb_prop in H as [H Hd]. apply andb_prop in H as [Hf Hb].
  apply negb_true_iff in Hf; subst fr.
  split; [done|by apply distinct_NoDup|by apply bounded_points_to].
Qed.

Lemma Rep_wf (w : World) ls rs : Rep w ls rs -> wf w = true.
Proof.
  intros [Ha Hn Hi]. unfold wf. rewrite Ha. simpl.
  rewrite (points_to_bounded _ _ _ Hi). by rewrite NoDup_distinct.
Qed.

Lemma Rep_chain (w : World) ls rs : Rep w ls rs -> chain w = rs.
Proof.
  intros [Ha Hn Hi]. unfold chain, current_items. rewrite Ha. simpl.
  by apply points_to_records.
Qed.

Lemma Rep_items (w : World) ls rs : Rep w ls rs -> current_items w = ls.
Proof. intros [Ha _ _]. unfold current_items. by rewrite Ha. Qed.

(** *** The store primitives on represented data *)

Lemma load_points_to (w : World) l c :
  points_to (objects w) l c -> load l w = (Normal c, w).
Proof. unfold points_to, load. by intros ->. Qed.

Lemma find_in_points_to (p : ConditionCase -> bool) (w : World) ls rs :
  Forall2 (points_to (objects w)) ls rs ->
  find_in p ls w =
    (Normal (match list_find (fun c => Is_true (p c)) rs with
             | Some (i, _) => ls !! i
             | None => None
             end), w).
Proof.
  induction 1 as [|l c ls rs Hl _ IH]; [done|].
  simpl. unfold bind. rewrite (load_points_to _ _ _ Hl).
  destruct (p c) eqn:E; simpl.
  - done.
  - rewrite IH. by destruct (list_find _ rs) as [[i x]|].
Qed.

Lemma count_in_points_to (p : ConditionCase -> bool) (w : World) ls rs :
  Forall2 (points_to (objects w)) ls rs ->
  count_in p ls w = (Normal (length (List.filter p rs)), w).
Proof.
  induction 1 as [|l c ls rs Hl _ IH]; [done|].
  simpl. unfold bind. rewrite (load_points_to _ _ _ Hl), IH.
  by destruct (p c).
Qed.

Lemma otherwise_loop_points_to (w : World) ls rs (i : nat) :
  Forall2 (points_to (objects w)) ls rs ->
  otherwise_loop i ls w =
    match first_selected rs with
    | Some (j, c) =>
        (Normal (Some (component c)),
         set_meta_current
           (set_matchedIndex (Z.of_nat (i + j)) (meta_current w)) w)
    | None => (Normal None, w)
    end.
Proof.
  intros H. revert i. unfold first_selected.
  induction H as [|l c ls rs Hl _ IH]; intros i; [done|].
  simpl. unfold bind. rewrite (load_points_to _ _ _ Hl).
  destruct (is_selected c) eqn:E; simpl.
  - unfold bind, get_meta, put_meta, modify, ret; simpl.
    by rewrite Nat.add_0_r.
  - rewrite IH.
    destruct (list_find _ rs) as [[j x]|]; simpl; [|done].
    by rewrite Nat.add_succ_r.
Qed.

(** *** Frames of the representation *)

Lemma Rep_same_store (w w' : World) ls rs :
  objects w' = objects w -> arrays w' = arrays w ->
  conditions_current w' = conditions_current w ->
  Rep w ls rs -> Rep w' ls rs.
Proof.
  intros Ho Ha Hc [H1 H2 H3]. split; [by rewrite Ha, Hc|done|by rewrite Ho].
Qed.

Lemma points_to_app (objs : list ConditionCase) c ls rs :
  Forall2 (points_to objs) ls rs ->
  Forall2 (points_to (objs ++ [c])) ls rs.
Proof.
  intros H. eapply Forall2_impl; [exact H|].
  intros l r Hl. unfold points_to in *. by apply lookup_app_l_Some.
Qed.

Lemma Rep_push (w : World) ls rs c :
  Rep w ls rs ->
  Rep (set_arrays
         (<[conditions_current w := mkArray false (ls ++ [length (objects w)])]>
            (arrays w))
         (set_objects (objects w ++ [c]) w))
      (ls ++ [length (objects w)]) (rs ++ [c]).
Proof.
  intros [Ha Hn Hi]. split; simpl.
  - apply list_lookup_insert_eq. by eapply lookup_lt_Some.
  - apply NoDup_app. split; [done|]. split; [|apply NoDup_singleton].
    intros l Hl Hl'. apply list_elem_of_singleton in Hl'. subst l.
    apply list_elem_of_lookup in Hl as [i Hi'].
    destruct (Forall2_lookup_l _ _ _ _ _ Hi Hi') as (r & _ & Hr).
    apply lookup_lt_Some in Hr. lia.
  - apply Forall2_app; [by apply points_to_app|].
    constructor; [|constructor]. unfold points_to.
    by rewrite lookup_app_r, Nat.sub_diag.
Qed.

Lemma Rep_update (w : World) ls rs i l r (f : ConditionCase -> ConditionCase) :
  Rep w ls rs -> ls !! i = Some l -> rs !! i = Some r ->
  Rep (set_objects (<[l := f r]> (objects w)) w) ls (<[i := f r]> rs).
Proof.
  intros [Ha Hn Hi] Hl Hr. split; simpl; [done|done|].
  apply Forall2_same_length_lookup_2.
  - rewrite length_insert. by eapply Forall2_length.
  - intros j l' r' Hl' Hr'. unfold points_to.
    destruct (decide (j = i)) as [->|Hne].
    + assert (l' = l) by congruence. subst l'.
      rewrite list_lookup_insert_eq in Hr' by (by eapply lookup_lt_Some).
      injection Hr' as <-. apply list_lookup_insert_eq.
      destruct (Forall2_lookup_l _ _ _ _ _ Hi Hl) as (r0 & _ & Hr0).
      by eapply lookup_lt_Some.
    + rewrite list_lookup_insert_ne in Hr' by done.
      rewrite list_lookup_insert_ne.
      * destruct (Forall2_lookup_l _ _ _ _ _ Hi Hl') as (r0 & Hr0 & Hp).
        congruence.
      * intros ->. apply Hne. symmetry. by eapply NoDup_lookup.
Qed.

Lemma refines_intro {A} (c : M A) (w w' : World) (r : A) ls' rs' out :
  c w = (Normal r, w') -> Rep w' ls' rs' ->
  console w' = console w ++ out ->
  refines c w r out (mkChain rs' (meta_current w') (conditionIdCounter w')).
Proof.
  intros Hc HR Hout. unfold refines, outcome, exec. rewrite Hc. simpl.
  split; [done|]. split; [by eapply Rep_wf|]. split; [|done].
  unfold abstract. by rewrite (Rep_chain _ _ _ HR).
Qed.

Lemma load_array_current (w : World) ls rs :
  Rep w ls rs -> load_array (conditions_current w) w = (Normal (mkArray false ls), w).
Proof. intros [Ha _ _]. unfold load_array. by rewrite Ha. Qed.

(** *** Each operation computes its reading on the chain *)

(** Unfolds the monad and the store primitives that do not read a store. *)
Ltac run :=
  unfold try_catch, bind, ret, throw, modify, when_true, get_meta, put_meta,
    get_conditions, get_world, console_warn, console_error, console_call,
    next_conditionIdCounter, new_object, new_array, update_object; cbn.

Lemma Rep_push_ext (w w' : World) ls rs c :
  Rep w ls rs ->
  objects w' = objects w ++ [c] ->
  arrays w' = <[conditions_current w := mkArray false (ls ++ [length (objects w)])]> (arrays w) ->
  conditions_current w' = conditions_current w ->
  Rep w' (ls ++ [length (objects w)]) (rs ++ [c]).
Proof.
  intros HR Ho Ha Hc. apply (Rep_push _ _ _ c) in HR.
  destruct HR as [H1 H2 H3]. split; [|done|].
  - by rewrite Ha, Hc.
  - by rewrite Ho.
Qed.

Lemma Rep_update_ext (w w' : World) ls rs i l r r' :
  Rep w ls rs -> ls !! i = Some l -> rs !! i = Some r ->
  objects w' = <[l := r']> (objects w) ->
  arrays w' = arrays w ->
  conditions_current w' = conditions_current w ->
  Rep w' ls (<[i := r']> rs).
Proof.
  intros HR Hl Hr Ho Ha Hc.
  apply (Rep_update _ _ _ _ _ _ (fun _ => r') HR Hl) in Hr.
  destruct Hr as [H1 H2 H3]. split; [|done|].
  - by rewrite Ha, Hc.
  - by rewrite Ho.
Qed.

Lemma refines_intro_ext {A} (c : M A) (w w' : World) (r : A) ls' rs' out m' n' :
  c w = (Normal r, w') -> Rep w' ls' rs' ->
  console w' = console w ++ out ->
  meta_current w' = m' -> conditionIdCounter w' = n' ->
  refines c w r out (mkChain rs' m' n').
Proof. intros Hc HR Hout <- <-. by eapply refines_intro. Qed.

(** One lemma per operation: on a well-formed world it ends normally and
    does to the chain, [meta.current], the counter and the console what its
    reading on the chain says. *)
Lemma when_refines (w : World) (cond : JsValue) :
  wf w = true ->
  refines (when cond) w tt (fst (pure_when cond (abstract w)))
          (snd (pure_when cond (abstract w))).
Proof.
  intros Hwf. apply wf_Rep in Hwf as HR.
  unfold abstract, pure_when; cbn.
  set (ls := current_items w) in *. set (rs := chain w) in *.
  destruct (String.eqb (typeof cond) "boolean") eqn:E.
  all: eapply refines_intro_ext;
    [ unfold when, array_push; run; rewrite E; cbn;
      unfold load_array; cbn; rewrite (rep_array _ _ _ HR); cbn; reflexivity
    | eapply Rep_push_ext; [exact HR|reflexivity..]
    | cbn; try (symmetry; apply app_nil_r); reflexivity
    | reflexivity
    | reflexivity ].
Qed.

Lemma Rep_last (w : World) ls rs :
  Rep w ls rs ->
  match last rs with
  | Some r => exists l, last ls = Some l /\ points_to (objects w) l r
                        /\ ls !! pred (length rs) = Some l
  | None => last ls = None
  end.
Proof.
  intros [_ _ Hi]. pose proof (Forall2_length _ _ _ Hi) as Hlen.
  rewrite !last_lookup, Hlen.
  destruct (rs !! pred (length rs)) as [r|] eqn:Hr.
  - destruct (Forall2_lookup_r _ _ _ _ _ Hi Hr) as (l & Hl & Hp). eauto.
  - destruct (ls !! pred (length rs)) as [l|] eqn:Hl; [|done].
    destruct (Forall2_lookup_l _ _ _ _ _ Hi Hl) as (r & Hr' & _). congruence.
Qed.

Lemma validateChaining_Rep (w : World) ls rs (e o : string) :
  Rep w ls rs ->
  validateChaining e o w =
    match chaining_warning e o rs with
    | Some message => (Normal false, set_console (console w ++ [Warn message]) w)
    | None => (Normal true, w)
    end.
Proof.
  intros HR. pose proof (Rep_last _ _ _ HR) as HL.
  unfold validateChaining, last_condition, chaining_warning. run.
  rewrite (load_array_current _ _ _ HR). cbn.
  destruct (last rs) as [r|].
  - destruct HL as (l & -> & Hp & _). rewrite (load_points_to _ _ _ Hp).
    destruct (String.eqb e "when" && negb (type_eqb (type r) type_when)); [done|].
    destruct (String.eqb e "case" && negb (type_eqb (type r) type_match)); done.
  - rewrite HL. done.
Qed.

Lemma attach_refines (w : World) (e o multiple : string) (p : JsValue)
  (validate : M bool) :
  wf w = true ->
  validate = validateChaining e o ->
  refines (let* ok := validate in
           if negb ok then ret tt else attach multiple p)
          w tt
          (fst (pure_attach e o multiple p (abstract w)))
          (snd (pure_attach e o multiple p (abstract w))).
Proof.
  intros Hwf ->. apply wf_Rep in Hwf as HR.
  pose proof (Rep_last _ _ _ HR) as HL.
  pose proof (validateChaining_Rep _ _ _ e o HR) as HV.
  unfold abstract, pure_attach; cbn.
  set (ls := current_items w) in *. set (rs := chain w) in *.
  assert (Hnone : chaining_warning e o rs = None -> last rs <> None).
  { unfold chaining_warning. by destruct (last rs). }
  destruct (chaining_warning e o rs) as [message|] eqn:EW.
  - eapply refines_intro_ext with (ls' := ls);
      [ unfold bind; rewrite HV; cbn; reflexivity
      | by apply (Rep_same_store w) | reflexivity.. ].
  - destruct (last rs) as [r|] eqn:ER; [|by destruct Hnone].
    destruct HL as (l & Hl & Hp & Hlk).
    assert (Hr : rs !! pred (length rs) = Some r) by (by rewrite <- last_lookup).
    destruct (not_null (component r)) eqn:EN.
    all: eapply refines_intro_ext with (ls' := ls);
      [ unfold bind; rewrite HV; cbn; unfold attach, last_condition; run;
        rewrite (load_array_current _ _ _ HR); cbn; rewrite Hl;
        rewrite (load_points_to _ _ _ Hp); rewrite EN; cbn;
        unfold load, bind, modify; cbn; rewrite Hp; reflexivity
      | eapply Rep_update_ext; [exact HR|exact Hlk|exact Hr|reflexivity..]
      | cbn; try (symmetry; apply app_nil_r); reflexivity
      | reflexivity | reflexivity ].
Qed.

Lemma then_refines (w : World) (p : JsValue) :
  wf w = true ->
  refines (then_ p) w tt
          (fst (pure_attach "when" "then()" then_multiple p (abstract w)))
          (snd (pure_attach "when" "then()" then_multiple p (abstract w))).
Proof. intros Hwf. by apply attach_refines. Qed.

Lemma render_refines (w : World) (p : JsValue) :
  wf w = true ->
  refines (render p) w tt
          (fst (pure_attach "case" "render()" render_multiple p (abstract w)))
          (snd (pure_attach "case" "render()" render_multiple p (abstract w))).
Proof. intros Hwf. by apply attach_refines. Qed.

Lemma match_refines (w : World) (v cmp : JsValue) :
  wf w = true ->
  refines (match_ v cmp) w tt (fst (pure_match v cmp (abstract w)))
          (snd (pure_match v cmp (abstract w))).
Proof.
  intros Hwf. apply wf_Rep in Hwf as HR.
  unfold abstract, pure_match; cbn.
  set (ls := current_items w) in *. set (rs := chain w) in *.
  destruct (isInMatchMode (meta_current w)) eqn:EM; destruct cmp.
  all: eapply refines_intro_ext with (ls' := ls);
      [ unfold match_; run; rewrite EM; cbn; reflexivity
      | by apply (Rep_same_store w)
      | cbn; try (symmetry; apply app_nil_r); try reflexivity
      | reflexivity | reflexivity ].
  all: by rewrite <- app_assoc.
Qed.

Lemma case_refines cf (w : World) (v : JsValue) :
  wf w = true ->
  refines (case cf v) w tt (fst (pure_case cf v (abstract w)))
          (snd (pure_case cf v (abstract w))).
Proof.
  intros Hwf. apply wf_Rep in Hwf as HR.
  unfold abstract, pure_case, compare; cbn.
  set (ls := current_items w) in *. set (rs := chain w) in *.
  destruct (isInMatchMode (meta_current w)) eqn:EM; cbn.
  - destruct (comparator (meta_current w)) as [|ref] eqn:EC;
      [|destruct (cf ref (value (meta_current w)) v) as [r|e] eqn:ER].
    all: eapply refines_intro_ext;
      [ unfold case, call_comparator, array_push; run; rewrite EM, EC; cbn;
        try rewrite ER; cbn;
        unfold load_array; cbn; rewrite (rep_array _ _ _ HR); cbn; reflexivity
      | eapply Rep_push_ext; [exact HR|reflexivity..]
      | cbn; try (symmetry; apply app_nil_r); reflexivity
      | reflexivity
      | reflexivity ].
  - eapply refines_intro_ext with (ls' := ls);
      [ unfold case; run; rewrite EM; cbn; reflexivity
      | by apply (Rep_same_store w) | reflexivity.. ].
Qed.

Lemma first_fallback_ref (w : World) ls rs i f :
  Rep w ls rs -> first_fallback rs = Some (i, f) ->
  exists l, ls !! i = Some l /\ points_to (objects w) l f /\ rs !! i = Some f.
Proof.
  intros [_ _ Hi] Hf. apply list_find_Some in Hf as (Hr & _ & _).
  destruct (Forall2_lookup_r _ _ _ _ _ Hi Hr) as (l & Hl & Hp). eauto.
Qed.

Lemma fallback_refines (w : World) (p : JsValue) :
  wf w = true ->
  refines (fallback p) w tt (fst (pure_fallback p (abstract w)))
          (snd (pure_fallback p (abstract w))).
Proof.
  intros Hwf. apply wf_Rep in Hwf as HR.
  pose proof (find_in_points_to is_fallback w _ _ (rep_items _ _ _ HR)) as HF.
  unfold abstract, pure_fallback; cbn [branches info counter].
  set (ls := current_items w) in *. set (rs := chain w) in *.
  fold (first_fallback rs) in HF.
  destruct (first_fallback rs) as [[i f]|] eqn:EF; cbn [fst snd].
  - destruct (first_fallback_ref _ _ _ _ _ HR EF) as (l & Hl & Hp & Hr).
    rewrite Hl in HF.
    eapply refines_intro_ext with (ls' := ls);
      [ unfold fallback; run; rewrite (load_array_current _ _ _ HR); cbn;
        rewrite HF; cbn; unfold load, bind, modify; cbn; rewrite Hp; reflexivity
      | eapply Rep_update_ext; [exact HR|exact Hl|exact Hr|reflexivity..]
      | reflexivity.. ].
  - eapply refines_intro_ext;
      [ unfold fallback, array_push; run; rewrite (load_array_current _ _ _ HR); cbn;
        rewrite HF; cbn;
        unfold load_array; cbn; rewrite (rep_array _ _ _ HR); cbn; reflexivity
      | eapply Rep_push_ext; [exact HR|reflexivity..]
      | cbn; try (symmetry; apply app_nil_r); reflexivity
      | reflexivity
      | reflexivity ].
Qed.

Lemma debug_refines (w : World) :
  wf w = true ->
  refines debug w tt (fst (pure_debug (abstract w)))
          (snd (pure_debug (abstract w))).
Proof.
  intros Hwf. apply wf_Rep in Hwf as HR.
  unfold abstract, pure_debug; cbn.
  eapply refines_intro_ext with (ls' := current_items w);
    [ unfold debug; run; reflexivity
    | by apply (Rep_same_store w)
    | cbn; by rewrite <- !app_assoc
    | reflexivity.. ].
Qed.

Lemma reset_Rep (w : World) : Rep (exec reset w) [] [].
Proof.
  unfold exec, reset. run. split; cbn.
  - by rewrite lookup_app_r, Nat.sub_diag.
  - constructor.
  - constructor.
Qed.

Lemma reset_refines (w : World) :
  refines reset w tt [] (mkChain [] initial_meta (conditionIdCounter w)).
Proof.
  eapply refines_intro_ext with (w' := exec reset w);
    [ reflexivity | apply reset_Rep | cbn; symmetry; apply app_nil_r
    | reflexivity | reflexivity ].
Qed.

Lemma useCondition_refines (w : World) :
  refines useCondition w tt [] (mkChain [] initial_meta (conditionIdCounter w)).
Proof. apply reset_refines. Qed.

Lemma find_fallback_points_to (w : World) ls rs :
  Forall2 (points_to (objects w)) ls rs ->
  find_in is_fallback ls w =
    (Normal (match first_fallback rs with
             | Some (i, _) => ls !! i
             | None => None
             end), w).
Proof. apply find_in_points_to. Qed.

Lemma count_incomplete_points_to (w : World) ls rs :
  Forall2 (points_to (objects w)) ls rs ->
  count_in is_incomplete ls w = (Normal (incomplete_count rs), w).
Proof. apply count_in_points_to. Qed.

Lemma otherwise_refines (w : World) (d : JsValue) :
  wf w = true ->
  refines (otherwise d) w (fst (pure_otherwise d (abstract w)))
          (fst (snd (pure_otherwise d (abstract w))))
          (snd (snd (pure_otherwise d (abstract w)))).
Proof.
  intros Hwf. apply wf_Rep in Hwf as HR.
  unfold abstract, pure_otherwise, incomplete_warning, fallback_or_default;
    cbn [branches info counter].
  set (ls := current_items w) in *. set (rs := chain w) in *.
  pose proof (rep_items _ _ _ HR) as HI.
  destruct (incomplete_count rs) as [|k] eqn:EI;
    destruct (first_selected rs) as [[i c]|] eqn:ES; cbn [fst snd];
    try (destruct (first_fallback rs) as [[j f]|] eqn:EF;
         [destruct (first_fallback_ref _ _ _ _ _ HR EF) as (l & Hl & Hp & Hr);
          destruct (not_null (component f)) eqn:EN|]).
  all: eapply refines_intro_ext with (ls' := ls);
    [ unfold otherwise; run;
      repeat first
        [ rewrite (rep_array _ _ _ HR)
        | erewrite count_incomplete_points_to by exact HI
        | erewrite otherwise_loop_points_to by exact HI
        | erewrite find_fallback_points_to by exact HI
        | rewrite EI | rewrite ES | rewrite EF | rewrite Hl | rewrite Hp
        | rewrite EN
        | progress unfold ret, modify, load_array, load
        | progress cbn ];
      reflexivity
    | by apply (Rep_same_store w)
    | cbn; try (symmetry; apply app_nil_r); reflexivity
    | reflexivity | reflexivity ].
Qed.

(** [getConditions] adds one frozen array and touches nothing else. *)
Lemma getConditions_run (w : World) ls rs :
  Rep w ls rs ->
  getConditions w =
    (Normal (length (arrays w)),
     set_arrays (arrays w ++ [mkArray true ls]) w).
Proof.
  intros HR. unfold getConditions, Object_freeze. run.
  rewrite (load_array_current _ _ _ HR). cbn.
  unfold load_array. cbn. rewrite lookup_app_r, Nat.sub_diag by done. cbn.
  unfold set_arrays; cbn. do 2 f_equal.
  rewrite insert_app_r_alt, Nat.sub_diag by lia. reflexivity.
Qed.

Lemma Rep_new_array (w : World) ls rs arr :
  Rep w ls rs -> Rep (set_arrays (arrays w ++ [arr]) w) ls rs.
Proof.
  intros [Ha Hn Hi]. split; [|done|done]. cbn. by apply lookup_app_l_Some.
Qed.

(** The same for a call given as data, and for a sequence of calls. *)
Lemma perform_refines cf (c : ApiCall) (w : World) :
  wf w = true ->
  refines (perform cf c) w (fst (pure_perform cf c (abstract w)))
          (fst (snd (pure_perform cf c (abstract w))))
          (snd (snd (pure_perform cf c (abstract w)))).
Proof.
  intros Hwf.
  assert (Hunit : forall (op : M unit) out s',
    refines op w tt out s' -> refines (op ;;; ret result_api) w result_api out s').
  { intros op out s'. unfold refines, outcome, exec, bind, ret.
    destruct (op w) as [[[]|e] w']; cbn; [|by intros [? _]].
    by intros (_ & ? & ? & ?). }
  destruct c; cbn [perform pure_perform fst snd].
  - by apply Hunit, when_refines.
  - by apply Hunit, then_refines.
  - by apply Hunit, match_refines.
  - by apply Hunit, case_refines.
  - by apply Hunit, render_refines.
  - by apply Hunit, fallback_refines.
  - by apply Hunit, debug_refines.
  - apply Hunit. pose proof (reset_refines w) as H.
    unfold pure_reset, abstract; cbn. exact H.
  - pose proof (otherwise_refines w defaultComponent' Hwf) as H.
    revert H. unfold refines, outcome, exec, bind, ret.
    destruct (otherwise defaultComponent' w) as [[v|e] w']; cbn; [|by intros [? _]].
    intros (Hv & ? & ? & ?). by injection Hv as ->.
  - apply wf_Rep in Hwf as HR.
    unfold abstract; cbn. eapply refines_intro_ext with (w' := w);
      [ reflexivity | exact HR | cbn; symmetry; apply app_nil_r | reflexivity.. ].
  - apply wf_Rep in Hwf as HR.
    unfold abstract; cbn. eapply refines_intro_ext with (w' := w);
      [ reflexivity | exact HR | cbn; symmetry; apply app_nil_r | reflexivity.. ].
  - apply wf_Rep in Hwf as HR.
    unfold abstract; cbn. eapply refines_intro_ext;
      [ unfold bind; rewrite (getConditions_run _ _ _ HR); cbn;
        unfold read_array, load_array; run;
        rewrite lookup_app_r, Nat.sub_diag by done; cbn;
        rewrite (points_to_records _ _ _ (rep_items _ _ _ HR)); reflexivity
      | by apply Rep_new_array
      | cbn; symmetry; apply app_nil_r | reflexivity.. ].
Qed.

Lemma perform_all_refines cf (cs : list ApiCall) (w : World) :
  wf w = true ->
  refines (perform_all cf cs) w (fst (pure_perform_all cf cs (abstract w)))
          (fst (snd (pure_perform_all cf cs (abstract w))))
          (snd (snd (pure_perform_all cf cs (abstract w)))).
Proof.
  revert w. induction cs as [|c cs IH]; intros w Hwf.
  - cbn. unfold refines, outcome, exec; cbn.
    repeat split; [done|by rewrite app_nil_r].
  - cbn [perform_all pure_perform_all fst snd].
    destruct (perform_refines cf c w Hwf) as (Ho & Hw & Ha & Hc).
    unfold outcome, exec in *.
    unfold refines, outcome, exec, bind.
    destruct (perform cf c w) as [[r|e] w1]; cbn in *; [|done].
    injection Ho as ->. specialize (IH w1 Hw).
    destruct IH as (Ho' & Hw' & Ha' & Hc'). unfold outcome, exec in *.
    rewrite Ha in *.
    destruct (perform_all cf cs w1) as [[rs|e] w2]; cbn in *; [|done].
    injection Ho' as ->. unfold ret; cbn.
    repeat split; [done|done|]. by rewrite Hc', Hc, app_assoc.
Qed.

(* ===================================================================== *)
(** ** Properties of the hook *)
(* ===================================================================== *)

(** Every world the API produces from a new handle is well formed. *)
Lemma wf_after_calls cf (w0 : World) (cs : list ApiCall) :
  wf (exec (perform_all cf cs) (exec useCondition w0)) = true.
Proof.
  destruct (useCondition_refines w0) as (_ & Hwf0 & _).
  by destruct (perform_all_refines cf cs _ Hwf0) as (_ & Hwf & _).
Qed.

(** *** The tests of the loop, in words *)

Lemma strict_equals_null (v : JsValue) :
  strict_equals v JSNull = true <-> v = JSNull.
Proof. destruct v; cbn; split; congruence. Qed.

Lemma not_null_spec (v : JsValue) : not_null v = true <-> v <> JSNull.
Proof.
  unfold not_null. rewrite negb_true_iff, <- not_true_iff_false.
  by rewrite strict_equals_null.
Qed.

Lemma not_null_false (v : JsValue) : not_null v = false <-> v = JSNull.
Proof.
  unfold not_null. rewrite negb_false_iff. apply strict_equals_null.
Qed.

Lemma type_eqb_spec (a b : ConditionType) : type_eqb a b = true <-> a = b.
Proof. destruct a, b; cbn; split; congruence. Qed.

Lemma is_selected_spec (r : ConditionCase) :
  is_selected r = true <-> guarded r /\ satisfied r /\ payload_set r.
Proof.
  unfold is_selected, guarded, satisfied, payload_set.
  rewrite !andb_true_iff, orb_true_iff, !type_eqb_spec, not_null_spec. tauto.
Qed.

Lemma is_fallback_spec (r : ConditionCase) :
  is_fallback r = true <-> type r = type_fallback.
Proof. apply type_eqb_spec. Qed.

Lemma first_selected_Some (rs : list ConditionCase) i r :
  first_selected rs = Some (i, r) <->
  rs !! i = Some r /\ is_selected r = true
  /\ forall j r', rs !! j = Some r' -> j < i -> is_selected r' = false.
Proof.
  unfold first_selected. rewrite list_find_Some.
  split; intros (H1 & H2 & H3); (split; [done|]); split.
  - by apply Is_true_true.
  - intros j r' Hj Hlt. apply not_true_iff_false. intros E.
    by apply (H3 j r' Hj Hlt), Is_true_true.
  - by apply Is_true_true.
  - intros j r' Hj Hlt E. apply Is_true_true in E.
    by rewrite (H3 j r' Hj Hlt) in E.
Qed.

Lemma first_selected_None (rs : list ConditionCase) :
  first_selected rs = None <-> forall r, r ∈ rs -> is_selected r = false.
Proof.
  unfold first_selected. rewrite list_find_None, Forall_forall.
  split; intros H r Hr.
  - apply not_true_iff_false. intros E. by apply (H r Hr), Is_true_true.
  - intros E. apply Is_true_true in E. by rewrite (H r Hr) in E.
Qed.

(** C1.  For every well-formed world, [otherwise(d)] returns the [component]
    of the first record, in append order, that is a [when] or [match] record
    with a truthy [condition] and a [component] other than [null], and
    stores its index in [matchedIndex]; when no record qualifies,
    [matchedIndex] is [-1] and the result is the [component] of the fallback
    record if there is one with a [component] other than [null], and else
    the default [d] ([null] when [d] is omitted).  The records themselves
    are left as they were. *)
Theorem otherwise_first_match_wins (w : World) (d : JsValue) :
  wf w = true ->
  let w' := exec (otherwise d) w in
  (forall i r,
      chain w !! i = Some r ->
      guarded r /\ satisfied r /\ payload_set r ->
      (forall j r', chain w !! j = Some r' -> j < i ->
                    ~ (guarded r' /\ satisfied r' /\ payload_set r')) ->
      outcome (otherwise d) w = Normal (component r)
      /\ matchedIndex (meta_current w') = Z.of_nat i)
  /\ ((forall r, r ∈ chain w ->
                 ~ (guarded r /\ satisfied r /\ payload_set r)) ->
      matchedIndex (meta_current w') = (-1)%Z
      /\ (forall j f, first_fallback (chain w) = Some (j, f) ->
                      payload_set f ->
                      outcome (otherwise d) w = Normal (component f))
      /\ ((first_fallback (chain w) = None
           \/ exists j f, first_fallback (chain w) = Some (j, f)
                          /\ component f = JSNull) ->
          outcome (otherwise d) w =
            Normal (match d with JSUndefined => JSNull | v => v end)))
  /\ chain w' = chain w.
Proof.
  intros Hwf w'.
  destruct (otherwise_refines w d Hwf) as (Ho & _ & Ha & _).
  fold w' in Ha. unfold abstract, pure_otherwise in *. cbn in *.
  split; [|split].
  - intros i r Hr Hsel Hfirst.
    assert (HS : first_selected (chain w) = Some (i, r)).
    { apply first_selected_Some. split; [done|]. split; [by apply is_selected_spec|].
      intros j r' Hj Hlt. apply not_true_iff_false. intros E.
      by apply (Hfirst j r' Hj Hlt), is_selected_spec. }
    rewrite HS in *. cbn in *. split; [done|]. by injection Ha as _ ->.
  - intros Hnone.
    assert (HS : first_selected (chain w) = None).
    { apply first_selected_None. intros r Hr. apply not_true_iff_false.
      intros E. by apply (Hnone r Hr), is_selected_spec. }
    rewrite HS in *. cbn in *. split; [by injection Ha as _ ->|].
    unfold fallback_or_default in Ho. split.
    + intros j f Hf Hp. rewrite Hf in Ho.
      apply not_null_spec in Hp. by rewrite Hp in Ho.
    + intros [Hf|(j & f & Hf & Hp)]; rewrite Hf in Ho; [done|].
      apply not_null_false in Hp. by rewrite Hp in Ho.
  - destruct (first_selected (chain w)) as [[i c]|]; cbn in Ha; by injection Ha.
Qed.

(** *** Attaching a payload *)

Lemma insert_last {A} (pre : list A) (x y : A) :
  <[pred (length (pre ++ [x])) := y]> (pre ++ [x]) = pre ++ [y].
Proof.
  rewrite length_app, Nat.add_1_r. cbn [pred].
  rewrite insert_app_r_alt, Nat.sub_diag by lia. done.
Qed.

Lemma chaining_warning_valid (e o : string) pre r :
  (e = "when" /\ type r = type_when) \/ (e = "case" /\ type r = type_match) ->
  chaining_warning e o (pre ++ [r]) = None.
Proof.
  unfold chaining_warning. rewrite last_snoc.
  intros [[-> ->]|[-> ->]]; reflexivity.
Qed.

Lemma pure_attach_valid (e o m : string) (p : JsValue) pre r i n :
  (e = "when" /\ type r = type_when) \/ (e = "case" /\ type r = type_match) ->
  pure_attach e o m p (mkChain (pre ++ [r]) i n) =
    ((if not_null (component r) then [Warn m] else []),
     mkChain (pre ++ [set_component p r]) i n).
Proof.
  intros H. unfold pure_attach. cbn [branches info counter].
  rewrite (chaining_warning_valid _ _ _ _ H), last_snoc.
  by rewrite insert_last.
Qed.

Lemma incomplete_count_snoc pre r :
  incomplete_count (pre ++ [r]) =
    (incomplete_count pre + if is_incomplete r then 1 else 0)%nat.
Proof.
  unfold incomplete_count. rewrite List.filter_app, length_app. cbn.
  by destruct (is_incomplete r).
Qed.

Lemma first_selected_snoc_None pre r :
  first_selected pre = None -> is_selected r = false ->
  first_selected (pre ++ [r]) = None.
Proof.
  rewrite !first_selected_None. intros Hpre Hr x Hx.
  apply elem_of_app in Hx as [Hx|Hx]; [by apply Hpre|].
  apply list_elem_of_singleton in Hx. by subst.
Qed.

Lemma first_selected_snoc_Some pre r :
  first_selected pre = None -> is_selected r = true ->
  first_selected (pre ++ [r]) = Some (length pre, r).
Proof.
  rewrite first_selected_None. intros Hpre Hr.
  apply first_selected_Some. split; [|split; [done|]].
  - by rewrite lookup_app_r, Nat.sub_diag.
  - intros j r' Hj Hlt. rewrite lookup_app_l in Hj by done.
    apply Hpre. by eapply list_elem_of_lookup_2.
Qed.

Lemma first_fallback_snoc pre r :
  is_fallback r = false -> first_fallback (pre ++ [r]) = first_fallback pre.
Proof.
  intros Hr. unfold first_fallback.
  destruct (list_find _ pre) as [[i f]|] eqn:E.
  - by apply list_find_app_l.
  - rewrite list_find_app_r by done. cbn. by rewrite Hr.
Qed.

Lemma fallback_or_default_snoc pre r d :
  is_fallback r = false ->
  fallback_or_default (pre ++ [r]) d = fallback_or_default pre d.
Proof. intros Hr. unfold fallback_or_default. by rewrite first_fallback_snoc. Qed.

Lemma attach_chain (w : World) (e o m : string) (op : JsValue -> M unit)
  pre r (p : JsValue) :
  wf w = true ->
  (forall q w0, wf w0 = true ->
     refines (op q) w0 tt (fst (pure_attach e o m q (abstract w0)))
             (snd (pure_attach e o m q (abstract w0)))) ->
  (e = "when" /\ type r = type_when) \/ (e = "case" /\ type r = type_match) ->
  chain w = pre ++ [r] ->
  refines (op p) w tt (if not_null (component r) then [Warn m] else [])
          (mkChain (pre ++ [set_component p r]) (meta_current w)
                   (conditionIdCounter w)).
Proof.
  intros Hwf Hop Hv Hc. specialize (Hop p w Hwf).
  unfold abstract in Hop. rewrite Hc in Hop.
  by rewrite (pure_attach_valid _ _ _ _ _ _ _ _ Hv) in Hop.
Qed.

(** C2 (amended).  The unset marker of a payload is [null] itself.  After
    [then(p)] on a [when] record, or [render(p)] on a [match] record, the
    record carries [p]; if [p] is not [null] (be it [undefined], [false],
    [0] or the empty string) it is not counted as incomplete and, when it
    is satisfied and no earlier record qualifies, [otherwise] returns [p]
    and sets [matchedIndex] to its index; if [p] is [null] the record is
    counted as incomplete and skipped, so that [otherwise] answers with the
    fallback or the default and [matchedIndex] is [-1]. *)
Theorem payload_supplied_iff_not_null (w : World) (t : ConditionType)
  (op : JsValue -> M unit) pre r (p d : JsValue) :
  wf w = true ->
  (t = type_when /\ op = then_) \/ (t = type_match /\ op = render) ->
  chain w = pre ++ [r] -> type r = t ->
  let w1 := exec (op p) w in
  let w2 := exec (otherwise d) w1 in
  chain w1 = pre ++ [set_component p r]
  /\ console w2 = console w1 ++ incomplete_warning (chain w1)
  /\ (p <> JSNull ->
      incomplete_count (chain w1) = incomplete_count pre
      /\ (satisfied r -> first_selected pre = None ->
          outcome (otherwise d) w1 = Normal p
          /\ matchedIndex (meta_current w2) = Z.of_nat (length pre)))
  /\ (p = JSNull ->
      incomplete_count (chain w1) = S (incomplete_count pre)
      /\ (first_selected pre = None ->
          outcome (otherwise d) w1 = Normal (fallback_or_default pre d)
          /\ matchedIndex (meta_current w2) = (-1)%Z)).
Proof.
  intros Hwf Hop Hc Ht w1 w2.
  assert (Hg : type r = type_when \/ type r = type_match)
    by (destruct Hop as [[-> _]|[-> _]]; auto).
  assert (HR : refines (op p) w tt
                 (if not_null (component r)
                  then [Warn (if type_eqb t type_when then then_multiple
                              else render_multiple)] else [])
                 (mkChain (pre ++ [set_component p r]) (meta_current w)
                          (conditionIdCounter w))).
  { destruct Hop as [[-> ->]|[-> ->]].
    - eapply attach_chain; eauto using then_refines.
    - eapply attach_chain; eauto using render_refines. }
  destruct HR as (_ & Hwf1 & Ha1 & _). fold w1 in Hwf1, Ha1.
  assert (Hc1 : chain w1 = pre ++ [set_component p r]).
  { unfold abstract in Ha1. by injection Ha1. }
  destruct (otherwise_refines w1 d Hwf1) as (Ho & _ & Ha2 & Hcon).
  fold w2 in Ha2, Hcon. unfold abstract, pure_otherwise in *.
  cbn [branches info counter] in *. rewrite Hc1 in *.
  assert (Hnf : is_fallback (set_component p r) = false).
  { unfold is_fallback; cbn. destruct Hg as [-> | ->]; reflexivity. }
  assert (Hinc : is_incomplete (set_component p r) = strict_equals p JSNull).
  { unfold is_incomplete; cbn. destruct Hg as [-> | ->]; reflexivity. }
  assert (Hsel : is_selected (set_component p r)
                 = ToBoolean (read_property (condition r)) && not_null p).
  { unfold is_selected; cbn. destruct Hg as [-> | ->]; reflexivity. }
  split; [done|]. split.
  { destruct (first_selected _) as [[? ?]|]; exact Hcon. }
  split.
  - intros Hp. apply not_null_spec in Hp as Hp'.
    rewrite incomplete_count_snoc, Hinc.
    unfold not_null in Hp'. apply negb_true_iff in Hp'. rewrite Hp'.
    split; [lia|]. intros Hs Hpre.
    assert (HS : first_selected (pre ++ [set_component p r])
                 = Some (length pre, set_component p r)).
    { apply first_selected_snoc_Some; [done|].
      rewrite Hsel. unfold satisfied in Hs. rewrite Hs. cbn.
      unfold not_null. by rewrite Hp'. }
    rewrite HS in Ho, Ha2. cbn in *. split; [done|].
    apply (f_equal info) in Ha2. cbn in Ha2. by rewrite Ha2.
  - intros ->. rewrite incomplete_count_snoc, Hinc. cbn.
    split; [lia|]. intros Hpre.
    assert (HS : first_selected (pre ++ [set_component JSNull r]) = None).
    { apply first_selected_snoc_None; [done|].
      rewrite Hsel. cbn. apply andb_false_r. }
    rewrite HS in Ho, Ha2. cbn in *.
    rewrite fallback_or_default_snoc in Ho by done. split; [done|].
    apply (f_equal info) in Ha2. cbn in Ha2. by rewrite Ha2.
Qed.

(** C2 as stated fails: [when(true).then(null).otherwise(D)] does not return
    the payload [null] with [matchedIndex] 0, as it would for any other
    payload; it returns [D]. *)
Lemma null_payload_counterexample :
  ~ (forall p : JsValue,
       outcome (perform_all sample_functions
                  [call_when (JSBoolean true); call_then p;
                   call_otherwise (JSString "D"); call_getMatchedIndex])
               fresh_handle
       = Normal [result_api; result_api; result_node p; result_number 0]).
Proof. intros H. specialize (H JSNull). vm_compute in H. discriminate. Qed.

(** *** The snapshot of [getConditions] *)

(** C3 as stated fails: after [when(false).then(A)], the write
    [snapshot[0].condition = true] makes [otherwise()] return [A] where it
    returned [null]. *)
Lemma snapshot_entry_counterexample :
  ~ (forall m : Mutation,
       outcome (otherwise_after_mutation m JSUndefined)
               (exec (perform_all sample_functions
                        [call_when (JSBoolean false); call_then (JSString "A")])
                     fresh_handle)
       = outcome (otherwise_after_snapshot JSUndefined)
               (exec (perform_all sample_functions
                        [call_when (JSBoolean false); call_then (JSString "A")])
                     fresh_handle)).
Proof.
  intros H. specialize (H (mutate_entry 0 (set_condition (JSBoolean true)))).
  vm_compute in H. discriminate.
Qed.

(** What [Object.freeze([...conditions.current])] does: [getConditions]
    returns a new frozen array, distinct from [conditions.current], holding
    the same record references.  A mutation of that array itself (push,
    element assignment, truncation) throws a [TypeError] and changes
    nothing, so a later [otherwise] returns what it would have returned;
    taking the snapshot does not change that result either.  The entries
    are neither copied nor frozen: a write to a field of entry [i] goes to
    record [i] of the chain. *)
Lemma getConditions_frozen_shallow_copy (w : World) :
  wf w = true ->
  let s := length (arrays w) in
  let w1 := exec getConditions w in
  outcome getConditions w = Normal s
  /\ s <> conditions_current w
  /\ arrays w1 !! s = Some (mkArray true (current_items w))
  /\ wf w1 = true /\ abstract w1 = abstract w
  /\ (forall m, on_sequence m = true ->
        mutate s m w1 = (Throw JSTypeError, w1))
  /\ (forall m d, on_sequence m = true ->
        otherwise_after_mutation m d w = otherwise_after_snapshot d w)
  /\ (forall d, outcome (otherwise_after_snapshot d) w = outcome (otherwise d) w)
  /\ (forall i f l c,
        current_items w !! i = Some l -> objects w !! l = Some c ->
        outcome (mutate s (mutate_entry i f)) w1 = Normal tt
        /\ chain (exec (mutate s (mutate_entry i f)) w1) = <[i := f c]> (chain w)).
Proof.
  intros Hwf s w1. apply wf_Rep in Hwf as HR.
  pose proof (getConditions_run _ _ _ HR) as Hrun.
  assert (Hw1 : w1 = set_arrays (arrays w ++ [mkArray true (current_items w)]) w).
  { unfold w1, exec. by rewrite Hrun. }
  assert (HR1 : Rep w1 (current_items w) (chain w)).
  { rewrite Hw1. by apply Rep_new_array. }
  assert (Hs : arrays w1 !! s = Some (mkArray true (current_items w))).
  { rewrite Hw1. cbn. by rewrite lookup_app_r, Nat.sub_diag. }
  assert (Hmut : forall m, on_sequence m = true ->
            mutate s m w1 = (Throw JSTypeError, w1)).
  { intros [x|i x| |i f] Hm; [| | |done]; cbn;
      unfold array_push, array_store, array_clear, bind, load_array;
      rewrite Hs; reflexivity. }
  split; [unfold outcome; by rewrite Hrun|].
  split.
  { destruct HR as [Ha _ _]. apply lookup_lt_Some in Ha. unfold s. lia. }
  split; [done|]. split; [by eapply Rep_wf|].
  split.
  { unfold abstract. rewrite (Rep_chain _ _ _ HR1). by rewrite Hw1. }
  split; [done|]. split.
  { intros m d Hm. unfold otherwise_after_mutation, otherwise_after_snapshot.
    unfold bind at 1 3. rewrite Hrun. fold s. rewrite <- Hw1.
    unfold bind, try_catch. rewrite (Hmut m Hm). reflexivity. }
  split.
  { intros d. unfold otherwise_after_snapshot, outcome, bind. rewrite Hrun.
    rewrite <- Hw1.
    destruct (otherwise_refines w d Hwf) as (Ho & _).
    destruct (otherwise_refines w1 d (Rep_wf _ _ _ HR1)) as (Ho1 & _).
    unfold outcome in *. rewrite Ho, Ho1.
    unfold abstract. rewrite (Rep_chain _ _ _ HR1).
    rewrite Hw1. cbn. unfold pure_otherwise. cbn.
    by destruct (first_selected (chain w)) as [[? ?]|]. }
  intros i f l c Hl Hc.
  assert (Hrs : chain w !! i = Some c).
  { destruct (Forall2_lookup_l _ _ _ _ _ (rep_items _ _ _ HR) Hl)
      as (c' & Hc' & Hp). unfold points_to in Hp. congruence. }
  assert (Hob : objects w1 = objects w) by (by rewrite Hw1).
  assert (Hex : mutate s (mutate_entry i f) w1
                = (Normal tt, set_objects (<[l := f c]> (objects w)) w1)).
  { cbn. unfold bind, load_array. rewrite Hs. cbn. rewrite Hl.
    unfold update_object, bind, load, modify. rewrite Hob, Hc.
    cbv beta. by rewrite Hob. }
  unfold outcome, exec. rewrite Hex. cbn. split; [done|].
  eapply Rep_chain. eapply Rep_update_ext; [exact HR1|exact Hl|exact Hrs|..];
    [cbn; by rewrite Hob|reflexivity..].
Qed.

(** C3 (the code against the claim).  The documentation of [getConditions]
    promises a read-only copy, and the claim asks that no mutation through
    the snapshot changes what [otherwise] returns.  The code freezes the
    array only.  After [when(false).then(A)], [otherwise()] returns [null]
    with [matchedIndex] -1; after the write [snapshot[0].condition = true],
    which succeeds, it returns [A] with [matchedIndex] 0, and the record of
    the chain holds the written value.  In general, for every chain and
    every write [f] to the entry [i] of a snapshot: the write succeeds,
    record [i] of the chain becomes [f c], and the following [otherwise]
    answers for the changed chain. *)
Theorem snapshot_entry_write_reaches_otherwise :
  (outcome (otherwise_after_snapshot JSUndefined) sample_unselected
   = Normal JSNull
   /\ matchedIndex (meta_current
        (exec (otherwise_after_snapshot JSUndefined) sample_unselected))
      = (-1)%Z
   /\ outcome (otherwise_after_mutation write_condition_true JSUndefined)
              sample_unselected
      = Normal (JSString "A")
   /\ matchedIndex (meta_current
        (exec (otherwise_after_mutation write_condition_true JSUndefined)
              sample_unselected))
      = 0%Z
   /\ condition <$> chain
        (exec (otherwise_after_mutation write_condition_true JSUndefined)
              sample_unselected)
      = [Some (JSBoolean true)])
  /\ (forall (w : World) (i : nat) (f : ConditionCase -> ConditionCase)
             (c : ConditionCase) (d : JsValue),
        wf w = true ->
        chain w !! i = Some c ->
        outcome (getConditions ;;; mutate (length (arrays w)) (mutate_entry i f))
                w = Normal tt
        /\ chain (exec (otherwise_after_mutation (mutate_entry i f) d) w)
           = <[i := f c]> (chain w)
        /\ outcome (otherwise_after_mutation (mutate_entry i f) d) w
           = Normal (match first_selected (<[i := f c]> (chain w)) with
                     | Some (_, r) => component r
                     | None => fallback_or_default (<[i := f c]> (chain w)) d
                     end)).
Proof.
  split; [by vm_compute|].
  intros w i f c d Hwf Hc. apply wf_Rep in Hwf as HR.
  pose proof (getConditions_run _ _ _ HR) as Hrun.
  set (s := length (arrays w)) in *.
  set (w1 := set_arrays (arrays w ++ [mkArray true (current_items w)]) w) in *.
  assert (HR1 : Rep w1 (current_items w) (chain w)) by (by apply Rep_new_array).
  assert (Hs : arrays w1 !! s = Some (mkArray true (current_items w))).
  { unfold w1, s. cbn. by rewrite lookup_app_r, Nat.sub_diag. }
  destruct (Forall2_lookup_r _ _ _ _ _ (rep_items _ _ _ HR) Hc)
    as (l & Hl & Hp). unfold points_to in Hp.
  assert (Hex : mutate s (mutate_entry i f) w1
                = (Normal tt, set_objects (<[l := f c]> (objects w1)) w1)).
  { cbn. unfold bind, load_array. rewrite Hs. cbn. rewrite Hl.
    unfold update_object, bind, load, modify.
    change (objects w1) with (objects w). by rewrite Hp. }
  set (w2 := set_objects (<[l := f c]> (objects w1)) w1) in *.
  assert (HR2 : Rep w2 (current_items w) (<[i := f c]> (chain w))).
  { by apply Rep_update. }
  assert (Hrun' : otherwise_after_mutation (mutate_entry i f) d w
                  = otherwise d w2).
  { unfold otherwise_after_mutation. unfold bind at 1. rewrite Hrun.
    unfold bind, try_catch. by rewrite Hex. }
  destruct (otherwise_refines w2 d (Rep_wf _ _ _ HR2)) as (Ho & _ & Ha & _).
  split.
  { unfold outcome, bind. rewrite Hrun. by rewrite Hex. }
  split.
  - unfold exec. rewrite Hrun'. fold (exec (otherwise d) w2).
    apply (f_equal branches) in Ha. cbn [abstract branches] in Ha.
    rewrite Ha. unfold abstract, pure_otherwise. cbn [branches info counter].
    rewrite (Rep_chain _ _ _ HR2).
    by destruct (first_selected _) as [[? ?]|].
  - unfold outcome in *. rewrite Hrun', Ho.
    unfold abstract, pure_otherwise. cbn [branches info counter].
    rewrite (Rep_chain _ _ _ HR2).
    by destruct (first_selected _) as [[? ?]|].
Qed.

(** C4.  In an open match context whose comparator throws [e] on
    (subject, [v]), [case(v)] returns normally, logs one error carrying
    [e], appends the [match] record with [condition = false] and
    [component = null], leaves [meta.current] alone, and leaves the very
    state a comparator returning [false] would have left. *)
Theorem case_catches_throwing_comparator
  (cf : nat -> JsValue -> JsValue -> Completion JsValue)
  (w : World) (v : JsValue) (ref : nat) (e : JsValue) :
  wf w = true ->
  isInMatchMode (meta_current w) = true ->
  comparator (meta_current w) = comparator_function ref ->
  cf ref (value (meta_current w)) v = Throw e ->
  let w' := exec (case cf v) w in
  outcome (case cf v) w = Normal tt
  /\ console w' = console w ++ [Error comparator_threw e]
  /\ chain w' = chain w
               ++ [mkCase type_match (Some (JSBoolean false)) (Some v) JSNull
                          ("case-" +:+ decimal (S (conditionIdCounter w)))]
  /\ meta_current w' = meta_current w
  /\ wf w' = true
  /\ (forall cf' : nat -> JsValue -> JsValue -> Completion JsValue,
        cf' ref (value (meta_current w)) v = Normal (JSBoolean false) ->
        abstract w' = abstract (exec (case cf' v) w)).
Proof.
  intros Hwf Hm Hc He w'.
  destruct (case_refines cf w v Hwf) as (Ho & Hwf' & Ha & Hcon).
  fold w' in Hwf', Ha, Hcon.
  unfold pure_case, compare, abstract in *. cbn [info branches counter] in *.
  rewrite Hm, Hc, He in *. cbn in *.
  split; [done|]. split; [done|].
  split; [by apply (f_equal branches) in Ha|].
  split; [by apply (f_equal info) in Ha|]. split; [done|].
  intros cf' He'.
  destruct (case_refines cf' w v Hwf) as (_ & _ & Ha' & _).
  unfold pure_case, compare, abstract in Ha'. cbn [info branches counter] in Ha'.
  rewrite Hm, Hc, He' in Ha'. cbn in Ha'. unfold abstract. congruence.
Qed.

(** *** Misuse of [then] and [render] *)

Lemma then_misuse_run (w : World) (e o m : string) (p : JsValue) message :
  wf w = true -> chaining_warning e o (chain w) = Some message ->
  (let* ok := validateChaining e o in
   if negb ok then ret tt else attach m p) w
  = (Normal tt, set_console (console w ++ [Warn message]) w).
Proof.
  intros Hwf Hw. apply wf_Rep in Hwf as HR.
  unfold bind. rewrite (validateChaining_Rep _ _ _ e o HR), Hw. reflexivity.
Qed.

Lemma chaining_warning_misuse (e o : string) (t : ConditionType) rs :
  (e = "when" /\ t = type_when) \/ (e = "case" /\ t = type_match) ->
  rs = [] \/ (exists pre r, rs = pre ++ [r] /\ type r <> t) ->
  exists message, chaining_warning e o rs = Some message.
Proof.
  intros He [->|(pre & r & -> & Hr)]; unfold chaining_warning.
  - cbn. eauto.
  - rewrite last_snoc.
    destruct He as [[-> ->]|[-> ->]]; destruct (type r); cbn; eauto; done.
Qed.

(** C5.  [then(p)] on an empty chain, or on a chain whose last record is
    not a [when] record, logs one warning and changes nothing else in the
    world; on a chain ending in a [when] record it replaces that record's
    [component] by [p], after the warning about multiple calls if the
    [component] was not [null], and changes neither [meta.current] nor the id
    counter.  [render(p)] does the same with [match] records. *)
Theorem then_render_contract (w : World) (p : JsValue) :
  wf w = true ->
  (chain w = [] \/ (exists pre r, chain w = pre ++ [r] /\ type r <> type_when) ->
   exists message,
     then_ p w = (Normal tt, set_console (console w ++ [Warn message]) w))
  /\ (forall pre r, chain w = pre ++ [r] -> type r = type_when ->
      let w' := exec (then_ p) w in
      outcome (then_ p) w = Normal tt
      /\ chain w' = pre ++ [set_component p r]
      /\ console w' = console w
                      ++ (if not_null (component r)
                          then [Warn then_multiple] else [])
      /\ meta_current w' = meta_current w
      /\ conditionIdCounter w' = conditionIdCounter w)
  /\ (chain w = [] \/ (exists pre r, chain w = pre ++ [r] /\ type r <> type_match) ->
      exists message,
        render p w = (Normal tt, set_console (console w ++ [Warn message]) w))
  /\ (forall pre r, chain w = pre ++ [r] -> type r = type_match ->
      let w' := exec (render p) w in
      outcome (render p) w = Normal tt
      /\ chain w' = pre ++ [set_component p r]
      /\ console w' = console w
                      ++ (if not_null (component r)
                          then [Warn render_multiple] else [])
      /\ meta_current w' = meta_current w
      /\ conditionIdCounter w' = conditionIdCounter w).
Proof.
  intros Hwf.
  assert (Hok : forall e o m (op : JsValue -> M unit) t pre r,
    (forall q w0, wf w0 = true ->
       refines (op q) w0 tt (fst (pure_attach e o m q (abstract w0)))
               (snd (pure_attach e o m q (abstract w0)))) ->
    (e = "when" /\ t = type_when) \/ (e = "case" /\ t = type_match) ->
    chain w = pre ++ [r] -> type r = t ->
    outcome (op p) w = Normal tt
    /\ chain (exec (op p) w) = pre ++ [set_component p r]
    /\ console (exec (op p) w) = console w
         ++ (if not_null (component r) then [Warn m] else [])
    /\ meta_current (exec (op p) w) = meta_current w
    /\ conditionIdCounter (exec (op p) w) = conditionIdCounter w).
  { intros e o m op t pre r Hop He Hc Ht.
    destruct (attach_chain w e o m op pre r p Hwf Hop) as (Ho & _ & Ha & Hcon);
      [destruct He as [[-> <-]|[-> <-]]; auto|done|].
    unfold abstract in Ha.
    split; [done|]. split; [by apply (f_equal branches) in Ha|].
    split; [done|]. split; [by apply (f_equal info) in Ha|].
    by apply (f_equal counter) in Ha. }
  split; [|split; [|split]].
  - intros Hmis.
    destruct (chaining_warning_misuse "when" "then()" type_when (chain w))
      as [message Hw]; [auto|done|].
    exists message. by apply then_misuse_run.
  - intros pre r Hc Ht. eapply Hok; eauto using then_refines.
  - intros Hmis.
    destruct (chaining_warning_misuse "case" "render()" type_match (chain w))
      as [message Hw]; [auto|done|].
    exists message. by apply then_misuse_run.
  - intros pre r Hc Ht. eapply Hok; eauto using render_refines.
Qed.

(** *** At most one fallback record *)

Lemma fallback_count_app rs1 rs2 :
  fallback_count (rs1 ++ rs2) = (fallback_count rs1 + fallback_count rs2)%nat.
Proof. unfold fallback_count. by rewrite List.filter_app, length_app. Qed.

Lemma fallback_count_zero rs r :
  fallback_count rs = 0 -> r ∈ rs -> is_fallback r = false.
Proof.
  unfold fallback_count. induction rs as [|x rs IH]; intros H Hr.
  - by apply elem_of_nil in Hr.
  - cbn in H. apply elem_of_cons in Hr.
    destruct (is_fallback x) eqn:E; [done|].
    destruct Hr as [->|Hr]; [done|by apply IH].
Qed.

Lemma fallback_count_insert rs i r r' :
  rs !! i = Some r -> is_fallback r' = is_fallback r ->
  fallback_count (<[i := r']> rs) = fallback_count rs.
Proof.
  revert i. induction rs as [|x rs IH]; intros [|i] Hr Hf; try done.
  - cbn in Hr. injection Hr as ->. unfold fallback_count.
    change (<[0 := r']> (r :: rs)) with (r' :: rs).
    cbn [List.filter]. rewrite Hf. by destruct (is_fallback r).
  - cbn in Hr. specialize (IH i Hr Hf). unfold fallback_count in *.
    change (<[S i := r']> (x :: rs)) with (x :: <[i := r']> rs).
    cbn [List.filter]. destruct (is_fallback x); cbn [length]; by rewrite IH.
Qed.

Lemma first_fallback_None_count rs :
  first_fallback rs = None -> fallback_count rs = 0.
Proof.
  unfold first_fallback, fallback_count. rewrite list_find_None.
  induction 1 as [|x rs Hx _ IH]; [done|]. cbn.
  destruct (is_fallback x); [by destruct Hx|done].
Qed.

Lemma fallback_unique rs i j f g :
  fallback_count rs <= 1 ->
  rs !! i = Some f -> rs !! j = Some g ->
  is_fallback f = true -> is_fallback g = true -> i = j.
Proof.
  revert i j. induction rs as [|x rs IH]; intros i j Hc Hi Hj Hf Hg; [done|].
  unfold fallback_count in Hc. cbn in Hc.
  destruct (is_fallback x) eqn:E.
  - cbn in Hc. assert (H0 : fallback_count rs = 0) by (unfold fallback_count; lia).
    destruct i as [|i], j as [|j]; [done| | |].
    + cbn in Hj. apply list_elem_of_lookup_2 in Hj.
      by rewrite (fallback_count_zero _ _ H0 Hj) in Hg.
    + cbn in Hi. apply list_elem_of_lookup_2 in Hi.
      by rewrite (fallback_count_zero _ _ H0 Hi) in Hf.
    + cbn in Hi. apply list_elem_of_lookup_2 in Hi.
      by rewrite (fallback_count_zero _ _ H0 Hi) in Hf.
  - destruct i as [|i]; [cbn in Hi; congruence|].
    destruct j as [|j]; [cbn in Hj; congruence|].
    f_equal. by apply (IH i j).
Qed.

Lemma first_fallback_unique rs i f :
  fallback_count rs <= 1 -> rs !! i = Some f -> is_fallback f = true ->
  first_fallback rs = Some (i, f).
Proof.
  intros Hc Hi Hf. unfold first_fallback. apply list_find_Some.
  split; [done|]. split; [by apply Is_true_true|].
  intros j g Hj Hlt Hg. apply Is_true_true in Hg.
  pose proof (fallback_unique _ _ _ _ _ Hc Hi Hj Hf Hg). lia.
Qed.

Lemma fallback_count_snoc rs r :
  is_fallback r = false -> fallback_count (rs ++ [r]) = fallback_count rs.
Proof.
  intros Hr. rewrite fallback_count_app. unfold fallback_count at 2.
  cbn [List.filter]. rewrite Hr. cbn. lia.
Qed.

Lemma pure_attach_fallback_count (e o m : string) (p : JsValue) (s : Chain) :
  fallback_count (branches (snd (pure_attach e o m p s)))
  = fallback_count (branches s).
Proof.
  unfold pure_attach.
  destruct (chaining_warning e o (branches s)); [done|].
  destruct (last (branches s)) as [r|] eqn:E; [|done]. cbn [snd branches].
  rewrite last_lookup in E. by rewrite (fallback_count_insert _ _ r).
Qed.

Lemma pure_perform_fallback_count cf (c : ApiCall) (s : Chain) :
  fallback_count (branches s) <= 1 ->
  fallback_count (branches (snd (snd (pure_perform cf c s)))) <= 1.
Proof.
  intros H. destruct c; cbn [pure_perform fst snd]; try done.
  - unfold pure_when. cbn [snd branches]. by rewrite fallback_count_snoc.
  - by rewrite pure_attach_fallback_count.
  - unfold pure_case. destruct (negb _); [done|]. cbn [snd branches].
    by rewrite fallback_count_snoc.
  - by rewrite pure_attach_fallback_count.
  - unfold pure_fallback.
    destruct (first_fallback (branches s)) as [[i f]|] eqn:E; cbn [snd branches].
    + apply list_find_Some in E as (Hi & _ & _).
      by rewrite (fallback_count_insert _ _ f).
    + rewrite fallback_count_app, (first_fallback_None_count _ E).
      unfold fallback_count. cbn. lia.
  - unfold fallback_count. cbn. lia.
  - unfold pure_otherwise.
    by destruct (first_selected (branches s)) as [[? ?]|].
Qed.

Lemma pure_perform_all_fallback_count cf (cs : list ApiCall) (s : Chain) :
  fallback_count (branches s) <= 1 ->
  fallback_count (branches (snd (snd (pure_perform_all cf cs s)))) <= 1.
Proof.
  revert s. induction cs as [|c cs IH]; intros s H; [done|].
  cbn. apply IH. by apply pure_perform_fallback_count.
Qed.

(** C6.  Whatever calls were made on a handle since it was created, its
    chain holds at most one [fallback] record, and still does after a
    further [fallback(p)]: if a [fallback] record sits at index [i], the
    call replaces its [component] in place, logs one warning and creates no
    record; if there is none, the call appends one at the end. *)
Theorem at_most_one_fallback
  (cf : nat -> JsValue -> JsValue -> Completion JsValue)
  (w0 : World) (cs : list ApiCall) (p : JsValue) :
  let w := exec (perform_all cf cs) (exec useCondition w0) in
  let w' := exec (fallback p) w in
  wf w = true
  /\ fallback_count (chain w) <= 1
  /\ fallback_count (chain w') <= 1
  /\ (forall i f, chain w !! i = Some f -> type f = type_fallback ->
        chain w' = <[i := set_component p f]> (chain w)
        /\ console w' = console w ++ [Warn fallback_multiple]
        /\ conditionIdCounter w' = conditionIdCounter w)
  /\ ((forall f, f ∈ chain w -> type f <> type_fallback) ->
        chain w' = chain w ++ [fallback_record p (S (conditionIdCounter w))]
        /\ console w' = console w).
Proof.
  intros w w'.
  destruct (useCondition_refines w0) as (_ & Hwf0 & Ha0 & _).
  destruct (perform_all_refines cf cs _ Hwf0) as (_ & Hwf & Ha & _).
  fold w in Hwf, Ha.
  assert (Hcount : fallback_count (chain w) <= 1).
  { change (chain w) with (branches (abstract w)). rewrite Ha.
    apply pure_perform_all_fallback_count. rewrite Ha0.
    unfold fallback_count. cbn. lia. }
  destruct (fallback_refines w p Hwf) as (_ & _ & Ha' & Hcon).
  fold w' in Ha', Hcon.
  split; [done|]. split; [done|]. split.
  { change (chain w') with (branches (abstract w')). rewrite Ha'.
    apply (pure_perform_fallback_count cf (call_fallback p) (abstract w) Hcount). }
  unfold pure_fallback, abstract in Ha', Hcon. cbn [branches info counter] in *.
  split.
  - intros i f Hi Hf. apply is_fallback_spec in Hf.
    rewrite (first_fallback_unique _ _ _ Hcount Hi Hf) in Ha', Hcon. cbn in *.
    split; [by apply (f_equal branches) in Ha'|]. split; [done|].
    by apply (f_equal counter) in Ha'.
  - intros Hnone.
    assert (E : first_fallback (chain w) = None).
    { unfold first_fallback. apply list_find_None, Forall_forall.
      intros f Hf Hfb. apply Is_true_true, is_fallback_spec in Hfb.
      by apply (Hnone f Hf). }
    rewrite E in Ha', Hcon. cbn in *.
    split; [by apply (f_equal branches) in Ha'|]. by rewrite app_nil_r in Hcon.
Qed.

(** *** The default comparator *)

Lemma defaultComparator_true (a b : JsValue) :
  defaultComparator a b = JSBoolean true <->
  (a = NaN /\ b = NaN) \/ strict_equals a b = true.
Proof.
  unfold defaultComparator.
  destruct (Number_isNaN a) eqn:Ea; destruct (Number_isNaN b) eqn:Eb; cbn.
  - split; [|done]. intros _. left.
    destruct a as [| | |[]| | | |], b as [| | |[]| | | |]; try discriminate.
    done.
  - split.
    + intros H. right. congruence.
    + intros [[_ ->]|H]; [done|by rewrite H].
  - split.
    + intros H. right. congruence.
    + intros [[-> _]|H]; [done|by rewrite H].
  - split.
    + intros H. right. congruence.
    + intros [[-> _]|H]; [done|by rewrite H].
Qed.

(** C8.  [defaultComparator] answers a boolean, which is [true] exactly when
    both arguments are [NaN] or they are strictly equal, while [NaN === NaN]
    is [false]; and on a new handle
    [match(NaN).case(NaN).render(A).otherwise()] returns [A]. *)
Theorem defaultComparator_NaN_equal
  (cf : nat -> JsValue -> JsValue -> Completion JsValue)
  (w0 : World) (A : JsValue) :
  (forall a b,
      defaultComparator a b = JSBoolean true <->
      (a = NaN /\ b = NaN) \/ strict_equals a b = true)
  /\ (forall a b,
        defaultComparator a b = JSBoolean true
        \/ defaultComparator a b = JSBoolean false)
  /\ strict_equals NaN NaN = false
  /\ outcome (perform_all cf [call_match NaN JSUndefined; call_case NaN;
                              call_render A; call_otherwise JSUndefined])
             (exec useCondition w0)
     = Normal [result_api; result_api; result_api; result_node A].
Proof.
  split; [apply defaultComparator_true|]. split.
  { intros a b. unfold defaultComparator.
    destruct (Number_isNaN a && Number_isNaN b); [by left|].
    destruct (strict_equals a b); [by left|by right]. }
  split; [done|].
  destruct (useCondition_refines w0) as (_ & Hwf0 & Ha0 & _).
  destruct (perform_all_refines cf
              [call_match NaN JSUndefined; call_case NaN;
               call_render A; call_otherwise JSUndefined] _ Hwf0) as (Ho & _).
  rewrite Ho, Ha0. destruct A; reflexivity.
Qed.

(** *** The match context *)

Lemma pure_perform_context cf (c : ApiCall) (s : Chain) :
  keeps_context c = true ->
  context_of (info (snd (snd (pure_perform cf c s)))) = context_of (info s).
Proof.
  intros Hk. destruct c; try discriminate; cbn [pure_perform fst snd]; try done.
  - unfold pure_attach. destruct (chaining_warning _ _ _); [done|].
    by destruct (last (branches s)).
  - unfold pure_case. by destruct (negb _).
  - unfold pure_attach. destruct (chaining_warning _ _ _); [done|].
    by destruct (last (branches s)).
  - unfold pure_fallback. by destruct (first_fallback _) as [[? ?]|].
  - unfold pure_otherwise. by destruct (first_selected _) as [[? ?]|].
Qed.

Lemma pure_perform_all_context cf (cs : list ApiCall) (s : Chain) :
  forallb keeps_context cs = true ->
  context_of (info (snd (snd (pure_perform_all cf cs s)))) = context_of (info s).
Proof.
  revert s. induction cs as [|c cs IH]; intros s H; [done|].
  cbn in H. apply andb_prop in H as [Hc Hcs]. cbn [pure_perform_all snd].
  rewrite (IH _ Hcs). by apply pure_perform_context.
Qed.

(** C9.  Calls other than [match] and [reset] leave the subject, the
    comparator and the open flag of [meta.current] as they were; hence,
    after any such calls on a handle with an open match context, [case(v)]
    still returns normally and appends a [match] record whose [condition] is
    what the stored comparator answers on the stored subject and [v]. *)
Theorem match_context_only_match_reset
  (cf : nat -> JsValue -> JsValue -> Completion JsValue)
  (w : World) (cs : list ApiCall) (v : JsValue) :
  wf w = true ->
  forallb keeps_context cs = true ->
  let w' := exec (perform_all cf cs) w in
  match_context w' = match_context w
  /\ (isInMatchMode (meta_current w) = true ->
      outcome (case cf v) w' = Normal tt
      /\ chain (exec (case cf v) w')
         = chain w'
           ++ [mkCase type_match
                 (Some (fst (compare cf (comparator (meta_current w))
                                     (value (meta_current w)) v)))
                 (Some v) JSNull
                 ("case-" +:+ decimal (S (conditionIdCounter w')))]).
Proof.
  intros Hwf Hk w'.
  destruct (perform_all_refines cf cs w Hwf) as (_ & Hwf' & Ha & _).
  fold w' in Hwf', Ha.
  assert (Hctx : match_context w' = match_context w).
  { change (match_context w') with (context_of (info (abstract w'))).
    rewrite Ha. by apply pure_perform_all_context. }
  split; [done|]. intros Hm.
  unfold match_context in Hctx. injection Hctx as Hv Hc Hi.
  destruct (case_refines cf w' v Hwf') as (Ho & _ & Ha' & _).
  split; [done|].
  change (chain (exec (case cf v) w')) with (branches (abstract (exec (case cf v) w'))).
  rewrite Ha'. unfold pure_case, abstract. cbn [info branches counter].
  rewrite Hi, Hm, Hv, Hc. reflexivity.
Qed.

(** C10.  When the comparator returns [r], [case(v)] stores [r] itself in
    [condition]; if no earlier record qualifies and [p] is not [null],
    [case(v).render(p).otherwise(d)] returns [p] when [r] is truthy and the
    fallback or the default when [r] is falsy.  [when(c)], by contrast,
    stores the boolean [Boolean(c)]. *)
Theorem case_stores_comparator_result_unconverted
  (cf : nat -> JsValue -> JsValue -> Completion JsValue)
  (w : World) (v : JsValue) (ref : nat) (r p d : JsValue) :
  wf w = true ->
  isInMatchMode (meta_current w) = true ->
  comparator (meta_current w) = comparator_function ref ->
  cf ref (value (meta_current w)) v = Normal r ->
  chain (exec (case cf v) w)
  = chain w ++ [mkCase type_match (Some r) (Some v) JSNull
                       ("case-" +:+ decimal (S (conditionIdCounter w)))]
  /\ (first_selected (chain w) = None -> p <> JSNull ->
      outcome (perform_all cf [call_case v; call_render p; call_otherwise d]) w
      = Normal [result_api; result_api;
                result_node (if ToBoolean r then p
                             else fallback_or_default (chain w) d)])
  /\ (forall c,
        chain (exec (when c) w)
        = chain w ++ [mkCase type_when (Some (JSBoolean (ToBoolean c))) None
                             JSNull
                             ("when-" +:+ decimal (S (conditionIdCounter w)))]).
Proof.
  intros Hwf Hm Hc Hr.
  split; [|split].
  - destruct (case_refines cf w v Hwf) as (_ & _ & Ha & _).
    change (chain (exec (case cf v) w))
      with (branches (abstract (exec (case cf v) w))).
    rewrite Ha. unfold pure_case, compare, abstract. cbn [info branches counter].
    rewrite Hm, Hc, Hr. reflexivity.
  - intros Hnone Hp.
    destruct (perform_all_refines cf
                [call_case v; call_render p; call_otherwise d] w Hwf) as (Ho & _).
    assert (Hcase : pure_case cf v (abstract w)
              = ([], mkChain (chain w ++ [case_record r v (S (conditionIdCounter w))])
                             (meta_current w) (S (conditionIdCounter w)))).
    { unfold pure_case, compare, abstract. cbn [info branches counter].
      by rewrite Hm, Hc, Hr. }
    rewrite Ho. cbn [pure_perform_all pure_perform fst snd]. cbv zeta.
    rewrite !Hcase. cbn [fst snd].
    rewrite !pure_attach_valid by (right; done). cbn [fst snd].
    unfold pure_otherwise. cbn [branches].
    set (rec := set_component p (case_record r v (S (conditionIdCounter w)))).
    assert (Hsel : is_selected rec = ToBoolean r).
    { unfold is_selected; cbn. apply not_null_spec in Hp. rewrite Hp.
      apply andb_true_r. }
    destruct (ToBoolean r) eqn:ET.
    + by rewrite (first_selected_snoc_Some _ _ Hnone Hsel).
    + rewrite (first_selected_snoc_None _ _ Hnone Hsel). cbn [fst].
      by rewrite fallback_or_default_snoc.
  - intros c.
    destruct (when_refines w c Hwf) as (_ & _ & Ha & _).
    change (chain (exec (when c) w))
      with (branches (abstract (exec (when c) w))).
    rewrite Ha. reflexivity.
Qed.

(** *** Reset, and the ids of records *)

Lemma erase_id_idem (rs : list ConditionCase) :
  erase_id <$> (erase_id <$> rs) = erase_id <$> rs.
Proof. induction rs as [|r rs IH]; [done|]. cbn. by f_equal. Qed.

Lemma first_selected_erase (rs : list ConditionCase) :
  first_selected (erase_id <$> rs)
  = prod_map Datatypes.id erase_id <$> first_selected rs.
Proof.
  exact (list_find_fmap erase_id (fun c => Is_true (is_selected c)) rs).
Qed.

Lemma first_fallback_erase (rs : list ConditionCase) :
  first_fallback (erase_id <$> rs)
  = prod_map Datatypes.id erase_id <$> first_fallback rs.
Proof.
  exact (list_find_fmap erase_id (fun c => Is_true (is_fallback c)) rs).
Qed.

Lemma incomplete_count_erase rs :
  incomplete_count (erase_id <$> rs) = incomplete_count rs.
Proof.
  unfold incomplete_count. induction rs as [|r rs IH]; [done|]. cbn.
  change (is_incomplete (erase_id r)) with (is_incomplete r).
  destruct (is_incomplete r); cbn; by rewrite IH.
Qed.

Lemma chaining_warning_erase e o rs :
  chaining_warning e o (erase_id <$> rs) = chaining_warning e o rs.
Proof. unfold chaining_warning. rewrite fmap_last. by destruct (last rs). Qed.

Lemma erase_chain_ext rs1 rs2 i n1 n2 :
  erase_id <$> rs1 = erase_id <$> rs2 ->
  erase_chain (mkChain rs1 i n1) = erase_chain (mkChain rs2 i n2).
Proof. unfold erase_chain. cbn. by intros ->. Qed.

Lemma erase_chain_idem (s : Chain) : erase_chain (erase_chain s) = erase_chain s.
Proof. unfold erase_chain. cbn. by rewrite erase_id_idem. Qed.

Ltac erase_chain_tac :=
  unfold erase_chain; cbn [branches info counter]; f_equal;
  rewrite ?fmap_app, ?list_fmap_insert, ?length_fmap, ?erase_id_idem; done.

Lemma pure_perform_erase cf (c : ApiCall) (s : Chain) :
  same_but_ids erase_result (pure_perform cf c s)
                            (pure_perform cf c (erase_chain s)).
Proof.
  assert (Hattach : forall e o m p,
    same_but_ids erase_result (result_api, pure_attach e o m p s)
                 (result_api, pure_attach e o m p (erase_chain s))).
  { intros e o m p. unfold same_but_ids, pure_attach. cbn [fst snd erase_chain branches info counter].
    rewrite chaining_warning_erase.
    destruct (chaining_warning e o (branches s));
      [cbn [fst snd]; by rewrite (erase_chain_idem s)|].
    rewrite fmap_last. destruct (last (branches s)) as [r|]; cbn [fmap option_fmap option_map].
    - cbn [fst snd]. split; [done|]. split; [done|].
      erase_chain_tac.
    - cbn [fst snd]. split; [done|]. split; [done|].
      erase_chain_tac. }
  destruct c; cbn [pure_perform]; try apply Hattach.
  - unfold same_but_ids, pure_when. cbn [fst snd erase_chain branches info counter].
    split; [done|]. split; [done|].
    erase_chain_tac.
  - unfold same_but_ids, pure_match. cbn [fst snd erase_chain branches info counter].
    split; [done|]. split; [done|].
    erase_chain_tac.
  - unfold same_but_ids, pure_case. cbn [fst snd erase_chain branches info counter].
    destruct (negb (isInMatchMode (info s))); cbn [fst snd].
    + split; [done|]. split; [done|]. erase_chain_tac.
    + split; [done|]. split; [done|].
      erase_chain_tac.
  - unfold same_but_ids, pure_fallback. cbn [fst snd erase_chain branches info counter].
    rewrite first_fallback_erase.
    destruct (first_fallback (branches s)) as [[i f]|]; cbn [fmap option_fmap option_map prod_map fst snd Datatypes.id].
    + split; [done|]. split; [done|].
      erase_chain_tac.
    + split; [done|]. split; [done|].
      erase_chain_tac.
  - unfold same_but_ids, pure_debug. cbn [fst snd erase_chain branches info counter].
    split; [done|]. split.
    + cbn. by rewrite erase_id_idem.
    + erase_chain_tac.
  - unfold same_but_ids, pure_reset. cbn. done.
  - unfold same_but_ids, pure_otherwise, incomplete_warning, fallback_or_default.
    cbn [fst snd erase_chain branches info counter].
    rewrite first_selected_erase, first_fallback_erase, incomplete_count_erase.
    destruct (first_selected (branches s)) as [[i r]|];
      cbn [fmap option_fmap option_map prod_map fst snd Datatypes.id].
    + split; [done|]. split; [done|]. erase_chain_tac.
    + split.
      { destruct (first_fallback (branches s)) as [[j f]|]; done. }
      split; [done|]. erase_chain_tac.
  - unfold same_but_ids. cbn. split; [done|]. split; [done|].
    erase_chain_tac.
  - unfold same_but_ids. cbn. split; [done|]. split; [done|].
    erase_chain_tac.
  - unfold same_but_ids. cbn. split; [by rewrite erase_id_idem|]. split; [done|].
    erase_chain_tac.
Qed.

Lemma pure_perform_same cf (c : ApiCall) (s1 s2 : Chain) :
  erase_chain s1 = erase_chain s2 ->
  same_but_ids erase_result (pure_perform cf c s1) (pure_perform cf c s2).
Proof.
  intros H.
  destruct (pure_perform_erase cf c s1) as (A1 & B1 & C1).
  destruct (pure_perform_erase cf c s2) as (A2 & B2 & C2).
  rewrite H in A1, B1, C1. unfold same_but_ids. by rewrite A1, B1, C1.
Qed.

Lemma pure_perform_all_same cf (cs : list ApiCall) (s1 s2 : Chain) :
  erase_chain s1 = erase_chain s2 ->
  same_but_ids (fmap erase_result) (pure_perform_all cf cs s1)
               (pure_perform_all cf cs s2).
Proof.
  revert s1 s2. induction cs as [|c cs IH]; intros s1 s2 H.
  - unfold same_but_ids. cbn. done.
  - destruct (pure_perform_same cf c s1 s2 H) as (A & B & C).
    destruct (IH _ _ C) as (A' & B' & C').
    unfold same_but_ids. cbn [pure_perform_all fst snd].
    rewrite !fmap_cons, !fmap_app. by rewrite A, B, A', B', C'.
Qed.

(** C7 (amended).  After [reset()] the chain is empty, [getMatchedIndex()] is
    [-1], [hasMatched()] is [false], the match context is closed with the
    default comparator, and the id counter is where it was.  Any sequence of
    calls then returns, logs and leaves the same as on a newly created
    handle, up to the [id] fields of the records, which continue from the
    module-level counter; when the counter stands at the same value for
    both, the ids agree too. *)
Theorem reset_like_new_handle
  (cf : nat -> JsValue -> JsValue -> Completion JsValue)
  (w w0 : World) (cs : list ApiCall) :
  let wr := exec reset w in
  let wn := exec useCondition w0 in
  let wr' := exec (perform_all cf cs) wr in
  let wn' := exec (perform_all cf cs) wn in
  (outcome reset w = Normal tt
   /\ chain wr = []
   /\ outcome getMatchedIndex wr = Normal (-1)%Z
   /\ outcome hasMatched wr = Normal false
   /\ match_context wr = (JSNull, comparator_default, false)
   /\ conditionIdCounter wr = conditionIdCounter w)
  /\ (exists rs1 rs2 out1 out2,
        outcome (perform_all cf cs) wr = Normal rs1
        /\ outcome (perform_all cf cs) wn = Normal rs2
        /\ console wr' = console w ++ out1
        /\ console wn' = console w0 ++ out2
        /\ erase_result <$> rs1 = erase_result <$> rs2
        /\ erase_call <$> out1 = erase_call <$> out2
        /\ erase_chain (abstract wr') = erase_chain (abstract wn')
        /\ (conditionIdCounter w0 = conditionIdCounter w ->
            rs1 = rs2 /\ out1 = out2 /\ abstract wr' = abstract wn')).
Proof.
  intros wr wn wr' wn'.
  destruct (reset_refines w) as (Ho & Hwf & Ha & Hcon).
  destruct (useCondition_refines w0) as (_ & Hwf0 & Ha0 & Hcon0).
  fold wr in Hwf, Ha, Hcon. fold wn in Hwf0, Ha0, Hcon0.
  rewrite app_nil_r in Hcon, Hcon0.
  destruct (perform_all_refines cf cs wr Hwf) as (Hor & _ & Har & Hcr).
  destruct (perform_all_refines cf cs wn Hwf0) as (Hon & _ & Han & Hcn).
  fold wr' in Har, Hcr. fold wn' in Han, Hcn.
  split.
  { split; [done|]. split; [by apply (f_equal branches) in Ha|].
    split; [reflexivity|]. split; [reflexivity|]. split; reflexivity. }
  assert (He : erase_chain (abstract wr) = erase_chain (abstract wn))
    by (by rewrite Ha, Ha0).
  destruct (pure_perform_all_same cf cs _ _ He) as (A & B & C).
  eexists _, _, _, _.
  split; [exact Hor|]. split; [exact Hon|].
  split; [by rewrite Hcr, Hcon|]. split; [by rewrite Hcn, Hcon0|].
  split; [exact A|]. split; [exact B|]. split; [by rewrite Har, Han|].
  intros Hn.
  assert (Heq : abstract wr = abstract wn) by (by rewrite Ha, Ha0, Hn).
  rewrite Har, Han, Heq. done.
Qed.

(** C7 as stated fails on the [id] of the records [getConditions] shows:
    after [when(true)] and [reset()], a further [when(true)] creates the
    record ["when-2"], a handle in a module just loaded creates ["when-1"],
    and a handle created afterwards in the same module creates ["when-3"]. *)
Lemma reset_ids_counterexample :
  ~ (forall (w w0 : World) (cs : list ApiCall),
       outcome (perform_all sample_functions cs) (exec reset w)
       = outcome (perform_all sample_functions cs) (exec useCondition w0))
  /\ ~ (forall (w : World) (cs : list ApiCall),
          outcome (perform_all sample_functions cs) (exec reset w)
          = outcome (perform_all sample_functions cs)
              (exec useCondition
                 (exec (perform_all sample_functions cs) (exec reset w)))).
Proof.
  split.
  - intros H.
    specialize (H (exec (perform_all sample_functions [call_when (JSBoolean true)])
                        fresh_handle)
                  empty_world
                  [call_when (JSBoolean true); call_getConditions]).
    vm_compute in H. discriminate.
  - intros H.
    specialize (H fresh_handle [call_when (JSBoolean true); call_getConditions]).
    vm_compute in H. discriminate.
Qed.

(** *** The properties at sample worlds *)

Lemma otherwise_first_match_wins_witness :
  wf sample_chain = true
  /\ outcome (otherwise JSUndefined) sample_chain = Normal (JSString "B")
  /\ matchedIndex (meta_current (exec (otherwise JSUndefined) sample_chain)) = 1%Z.
Proof.
  split; [reflexivity|].
  destruct (otherwise_first_match_wins sample_chain JSUndefined eq_refl)
    as (H & _ & _).
  apply (H 1 (mkCase type_when (Some (JSBoolean true)) None (JSString "B")
                     "when-2")).
  - reflexivity.
  - unfold guarded, satisfied, payload_set. cbn.
    split; [by left|]. split; [reflexivity|discriminate].
  - intros j r' Hj Hlt. assert (j = 0) as -> by lia.
    vm_compute in Hj. injection Hj as <-.
    unfold satisfied. cbn. intros (_ & Hs & _). discriminate.
Defined.

Lemma payload_supplied_iff_not_null_witness :
  wf sample_when = true
  /\ outcome (otherwise JSUndefined) (exec (then_ (JSString "A")) sample_when)
     = Normal (JSString "A")
  /\ incomplete_count (chain (exec (then_ JSNull) sample_when)) = 1.
Proof.
  split; [reflexivity|].
  pose (r := mkCase type_when (Some (JSBoolean true)) None JSNull "when-1").
  split.
  - destruct (payload_supplied_iff_not_null sample_when type_when then_ [] r
                (JSString "A") JSUndefined eq_refl
                (or_introl (conj eq_refl eq_refl)) eq_refl eq_refl)
      as (_ & _ & H & _).
    destruct H as (_ & H); [discriminate|].
    apply H; reflexivity.
  - destruct (payload_supplied_iff_not_null sample_when type_when then_ [] r
                JSNull JSUndefined eq_refl
                (or_introl (conj eq_refl eq_refl)) eq_refl eq_refl)
      as (_ & _ & _ & H).
    destruct (H eq_refl) as (H1 & _). exact H1.
Defined.

Lemma getConditions_frozen_shallow_copy_witness :
  wf sample_when = true
  /\ mutate 1 (mutate_push 0) (exec getConditions sample_when)
     = (Throw JSTypeError, exec getConditions sample_when).
Proof.
  split; [reflexivity|].
  destruct (getConditions_frozen_shallow_copy sample_when eq_refl)
    as (_ & _ & _ & _ & _ & H & _).
  apply (H (mutate_push 0)). reflexivity.
Defined.

Lemma snapshot_entry_write_reaches_otherwise_witness :
  wf sample_chain = true
  /\ chain sample_chain !! 0
     = Some (mkCase type_when (Some (JSBoolean false)) None (JSString "A")
                    "when-1")
  /\ outcome (otherwise_after_snapshot JSUndefined) sample_chain
     = Normal (JSString "B")
  /\ outcome (otherwise_after_mutation write_condition_true JSUndefined)
             sample_chain
     = Normal (JSString "A").
Proof.
  split; [reflexivity|]. split; [reflexivity|]. split; [reflexivity|].
  destruct snapshot_entry_write_reaches_otherwise as (_ & H).
  destruct (H sample_chain 0 (set_condition (JSBoolean true)) _ JSUndefined
              eq_refl eq_refl) as (_ & _ & H3).
  exact H3.
Defined.

Lemma case_catches_throwing_comparator_witness :
  wf sample_throwing = true
  /\ outcome (case sample_functions (JSString "test")) sample_throwing = Normal tt
  /\ console (exec (case sample_functions (JSString "test")) sample_throwing)
     = console sample_throwing
       ++ [Error comparator_threw (JSString "Comparator error")].
Proof.
  split; [reflexivity|].
  destruct (case_catches_throwing_comparator sample_functions sample_throwing
              (JSString "test") 1 (JSString "Comparator error")
              eq_refl eq_refl eq_refl eq_refl) as (H1 & H2 & _).
  split; [exact H1|exact H2].
Defined.

Lemma then_render_contract_witness :
  wf sample_when = true
  /\ chain (exec (then_ (JSString "A")) sample_when)
     = [mkCase type_when (Some (JSBoolean true)) None (JSString "A") "when-1"]
  /\ exists message,
       render (JSString "A") sample_when
       = (Normal tt,
          set_console (console sample_when ++ [Warn message]) sample_when).
Proof.
  split; [reflexivity|].
  destruct (then_render_contract sample_when (JSString "A") eq_refl)
    as (_ & H & Hr & _).
  split.
  - destruct (H [] (mkCase type_when (Some (JSBoolean true)) None JSNull "when-1")
                eq_refl eq_refl) as (_ & Hc & _).
    exact Hc.
  - apply Hr. right.
    exists [], (mkCase type_when (Some (JSBoolean true)) None JSNull "when-1").
    split; [reflexivity|discriminate].
Defined.

Lemma match_context_only_match_reset_witness :
  wf sample_match = true
  /\ match_context
       (exec (perform_all sample_functions
                [call_when (JSBoolean true); call_then (JSString "A");
                 call_fallback (JSString "F"); call_otherwise JSUndefined;
                 call_debug; call_case (JSString "admin");
                 call_render (JSString "B")])
             sample_match)
     = match_context sample_match.
Proof.
  split; [reflexivity|].
  destruct (match_context_only_match_reset sample_functions sample_match
              [call_when (JSBoolean true); call_then (JSString "A");
               call_fallback (JSString "F"); call_otherwise JSUndefined;
               call_debug; call_case (JSString "admin");
               call_render (JSString "B")]
              (JSString "user") eq_refl eq_refl) as (H & _).
  exact H.
Defined.

Lemma case_stores_comparator_result_unconverted_witness :
  wf sample_truthy = true
  /\ outcome (perform_all sample_functions
                [call_case (JSString "y"); call_render (JSString "P");
                 call_otherwise JSUndefined]) sample_truthy
     = Normal [result_api; result_api; result_node (JSString "P")].
Proof.
  split; [reflexivity|].
  destruct (case_stores_comparator_result_unconverted sample_functions
              sample_truthy (JSString "y") 2 (JSNumber (S754_finite false 1 0))
              (JSString "P") JSUndefined eq_refl eq_refl eq_refl eq_refl)
    as (_ & H & _).
  apply H; [reflexivity|discriminate].
Defined.

Lemma at_most_one_fallback_witness :
  chain (exec (perform_all sample_functions
                 [call_when (JSBoolean true); call_fallback (JSString "A");
                  call_when (JSBoolean false); call_fallback (JSString "B")])
              fresh_handle)
  = [mkCase type_when (Some (JSBoolean true)) None JSNull "when-1";
     mkCase type_fallback None None (JSString "B") "fallback-2";
     mkCase type_when (Some (JSBoolean false)) None JSNull "when-3"].
Proof.
  destruct (at_most_one_fallback sample_functions empty_world
              [call_when (JSBoolean true); call_fallback (JSString "A");
               call_when (JSBoolean false)] (JSString "B"))
    as (_ & _ & _ & H & _).
  destruct (H 1 (mkCase type_fallback None None (JSString "A") "fallback-2")
              eq_refl eq_refl) as (Hc & _).
  exact Hc.
Defined.

Lemma reset_like_new_handle_witness :
  conditionIdCounter (set_conditionIdCounter 3 empty_world)
  = conditionIdCounter sample_chain
  /\ outcome (perform_all sample_functions
                [call_when (JSBoolean true); call_then (JSString "A");
                 call_getConditions; call_otherwise JSUndefined])
             (exec reset sample_chain)
     = outcome (perform_all sample_functions
                  [call_when (JSBoolean true); call_then (JSString "A");
                   call_getConditions; call_otherwise JSUndefined])
               (exec useCondition (set_conditionIdCounter 3 empty_world)).
Proof.
  split; [reflexivity|].
  destruct (reset_like_new_handle sample_functions sample_chain
              (set_conditionIdCounter 3 empty_world)
              [call_when (JSBoolean true); call_then (JSString "A");
               call_getConditions; call_otherwise JSUndefined])
    as (_ & rs1 & rs2 & out1 & out2 & H1 & H2 & _ & _ & _ & _ & _ & H).
  rewrite H1, H2. f_equal. apply H. reflexivity.
Defined.

(* ===================================================================== *)
(** ** The repository's tests, replayed *)
(* ===================================================================== *)

(** Each example runs the chain of one test of
    [src/__tests__/useCondition.test.tsx] on a new handle and states what the
    test expects: the values returned and, where the test looks at it, the
    console.  React elements are stood for by strings. *)

Example test_render_when_true :
  replay [call_when (JSBoolean true); call_then (JSString "Test Content");
          call_otherwise JSUndefined; call_hasMatched; call_getMatchedIndex]
  = Normal [result_api; result_api; result_node (JSString "Test Content");
            result_boolean true; result_number 0].
Proof. reflexivity. Qed.

Example test_not_render_when_false :
  replay [call_when (JSBoolean false); call_then (JSString "Test Content");
          call_otherwise JSUndefined; call_hasMatched; call_getMatchedIndex]
  = Normal [result_api; result_api; result_node JSNull;
            result_boolean false; result_number (-1)].
Proof. reflexivity. Qed.

Example test_render_first_matching :
  replay [call_when (JSBoolean false); call_then (JSString "First");
          call_when (JSBoolean true); call_then (JSString "Second");
          call_when (JSBoolean true); call_then (JSString "Third");
          call_otherwise JSUndefined; call_getMatchedIndex]
  = Normal [result_api; result_api; result_api; result_api; result_api;
            result_api; result_node (JSString "Second"); result_number 1].
Proof. reflexivity. Qed.

Example test_non_boolean_when :
  replay [call_when (JSString "truthy"); call_then (JSString "Truthy");
          call_otherwise JSUndefined]
  = Normal [result_api; result_api; result_node (JSString "Truthy")]
  /\ replay_console [call_when (JSString "truthy"); call_then (JSString "Truthy");
                     call_otherwise JSUndefined]
     = [Warn when_not_boolean].
Proof. split; reflexivity. Qed.

Example test_match_multiple_cases :
  replay [call_match (JSString "user") (JSFunction 0);
          call_case (JSString "admin"); call_render (JSString "Admin Panel");
          call_case (JSString "user"); call_render (JSString "User Panel");
          call_case (JSString "guest"); call_render (JSString "Guest Panel");
          call_otherwise JSUndefined]
  = Normal [result_api; result_api; result_api; result_api; result_api;
            result_api; result_api; result_node (JSString "User Panel")].
Proof. reflexivity. Qed.

Example test_case_without_match :
  replay [call_case (JSString "admin"); call_render (JSString "Admin Panel");
          call_otherwise JSUndefined; call_getConditions]
  = Normal [result_api; result_api; result_node JSNull; result_array true []].
Proof. reflexivity. Qed.

Example test_comparator_error :
  replay [call_match (JSString "test") (JSFunction 1);
          call_case (JSString "test"); call_render (JSString "Should not render");
          call_otherwise (JSString "Default")]
  = Normal [result_api; result_api; result_api; result_node (JSString "Default")]
  /\ replay_console [call_match (JSString "test") (JSFunction 1);
                     call_case (JSString "test");
                     call_render (JSString "Should not render");
                     call_otherwise (JSString "Default")]
     = [Error comparator_threw (JSString "Comparator error")].
Proof. split; reflexivity. Qed.

Example test_multiple_fallbacks :
  replay [call_fallback (JSString "First Fallback");
          call_fallback (JSString "Second Fallback");
          call_otherwise JSUndefined; call_getConditions]
  = Normal [result_api; result_api; result_node (JSString "Second Fallback");
            result_array true
              [mkCase type_fallback None None (JSString "Second Fallback")
                      "fallback-1"]]
  /\ replay_console [call_fallback (JSString "First Fallback");
                     call_fallback (JSString "Second Fallback");
                     call_otherwise JSUndefined]
     = [Warn fallback_multiple].
Proof. split; reflexivity. Qed.

Example test_then_follows_case :
  replay_console [call_match (JSString "test") JSUndefined;
                  call_case (JSString "test"); call_then (JSString "Test");
                  call_otherwise JSUndefined]
  = [Warn "[useCondition] then() should follow 'when()' but found 'match'.";
     Warn "[useCondition] Found 1 incomplete condition(s). These will be ignored."].
Proof. reflexivity. Qed.

Example test_count_incomplete :
  replay_console [call_when (JSBoolean true); call_when (JSBoolean false);
                  call_match (JSString "test") JSUndefined;
                  call_case (JSString "test"); call_otherwise JSUndefined]
  = [Warn "[useCondition] Found 3 incomplete condition(s). These will be ignored."].
Proof. reflexivity. Qed.

Example test_reset :
  replay [call_when (JSBoolean true); call_then (JSString "Test");
          call_otherwise JSUndefined; call_hasMatched; call_reset;
          call_getConditions; call_hasMatched; call_getMatchedIndex]
  = Normal [result_api; result_api; result_node (JSString "Test");
            result_boolean true; result_api; result_array true [];
            result_boolean false; result_number (-1)].
Proof. reflexivity. Qed.

(* ===================================================================== *)
(** ** Further properties of the hook and of the module's comparators *)
(* ===================================================================== *)

(* ---------- what a computation depends on ---------- *)

Lemma outcome_perform_all cf (cs : list ApiCall) (w : World) :
  wf w = true ->
  outcome (perform_all cf cs) w = Normal (fst (pure_perform_all cf cs (abstract w)))
  /\ abstract (exec (perform_all cf cs) w) = snd (snd (pure_perform_all cf cs (abstract w)))
  /\ wf (exec (perform_all cf cs) w) = true
  /\ console (exec (perform_all cf cs) w)
     = console w ++ fst (snd (pure_perform_all cf cs (abstract w))).
Proof.
  intros Hwf. destruct (perform_all_refines cf cs w Hwf) as (A & B & C & D).
  done.
Qed.

Lemma pure_perform_all_length cf (cs : list ApiCall) (s : Chain) :
  length (fst (pure_perform_all cf cs s)) = length cs.
Proof.
  revert s. induction cs as [|c cs IH]; intros s; [done|].
  cbn. by rewrite IH.
Qed.

Lemma pure_perform_errors cf (c : ApiCall) (s : Chain) :
  Forall comparator_error (fst (snd (pure_perform cf c s))).
Proof.
  destruct c; cbn [pure_perform fst snd].
  - unfold pure_when. cbn. destruct (String.eqb _ _); repeat constructor.
  - unfold pure_attach. destruct (chaining_warning _ _ _); [repeat constructor|].
    destruct (last _); [|constructor]. cbn. destruct (not_null _); repeat constructor.
  - unfold pure_match. cbn. apply Forall_app. split.
    + destruct (isInMatchMode _); repeat constructor.
    + destruct comparator'; repeat constructor.
  - unfold pure_case, compare. destruct (negb _); [repeat constructor|]. cbn.
    destruct (comparator (info s)); [constructor|].
    destruct (cf _ _ _); repeat constructor.
  - unfold pure_attach. destruct (chaining_warning _ _ _); [repeat constructor|].
    destruct (last _); [|constructor]. cbn. destruct (not_null _); repeat constructor.
  - unfold pure_fallback. destruct (first_fallback _) as [[? ?]|]; repeat constructor.
  - repeat constructor.
  - constructor.
  - unfold pure_otherwise, incomplete_warning.
    destruct (first_selected _) as [[? ?]|]; cbn [fst snd];
      destruct (0 <? incomplete_count (branches s))%nat; repeat constructor.
  - constructor.
  - constructor.
  - constructor.
Qed.

Lemma pure_perform_all_errors cf (cs : list ApiCall) (s : Chain) :
  Forall comparator_error (fst (snd (pure_perform_all cf cs s))).
Proof.
  revert s. induction cs as [|c cs IH]; intros s; [constructor|].
  cbn. apply Forall_app. split; [apply pure_perform_errors|apply IH].
Qed.

(** X1. On a well-formed world (the records are the plain, writable objects
    the hook creates) and with comparators that only return a value or
    throw, no sequence of API calls throws: it returns one result per call
    and leaves a well-formed world, and all it adds to the console are
    warnings, debug output and the error message of [case] for a comparator
    that threw.  [when], [case] and [otherwise] catch what their bodies
    throw; [then], [render] and [fallback] have no [try] and return normally
    because a write to a writable record cannot fail.  A record that code
    outside the hook, or a comparator with side effects, has frozen is
    outside this statement. *)
Theorem calls_never_throw
  (cf : nat -> JsValue -> JsValue -> Completion JsValue)
  (w : World) (cs : list ApiCall) :
  wf w = true ->
  exists rs out,
    outcome (perform_all cf cs) w = Normal rs
    /\ length rs = length cs
    /\ wf (exec (perform_all cf cs) w) = true
    /\ console (exec (perform_all cf cs) w) = console w ++ out
    /\ Forall comparator_error out.
Proof.
  intros Hwf. destruct (outcome_perform_all cf cs w Hwf) as (A & _ & C & D).
  eexists _, _. split; [exact A|]. split; [apply pure_perform_all_length|].
  split; [done|]. split; [exact D|]. apply pure_perform_all_errors.
Qed.

(** X2. On a chain where no branch is selected yet,
    [when(c).then(p).otherwise(d)] returns [p] exactly when [c] is truthy and
    [p] is not [null], and the payload of the fallback record or the default
    otherwise; [hasMatched] then reports which of the two happened.  [when]
    logs its warning if and only if [c] is not a boolean. *)
Theorem when_then_otherwise
  (cf : nat -> JsValue -> JsValue -> Completion JsValue)
  (w : World) (c p d : JsValue) :
  wf w = true ->
  first_selected (chain w) = None ->
  outcome (perform_all cf [call_when c; call_then p; call_otherwise d;
                           call_hasMatched]) w
  = Normal [result_api; result_api;
            result_node (if ToBoolean c && not_null p then p
                         else fallback_or_default (chain w) d);
            result_boolean (ToBoolean c && not_null p)]
  /\ console (exec (when c) w)
     = console w ++ (if String.eqb (typeof c) "boolean" then []
                     else [Warn when_not_boolean])
  /\ (String.eqb (typeof c) "boolean" = true <-> exists b, c = JSBoolean b).
Proof.
  intros Hwf Hnone.
  destruct (outcome_perform_all cf
              [call_when c; call_then p; call_otherwise d; call_hasMatched]
              w Hwf) as (Ho & _).
  split; [|split].
  - rewrite Ho. cbn [pure_perform_all pure_perform fst snd]. cbv zeta.
    unfold pure_when, abstract. cbn [fst snd branches info counter].
    rewrite !pure_attach_valid by (left; done). cbn [fst snd].
    unfold pure_otherwise. cbn [branches].
    set (rec := set_component p (when_record c (S (conditionIdCounter w)))).
    assert (Hsel : is_selected rec = ToBoolean c && not_null p) by reflexivity.
    destruct (ToBoolean c && not_null p) eqn:E.
    + rewrite (first_selected_snoc_Some _ _ Hnone Hsel). cbn.
      repeat f_equal. destruct (length (chain w)); reflexivity.
    + rewrite (first_selected_snoc_None _ _ Hnone Hsel). cbn [fst snd].
      by rewrite fallback_or_default_snoc.
  - by destruct (when_refines w c Hwf) as (_ & _ & _ & Hcon).
  - destruct c; cbn; split; try discriminate; eauto; by intros [? ?].
Qed.

(** X3. [match(v, cmp)] never throws and only opens a match context: it
    stores [v], the comparator ([cmp] if it is a function, the default
    comparator otherwise) and the match mode, and leaves the chain, the
    matched index and the id counter as they are.  A second [match] replaces
    the context of the first, and after a [match] without a function [case]
    records the verdict of [defaultComparator]. *)
Theorem match_opens_context
  (cf : nat -> JsValue -> JsValue -> Completion JsValue)
  (w : World) (v cmp v0 cmp0 u : JsValue) :
  wf w = true ->
  let w' := exec (match_ v cmp) w in
  outcome (match_ v cmp) w = Normal tt
  /\ match_context w' = (v, resolve_comparator cmp, true)
  /\ chain w' = chain w
  /\ matchedIndex (meta_current w') = matchedIndex (meta_current w)
  /\ conditionIdCounter w' = conditionIdCounter w
  /\ abstract (exec (match_ v cmp) (exec (match_ v0 cmp0) w)) = abstract w'
  /\ (String.eqb (typeof cmp) "function" = false ->
      chain (exec (case cf u) w')
      = chain w ++ [mkCase type_match (Some (defaultComparator v u)) (Some u)
                           JSNull
                           ("case-" +:+ decimal (S (conditionIdCounter w)))]).
Proof.
  intros Hwf w'.
  destruct (match_refines w v cmp Hwf) as (Ho & Hwf' & Ha & _).
  fold w' in Hwf', Ha.
  destruct (match_refines w v0 cmp0 Hwf) as (_ & Hwf0 & Ha0 & _).
  destruct (match_refines _ v cmp Hwf0) as (_ & _ & Ha1 & _).
  unfold pure_match in *. cbn [fst snd] in *.
  assert (Hm : meta_current w'
               = mkMeta (matchedIndex (meta_current w)) v
                        (resolve_comparator cmp) true).
  { apply (f_equal info) in Ha. cbn in Ha. rewrite Ha. by destruct cmp. }
  split; [done|]. split; [unfold match_context, context_of; by rewrite Hm|].
  split; [by apply (f_equal branches) in Ha|].
  split; [by rewrite Hm|].
  split; [by apply (f_equal counter) in Ha|].
  split.
  { rewrite Ha1, Ha0, Ha. reflexivity. }
  intros Hnf.
  destruct (case_refines cf w' u Hwf') as (_ & _ & Hc & _).
  change (chain (exec (case cf u) w'))
    with (branches (abstract (exec (case cf u) w'))).
  rewrite Hc. unfold pure_case, compare, abstract. cbn [info branches counter].
  rewrite Hm. cbn [isInMatchMode negb comparator value fst snd branches].
  apply (f_equal branches) in Ha as Hb. apply (f_equal counter) in Ha as Hn.
  cbn in Hb, Hn. rewrite Hb, Hn.
  destruct cmp; try discriminate; reflexivity.
Qed.

(** X4. Outside match mode [case] adds no record: it logs one warning, and
    nothing else of the world changes.  This is the case right after [reset]
    and on a new handle. *)
Theorem case_without_match_is_noop
  (cf : nat -> JsValue -> JsValue -> Completion JsValue)
  (w : World) (v : JsValue) :
  (isInMatchMode (meta_current w) = false ->
   case cf v w
   = (Normal tt,
      set_console
        (console w
         ++ [Warn "[useCondition] case() called without match(). Use match() first to set the value to compare against."])
        w))
  /\ chain (exec (case cf v) (exec reset w)) = []
  /\ chain (exec (case cf v) (exec useCondition w)) = [].
Proof.
  split; [|split].
  - intros Hm. unfold case, try_catch, bind, get_meta. rewrite Hm. reflexivity.
  - destruct (reset_refines w) as (_ & _ & Ha & _).
    apply (f_equal branches) in Ha. exact Ha.
  - destruct (useCondition_refines w) as (_ & _ & Ha & _).
    apply (f_equal branches) in Ha. exact Ha.
Qed.

Lemma set_console_wf (w : World) out : wf (set_console out w) = wf w.
Proof. reflexivity. Qed.

Lemma set_console_abstract (w : World) out :
  abstract (set_console out w) = abstract w.
Proof. reflexivity. Qed.

(** X5. [debug] only writes to the console: a group with the conditions,
    the meta record and the matched index.  The calls that follow return the
    same results and reach the same chain and meta record as without it. *)
Theorem debug_only_logs
  (cf : nat -> JsValue -> JsValue -> Completion JsValue)
  (w : World) (cs : list ApiCall) :
  debug w = (Normal tt, set_console (console w ++ debug_output (abstract w)) w)
  /\ (wf w = true ->
      outcome (perform_all cf cs) (exec debug w)
      = outcome (perform_all cf cs) w
      /\ abstract (exec (perform_all cf cs) (exec debug w))
         = abstract (exec (perform_all cf cs) w)).
Proof.
  assert (Hd : debug w
    = (Normal tt, set_console (console w ++ debug_output (abstract w)) w)).
  { unfold debug, bind, console_call, modify, get_world, get_meta. cbn.
    unfold set_console. cbn. by rewrite <- !app_assoc. }
  split; [exact Hd|]. intros Hwf.
  replace (exec debug w)
    with (set_console (console w ++ debug_output (abstract w)) w)
    by (unfold exec; by rewrite Hd).
  destruct (outcome_perform_all cf cs w Hwf) as (A & B & _).
  destruct (outcome_perform_all cf cs
              (set_console (console w ++ debug_output (abstract w)) w) Hwf)
    as (A' & B' & _).
  rewrite A, A', B, B'. done.
Qed.

(** X6. [otherwise] can be called again: an earlier [otherwise], whatever
    its default, changes neither the result of a later one nor the state it
    leaves, and keeps the chain, the id counter and the match context. *)
Theorem otherwise_repeatable (w : World) (d d' : JsValue) :
  wf w = true ->
  let w1 := exec (otherwise d') w in
  outcome (otherwise d) w1 = outcome (otherwise d) w
  /\ abstract (exec (otherwise d) w1) = abstract (exec (otherwise d) w)
  /\ chain w1 = chain w
  /\ conditionIdCounter w1 = conditionIdCounter w
  /\ match_context w1 = match_context w.
Proof.
  intros Hwf w1.
  destruct (otherwise_refines w d' Hwf) as (_ & Hwf1 & Ha1 & _).
  fold w1 in Hwf1, Ha1.
  destruct (otherwise_refines w d Hwf) as (Ho & _ & Ha & _).
  destruct (otherwise_refines w1 d Hwf1) as (Ho' & _ & Ha' & _).
  assert (Hb : chain w1 = chain w).
  { apply (f_equal branches) in Ha1. unfold pure_otherwise in Ha1.
    by destruct (first_selected _) as [[? ?]|]. }
  assert (Hn : conditionIdCounter w1 = conditionIdCounter w).
  { apply (f_equal counter) in Ha1. unfold pure_otherwise in Ha1.
    by destruct (first_selected _) as [[? ?]|]. }
  assert (Hc : context_of (meta_current w1) = context_of (meta_current w)).
  { apply (f_equal info) in Ha1. unfold pure_otherwise in Ha1.
    destruct (first_selected _) as [[? ?]|]; cbn in Ha1; by rewrite Ha1. }
  assert (Hctx : match_context w1 = match_context w) by exact Hc.
  unfold context_of in Hc. injection Hc as Hv Hcmp Hi.
  split; [|split; [|split; [exact Hb|split; [exact Hn|exact Hctx]]]].
  - rewrite Ho, Ho'. unfold pure_otherwise, abstract. cbn [branches].
    rewrite Hb. by destruct (first_selected _) as [[? ?]|].
  - rewrite Ha, Ha'. unfold pure_otherwise, abstract. cbn [branches info counter].
    rewrite Hb, Hn. unfold set_matchedIndex. rewrite Hv, Hcmp, Hi.
    by destruct (first_selected _) as [[? ?]|].
Qed.

(** X7. After [otherwise], [getMatchedIndex] is the index of the record
    whose payload [otherwise] returned, and [hasMatched] is true; or the index
    is -1, [hasMatched] is false, no record of the chain was a satisfied
    [when] or [case] with a payload, and [otherwise] returned the fallback or
    the default. *)
Theorem matchedIndex_names_the_result (w : World) (d : JsValue) :
  wf w = true ->
  let w' := exec (otherwise d) w in
  let mi := matchedIndex (meta_current w') in
  outcome getMatchedIndex w' = Normal mi
  /\ outcome hasMatched w' = Normal (negb (Z.eqb mi (-1)))
  /\ ((mi = (-1)%Z
       /\ (forall r, r ∈ chain w -> ~ (guarded r /\ satisfied r /\ payload_set r))
       /\ outcome (otherwise d) w = Normal (fallback_or_default (chain w) d))
      \/ (exists i r,
            mi = Z.of_nat i
            /\ chain w' !! i = Some r
            /\ guarded r /\ satisfied r /\ payload_set r
            /\ outcome (otherwise d) w = Normal (component r))).
Proof.
  intros Hwf w' mi.
  destruct (otherwise_refines w d Hwf) as (Ho & _ & Ha & _).
  fold w' in Ha. split; [reflexivity|]. split; [reflexivity|].
  unfold pure_otherwise, abstract in *. cbn [branches info counter] in *.
  destruct (first_selected (chain w)) as [[i r]|] eqn:E; cbn [fst snd] in *.
  - right. exists i, r.
    apply first_selected_Some in E as (Hr & Hs & _).
    apply is_selected_spec in Hs as (Hg & Hsat & Hp).
    split; [unfold mi; apply (f_equal info) in Ha; cbn in Ha; by rewrite Ha|].
    split; [apply (f_equal branches) in Ha; cbn in Ha; by rewrite Ha|].
    done.
  - left. split; [unfold mi; apply (f_equal info) in Ha; cbn in Ha; by rewrite Ha|].
    split; [|done]. intros r Hr Hsel. apply is_selected_spec in Hsel.
    rewrite first_selected_None in E. by rewrite (E r Hr) in Hsel.
Qed.

Lemma pure_perform_index cf (c : ApiCall) (s : Chain) :
  index_in_range s -> index_in_range (snd (snd (pure_perform cf c s))).
Proof.
  unfold index_in_range. intros H.
  assert (Hattach : forall e o m p,
    (-1 <= matchedIndex (info (snd (pure_attach e o m p s)))
     < Z.of_nat (length (branches (snd (pure_attach e o m p s)))))%Z).
  { intros e o m p. unfold pure_attach. destruct (chaining_warning _ _ _); [done|].
    destruct (last _); [|done]. cbn [snd branches info]. by rewrite length_insert. }
  destruct c; cbn [pure_perform fst snd].
  - unfold pure_when. cbn [snd branches info].
    rewrite length_app; cbn [length]; lia.
  - apply Hattach.
  - exact H.
  - unfold pure_case. destruct (negb _); [done|]. cbn [snd branches info].
    rewrite length_app; cbn [length]; lia.
  - apply Hattach.
  - unfold pure_fallback. destruct (first_fallback _) as [[? ?]|];
      cbn [snd branches info]; [by rewrite length_insert|].
    rewrite length_app; cbn [length]; lia.
  - exact H.
  - unfold pure_reset.
    cbn [snd branches info initial_meta matchedIndex length]. lia.
  - unfold pure_otherwise.
    destruct (first_selected (branches s)) as [[i r]|] eqn:E;
      cbn [fst snd branches info set_matchedIndex matchedIndex].
    + apply first_selected_Some in E as (Hr & _). apply lookup_lt_Some in Hr. lia.
    + lia.
  - exact H.
  - exact H.
  - exact H.
Qed.

Lemma pure_perform_all_index cf (cs : list ApiCall) (s : Chain) :
  index_in_range s -> index_in_range (snd (snd (pure_perform_all cf cs s))).
Proof.
  revert s. induction cs as [|c cs IH]; intros s H; [done|].
  cbn [pure_perform_all snd]. apply IH. by apply pure_perform_index.
Qed.

(** X8. On a handle of [useCondition], after any sequence of calls, the
    matched index is -1 or the index of a record of the chain; so when
    [hasMatched] is true, [getConditions] has a record at
    [getMatchedIndex]. *)
Theorem matchedIndex_in_range
  (cf : nat -> JsValue -> JsValue -> Completion JsValue)
  (w0 : World) (cs : list ApiCall) :
  let w := exec (perform_all cf cs) (exec useCondition w0) in
  (-1 <= matchedIndex (meta_current w) < Z.of_nat (length (chain w)))%Z
  /\ outcome getMatchedIndex w = Normal (matchedIndex (meta_current w))
  /\ (outcome hasMatched w = Normal true ->
      exists r, chain w !! Z.to_nat (matchedIndex (meta_current w)) = Some r).
Proof.
  intros w.
  destruct (useCondition_refines w0) as (_ & Hwf0 & Ha0 & _).
  destruct (outcome_perform_all cf cs _ Hwf0) as (_ & Ha & _).
  fold w in Ha.
  assert (H : index_in_range (abstract w)).
  { rewrite Ha. apply pure_perform_all_index. rewrite Ha0.
    unfold index_in_range. cbn. lia. }
  unfold index_in_range in H. cbn in H.
  split; [exact H|]. split; [reflexivity|].
  intros Hm. unfold outcome, hasMatched, bind, get_meta, ret in Hm. cbn in Hm.
  injection Hm as Hm. apply negb_true_iff, Z.eqb_neq in Hm.
  apply lookup_lt_is_Some_2. lia.
Qed.

Lemma keeps_branches_refl rs : keeps_branches rs rs.
Proof. intros i r Hr. exists r. by repeat split. Qed.

Lemma keeps_branches_trans rs1 rs2 rs3 :
  keeps_branches rs1 rs2 -> keeps_branches rs2 rs3 -> keeps_branches rs1 rs3.
Proof.
  intros H12 H23 i r Hr.
  destruct (H12 i r Hr) as (r2 & Hr2 & A1 & A2 & A3 & A4).
  destruct (H23 i r2 Hr2) as (r3 & Hr3 & B1 & B2 & B3 & B4).
  exists r3. split; [done|]. unfold same_branch. repeat split; congruence.
Qed.

Lemma keeps_branches_app rs r : keeps_branches rs (rs ++ [r]).
Proof.
  intros i x Hx. exists x. split; [by apply lookup_app_l_Some|by repeat split].
Qed.

Lemma keeps_branches_insert rs i r p :
  rs !! i = Some r -> keeps_branches rs (<[i := set_component p r]> rs).
Proof.
  intros Hr j x Hx. destruct (decide (j = i)) as [->|Hne].
  - exists (set_component p r).
    rewrite list_lookup_insert_eq by (by eapply lookup_lt_Some).
    split; [done|]. assert (x = r) as -> by congruence. by repeat split.
  - exists x. rewrite list_lookup_insert_ne by done. split; [done|by repeat split].
Qed.

Lemma pure_perform_keeps cf (c : ApiCall) (s : Chain) :
  is_reset c = false ->
  keeps_branches (branches s) (branches (snd (snd (pure_perform cf c s)))).
Proof.
  intros Hc.
  assert (Hattach : forall e o m p,
    keeps_branches (branches s) (branches (snd (pure_attach e o m p s)))).
  { intros e o m p. unfold pure_attach.
    destruct (chaining_warning _ _ _); [apply keeps_branches_refl|].
    destruct (last (branches s)) as [r|] eqn:E; [|apply keeps_branches_refl].
    cbn [snd branches]. apply keeps_branches_insert. by rewrite <- last_lookup. }
  destruct c; try discriminate; cbn [pure_perform fst snd];
    try apply keeps_branches_refl; try apply Hattach.
  - apply keeps_branches_app.
  - unfold pure_case. destruct (negb _); [apply keeps_branches_refl|].
    apply keeps_branches_app.
  - unfold pure_fallback.
    destruct (first_fallback (branches s)) as [[i f]|] eqn:E; cbn [snd branches].
    + apply keeps_branches_insert. by apply list_find_Some in E as (Hi & _).
    + apply keeps_branches_app.
  - unfold pure_otherwise.
    destruct (first_selected _) as [[? ?]|]; apply keeps_branches_refl.
Qed.

Lemma pure_perform_all_keeps cf (cs : list ApiCall) (s : Chain) :
  forallb (fun c => negb (is_reset c)) cs = true ->
  keeps_branches (branches s) (branches (snd (snd (pure_perform_all cf cs s)))).
Proof.
  revert s. induction cs as [|c cs IH]; intros s H; [apply keeps_branches_refl|].
  cbn in H. apply andb_prop in H as [Hc Hcs]. apply negb_true_iff in Hc.
  cbn [pure_perform_all snd].
  eapply keeps_branches_trans; [by apply pure_perform_keeps|by apply IH].
Qed.

(** X9. Without [reset] the chain only grows: every call keeps each record
    at its index, with its type, its condition, its match value and its id.
    Only the payload of a record can change. *)
Theorem branches_are_append_only
  (cf : nat -> JsValue -> JsValue -> Completion JsValue)
  (w : World) (cs : list ApiCall) :
  wf w = true ->
  forallb (fun c => negb (is_reset c)) cs = true ->
  let w' := exec (perform_all cf cs) w in
  length (chain w) <= length (chain w')
  /\ forall i r, chain w !! i = Some r ->
       exists r', chain w' !! i = Some r'
                  /\ type r' = type r /\ condition r' = condition r
                  /\ matchValue r' = matchValue r /\ id r' = id r.
Proof.
  intros Hwf Hcs w'.
  destruct (outcome_perform_all cf cs w Hwf) as (_ & Ha & _). fold w' in Ha.
  assert (H : keeps_branches (chain w) (chain w')).
  { change (chain w') with (branches (abstract w')). rewrite Ha.
    by apply (pure_perform_all_keeps cf cs (abstract w)). }
  split; [|exact H].
  destruct (chain w) as [|r0 rs _] using rev_ind; [cbn; lia|].
  destruct (H (length rs) r0) as (r' & Hr' & _).
  { by rewrite lookup_app_r, Nat.sub_diag. }
  apply lookup_lt_Some in Hr'. rewrite length_app. cbn. lia.
Qed.









Lemma pure_attach_twice (e o m : string) (p q : JsValue) (s : Chain) :
  snd (pure_attach e o m q (snd (pure_attach e o m p s)))
  = snd (pure_attach e o m q s).
Proof.
  destruct s as [rs i n]. unfold pure_attach. cbn [branches info counter].
  destruct (chaining_warning e o rs) as [msg|] eqn:E.
  - cbn [snd branches]. by rewrite E.
  - destruct (last rs) as [r|] eqn:El; cbn [snd branches info counter].
    + apply last_Some in El as [pre ->].
      rewrite insert_last.
      assert (E' : chaining_warning e o (pre ++ [set_component p r]) = None).
      { revert E. unfold chaining_warning. rewrite !last_snoc.
        intros H. exact H. }
      rewrite E', !last_snoc. cbn [snd]. by rewrite !insert_last.
    + by rewrite E, El.
Qed.

(** X11. Of two [then] (or two [render]) in a row the second wins: the
    state is the one the second alone would have left. *)
Theorem then_render_last_wins (w : World) (p q : JsValue) :
  wf w = true ->
  abstract (exec (then_ q) (exec (then_ p) w)) = abstract (exec (then_ q) w)
  /\ abstract (exec (render q) (exec (render p) w))
     = abstract (exec (render q) w).
Proof.
  intros Hwf. split.
  - destruct (then_refines w p Hwf) as (_ & Hwf1 & Ha1 & _).
    destruct (then_refines _ q Hwf1) as (_ & _ & Ha2 & _).
    destruct (then_refines w q Hwf) as (_ & _ & Ha & _).
    rewrite Ha2, Ha1, Ha. apply pure_attach_twice.
  - destruct (render_refines w p Hwf) as (_ & Hwf1 & Ha1 & _).
    destruct (render_refines _ q Hwf1) as (_ & _ & Ha2 & _).
    destruct (render_refines w q Hwf) as (_ & _ & Ha & _).
    rewrite Ha2, Ha1, Ha. apply pure_attach_twice.
Qed.

Lemma first_fallback_insert rs i f p :
  first_fallback rs = Some (i, f) ->
  first_fallback (<[i := set_component p f]> rs) = Some (i, set_component p f).
Proof.
  unfold first_fallback. rewrite !list_find_Some. intros (Hi & Hf & Hlt).
  split; [|split].
  - apply list_lookup_insert_eq. by eapply lookup_lt_Some.
  - exact Hf.
  - intros j y Hj Hji. rewrite list_lookup_insert_ne in Hj by lia.
    by apply (Hlt j).
Qed.

Lemma first_fallback_app_new rs r :
  first_fallback rs = None -> is_fallback r = true ->
  first_fallback (rs ++ [r]) = Some (length rs, r).
Proof.
  unfold first_fallback. intros Hn Hr. rewrite list_find_app_r by done.
  cbn. rewrite Hr. cbn. do 2 f_equal; lia.
Qed.

Lemma first_selected_insert_fallback rs i f p :
  rs !! i = Some f -> is_fallback f = true -> first_selected rs = None ->
  first_selected (<[i := set_component p f]> rs) = None.
Proof.
  rewrite !first_selected_None. intros Hi Hf Hn r Hr.
  apply list_elem_of_lookup in Hr as [j Hj].
  destruct (decide (j = i)) as [->|Hne].
  - rewrite list_lookup_insert_eq in Hj by (by eapply lookup_lt_Some).
    injection Hj as <-. unfold is_selected. cbn.
    apply is_fallback_spec in Hf. by rewrite Hf.
  - rewrite list_lookup_insert_ne in Hj by done.
    apply Hn. by eapply list_elem_of_lookup_2.
Qed.

Lemma pure_fallback_twice (p q : JsValue) (s : Chain) :
  snd (pure_fallback q (snd (pure_fallback p s))) = snd (pure_fallback q s)
  /\ fst (pure_fallback q (snd (pure_fallback p s))) = [Warn fallback_multiple].
Proof.
  unfold pure_fallback.
  destruct (first_fallback (branches s)) as [[i f]|] eqn:E;
    cbn [snd fst branches info counter].
  - rewrite (first_fallback_insert _ _ _ p E). cbn [snd fst].
    by rewrite list_insert_insert_eq.
  - rewrite (first_fallback_app_new _ (fallback_record p (S (counter s))) E)
      by reflexivity.
    cbn [snd fst]. split; [|done]. f_equal.
    rewrite insert_app_r_alt, Nat.sub_diag by lia. reflexivity.
Qed.

(** X12. Of two [fallback] in a row the second wins and no record is added:
    the state is the one the second alone would have left, and the second
    logs the warning about multiple fallbacks.  With no branch selected,
    [fallback(p).otherwise(d)] returns [p], or the default ([null] when [d]
    is left out) if [p] is [null]. *)
Theorem fallback_last_wins
  (cf : nat -> JsValue -> JsValue -> Completion JsValue)
  (w : World) (p q d : JsValue) :
  wf w = true ->
  let w1 := exec (fallback p) w in
  let w2 := exec (fallback q) w1 in
  abstract w2 = abstract (exec (fallback q) w)
  /\ console w2 = console w1 ++ [Warn fallback_multiple]
  /\ length (chain w2) = length (chain w1)
  /\ (first_selected (chain w) = None ->
      outcome (perform_all cf [call_fallback p; call_otherwise d]) w
      = Normal [result_api;
                result_node (if not_null p then p
                             else match d with JSUndefined => JSNull | v => v end)]).
Proof.
  intros Hwf w1 w2.
  destruct (fallback_refines w p Hwf) as (_ & Hwf1 & Ha1 & _).
  fold w1 in Hwf1, Ha1.
  destruct (fallback_refines w1 q Hwf1) as (_ & _ & Ha2 & Hc2).
  fold w2 in Ha2, Hc2.
  destruct (fallback_refines w q Hwf) as (_ & _ & Ha & _).
  destruct (pure_fallback_twice p q (abstract w)) as [Hs Ho].
  rewrite Ha1 in Ha2, Hc2.
  split; [by rewrite Ha2, Ha, Hs|]. split; [by rewrite Hc2, Ho|].
  split.
  { change (chain w2) with (branches (abstract w2)).
    change (chain w1) with (branches (abstract w1)).
    rewrite Ha2, Hs, Ha1. unfold pure_fallback.
    destruct (first_fallback _) as [[i f]|]; cbn [snd branches];
      by rewrite ?length_insert, ?length_app. }
  intros Hnone.
  destruct (outcome_perform_all cf [call_fallback p; call_otherwise d] w Hwf)
    as (Ho' & _).
  rewrite Ho'. cbn [pure_perform_all pure_perform fst snd]. cbv zeta.
  unfold pure_fallback, abstract. cbn [branches info counter].
  destruct (first_fallback (chain w)) as [[i f]|] eqn:E; cbn [snd fst].
  - pose proof E as E0. apply list_find_Some in E0 as (Hi & Hf & _).
    apply Is_true_true in Hf.
    unfold pure_otherwise. cbn [branches].
    rewrite (first_selected_insert_fallback _ _ _ p Hi Hf Hnone). cbn [fst].
    unfold fallback_or_default. rewrite (first_fallback_insert _ _ _ p E).
    reflexivity.
  - unfold pure_otherwise. cbn [branches].
    rewrite (first_selected_snoc_None _ _ Hnone) by reflexivity. cbn [fst].
    unfold fallback_or_default.
    rewrite (first_fallback_app_new _ (fallback_record p _) E) by reflexivity.
    reflexivity.
Qed.

Lemma Forall_insert_component (P : JsValue -> Prop) rs i r p :
  Forall (fun x => P (component x)) rs -> P p ->
  Forall (fun x => P (component x)) (<[i := set_component p r]> rs).
Proof. intros H Hp. by apply Forall_insert. Qed.

Lemma pure_perform_supplied cf (P : JsValue -> Prop) (c : ApiCall) (s : Chain) :
  P JSNull -> Forall P (supplied c) ->
  Forall (fun x => P (component x)) (branches s) ->
  node_results P (fst (pure_perform cf c s))
  /\ Forall (fun x => P (component x))
            (branches (snd (snd (pure_perform cf c s)))).
Proof.
  intros Hnull Hc Hs.
  assert (Hattach : forall e o m p, P p ->
    Forall (fun x => P (component x)) (branches (snd (pure_attach e o m p s)))).
  { intros e o m p Hp. unfold pure_attach.
    destruct (chaining_warning _ _ _); [done|].
    destruct (last _); [|done]. cbn [snd branches].
    by apply Forall_insert_component. }
  destruct c; cbn [pure_perform fst snd supplied node_results] in *.
  - split; [done|]. unfold pure_when. cbn [snd branches].
    apply Forall_app. split; [done|]. by repeat constructor.
  - split; [done|]. apply Hattach. by inversion Hc.
  - split; [done|]. exact Hs.
  - split; [done|]. unfold pure_case. destruct (negb _); [done|].
    cbn [snd branches]. apply Forall_app. split; [done|]. by repeat constructor.
  - split; [done|]. apply Hattach. by inversion Hc.
  - split; [done|]. unfold pure_fallback. inversion Hc; subst.
    destruct (first_fallback _) as [[? ?]|]; cbn [snd branches].
    + by apply Forall_insert_component.
    + apply Forall_app. split; [done|]. by repeat constructor.
  - split; [done|]. exact Hs.
  - split; [done|]. unfold pure_reset. cbn. constructor.
  - inversion Hc; subst. unfold pure_otherwise. split.
    + destruct (first_selected (branches s)) as [[i r]|] eqn:E; cbn [fst].
      * apply first_selected_Some in E as (Hr & _).
        apply list_elem_of_lookup_2 in Hr. rewrite Forall_forall in Hs.
        by apply Hs.
      * unfold fallback_or_default.
        assert (Hd : P match defaultComponent' with
                       | JSUndefined => JSNull | v => v end)
          by (by destruct defaultComponent').
        destruct (first_fallback (branches s)) as [[j f]|] eqn:F; [|done].
        destruct (not_null (component f)); [|done].
        apply list_find_Some in F as (Hf & _).
        apply list_elem_of_lookup_2 in Hf. rewrite Forall_forall in Hs.
        by apply Hs.
    + by destruct (first_selected (branches s)) as [[? ?]|].
  - split; [done|]. exact Hs.
  - split; [done|]. exact Hs.
  - split; [done|]. exact Hs.
Qed.

Lemma pure_perform_all_supplied cf (P : JsValue -> Prop) (cs : list ApiCall)
  (s : Chain) :
  P JSNull -> Forall (fun c => Forall P (supplied c)) cs ->
  Forall (fun x => P (component x)) (branches s) ->
  Forall (node_results P) (fst (pure_perform_all cf cs s)).
Proof.
  intros Hnull. revert s. induction cs as [|c cs IH]; intros s Hcs Hs;
    [constructor|].
  inversion Hcs as [|? ? Hc Hcs']; subst.
  destruct (pure_perform_supplied cf P c s Hnull Hc Hs) as [Hr Hs'].
  cbn [pure_perform_all fst]. constructor; [done|]. by apply IH.
Qed.

(** X13. [otherwise] invents no value: on a handle of [useCondition], every
    node a sequence of calls returns is [null] or a payload or default that
    one of the calls of the sequence supplied. *)
Theorem otherwise_returns_supplied
  (cf : nat -> JsValue -> JsValue -> Completion JsValue)
  (w0 : World) (cs : list ApiCall) :
  exists rs,
    outcome (perform_all cf cs) (exec useCondition w0) = Normal rs
    /\ forall v, result_node v ∈ rs ->
         v = JSNull \/ exists c, c ∈ cs /\ v ∈ supplied c.
Proof.
  destruct (useCondition_refines w0) as (_ & Hwf0 & Ha0 & _).
  destruct (outcome_perform_all cf cs _ Hwf0) as (Ho & _).
  eexists. split; [exact Ho|]. intros v Hv.
  pose (P := fun v => v = JSNull \/ exists c, c ∈ cs /\ v ∈ supplied c).
  assert (H : Forall (node_results P)
                (fst (pure_perform_all cf cs (abstract (exec useCondition w0))))).
  { apply pure_perform_all_supplied.
    - by left.
    - apply Forall_forall. intros c Hc. apply Forall_forall. intros x Hx.
      right. eauto.
    - rewrite Ha0. constructor. }
  rewrite Forall_forall in H. exact (H _ Hv).
Qed.

(** X14. If every payload and default handed to the hook satisfies
    [isValidReactNode], so does every node [otherwise] returns. *)
Theorem otherwise_returns_valid_nodes
  (isValidElement isArray : JsValue -> bool)
  (cf : nat -> JsValue -> JsValue -> Completion JsValue)
  (w0 : World) (cs : list ApiCall) :
  (forall c v, c ∈ cs -> v ∈ supplied c ->
               isValidReactNode isValidElement isArray v = true) ->
  exists rs,
    outcome (perform_all cf cs) (exec useCondition w0) = Normal rs
    /\ forall v, result_node v ∈ rs ->
         isValidReactNode isValidElement isArray v = true.
Proof.
  intros Hvalid.
  destruct (useCondition_refines w0) as (_ & Hwf0 & Ha0 & _).
  destruct (outcome_perform_all cf cs _ Hwf0) as (Ho & _).
  eexists. split; [exact Ho|]. intros v Hv.
  assert (H : Forall (node_results
                        (fun v => isValidReactNode isValidElement isArray v = true))
                (fst (pure_perform_all cf cs (abstract (exec useCondition w0))))).
  { apply pure_perform_all_supplied.
    - reflexivity.
    - apply Forall_forall. intros c Hc. apply Forall_forall. intros x Hx.
      by apply (Hvalid c).
    - rewrite Ha0. constructor. }
  rewrite Forall_forall in H. exact (H _ Hv).
Qed.

Lemma SFcompare_antisym (x y : spec_float) :
  SFcompare y x = option_map CompOpp (SFcompare x y).
Proof.
  destruct x as [sx|sx| |sx mx ex], y as [sy|sy| |sy my ey]; cbn;
    try reflexivity; try (by destruct sx); try (by destruct sy);
    try (by destruct sx, sy).
  pose proof (Pos.compare_cont_antisym mx my Eq) as Hm. cbn in Hm.
  destruct sx, sy; cbn; try reflexivity.
  - rewrite (Z.compare_antisym ex ey). destruct (ex ?= ey)%Z; cbn; try reflexivity.
    rewrite <- Hm. by rewrite CompOpp_involutive.
  - rewrite (Z.compare_antisym ex ey). destruct (ex ?= ey)%Z; cbn; try reflexivity.
    by rewrite <- Hm.
Qed.

Lemma SFcompare_refl (x : spec_float) :
  SFcompare x x = if is_nan x then None else Some Eq.
Proof.
  destruct x as [s|s| |s m e]; cbn; try reflexivity; try (by destruct s).
  destruct s; rewrite Z.compare_refl, Pos.compare_cont_refl; reflexivity.
Qed.

Lemma SFcompare_None (x y : spec_float) :
  SFcompare x y = None <-> is_nan x || is_nan y = true.
Proof.
  destruct x as [sx|sx| |sx mx ex], y as [sy|sy| |sy my ey]; cbn;
    split; try done; try discriminate.
Qed.

Lemma SFeqb_sym (x y : spec_float) : SFeqb x y = SFeqb y x.
Proof.
  unfold SFeqb. rewrite (SFcompare_antisym y x).
  by destruct (SFcompare y x) as [[]|].
Qed.

Lemma strict_equals_sym (a b : JsValue) : strict_equals a b = strict_equals b a.
Proof.
  destruct a, b; cbn; try reflexivity.
  - by destruct b0, b.
  - apply SFeqb_sym.
  - apply String.eqb_sym.
  - apply Nat.eqb_sym.
  - apply Nat.eqb_sym.
Qed.

Lemma strict_equals_refl (a : JsValue) :
  strict_equals a a = negb (Number_isNaN a).
Proof.
  destruct a; cbn; try reflexivity.
  - by destruct b.
  - unfold SFeqb. rewrite SFcompare_refl. by destruct n.
  - apply String.eqb_refl.
  - apply Nat.eqb_refl.
  - apply Nat.eqb_refl.
Qed.

Lemma defaultComparator_refl (a : JsValue) : defaultComparator a a = JSBoolean true.
Proof.
  unfold defaultComparator. rewrite strict_equals_refl.
  by destruct (Number_isNaN a).
Qed.

(** X15. [comparators.strict] and [defaultComparator] are symmetric;
    [defaultComparator] is reflexive, [comparators.strict] is reflexive except
    at NaN; and the two agree except when both arguments are NaN. *)
Theorem equality_comparators (a b : JsValue) :
  comparators_strict a b = comparators_strict b a
  /\ defaultComparator a b = defaultComparator b a
  /\ comparators_strict a a = JSBoolean (negb (Number_isNaN a))
  /\ defaultComparator a a = JSBoolean true
  /\ defaultComparator a b
     = (if Number_isNaN a && Number_isNaN b then JSBoolean true
        else comparators_strict a b).
Proof.
  unfold comparators_strict, defaultComparator.
  split; [by rewrite strict_equals_sym|].
  split.
  { rewrite (andb_comm (Number_isNaN a)), (strict_equals_sym a b). done. }
  split; [by rewrite strict_equals_refl|].
  split; [|done]. apply defaultComparator_refl.
Qed.

(** X16. For a payload [p] other than [null]: with the default comparator,
    [match(v).case(v).render(p)] on a new handle selects [p] for every [v],
    NaN included; with
    [comparators.strict] it selects [p] unless [v] is NaN, for which
    [otherwise] returns the default. *)
Theorem case_of_the_subject_matches
  (cf : nat -> JsValue -> JsValue -> Completion JsValue)
  (w0 : World) (ref : nat) (v p d : JsValue) :
  p <> JSNull ->
  outcome (perform_all cf [call_match v JSUndefined; call_case v;
                           call_render p; call_otherwise d])
          (exec useCondition w0)
  = Normal [result_api; result_api; result_api; result_node p]
  /\ ((forall a b, cf ref a b = Normal (comparators_strict a b)) ->
      outcome (perform_all cf [call_match v (JSFunction ref); call_case v;
                               call_render p; call_otherwise d])
              (exec useCondition w0)
      = Normal [result_api; result_api; result_api;
                result_node (if Number_isNaN v
                             then match d with JSUndefined => JSNull | x => x end
                             else p)]).
Proof.
  intros Hp. apply not_null_spec in Hp.
  destruct (useCondition_refines w0) as (_ & Hwf0 & Ha0 & _).
  split.
  - destruct (outcome_perform_all cf
                [call_match v JSUndefined; call_case v; call_render p;
                 call_otherwise d] _ Hwf0) as (Ho & _).
    rewrite Ho, Ha0. cbn [pure_perform_all pure_perform fst snd]. cbv zeta.
    unfold pure_match, pure_case, compare. cbn [fst snd info branches counter
      isInMatchMode negb comparator value initial_meta].
    rewrite defaultComparator_refl.
    rewrite !(pure_attach_valid _ _ _ _ []) by (right; done). cbn [fst snd].
    unfold pure_otherwise. cbn [branches].
    rewrite (first_selected_snoc_Some [] _ eq_refl).
    + reflexivity.
    + unfold is_selected. cbn. by rewrite Hp.
  - intros Hcf.
    destruct (outcome_perform_all cf
                [call_match v (JSFunction ref); call_case v; call_render p;
                 call_otherwise d] _ Hwf0) as (Ho & _).
    rewrite Ho, Ha0. cbn [pure_perform_all pure_perform fst snd]. cbv zeta.
    unfold pure_match, pure_case, compare. cbn [fst snd info branches counter
      isInMatchMode negb comparator value initial_meta].
    rewrite Hcf. cbn [fst snd].
    unfold comparators_strict. rewrite strict_equals_refl.
    rewrite !(pure_attach_valid _ _ _ _ []) by (right; done). cbn [fst snd].
    unfold pure_otherwise. cbn [branches].
    destruct (Number_isNaN v) eqn:E; cbn [negb].
    + rewrite (first_selected_snoc_None [] _ eq_refl) by reflexivity.
      reflexivity.
    + rewrite (first_selected_snoc_Some [] _ eq_refl).
      * reflexivity.
      * unfold is_selected. cbn. by rewrite Hp.
Qed.

(** X17. [comparators.greaterThan] and [comparators.lessThan] are both
    false when an argument is NaN; otherwise exactly one of less, greater and
    strictly equal holds.  [greaterThan(a, b)] is [lessThan(b, a)], and
    [range(value, min, max)] holds exactly when no argument is NaN and
    [value] is neither less than [min] nor greater than [max]. *)
Theorem numeric_comparators (a b value min max : spec_float) :
  (is_nan a || is_nan b = true ->
   comparators_greaterThan a b = false /\ comparators_lessThan a b = false)
  /\ (is_nan a || is_nan b = false ->
      (comparators_lessThan a b = true /\ comparators_greaterThan a b = false
       /\ strict_equals (JSNumber a) (JSNumber b) = false)
      \/ (comparators_lessThan a b = false /\ comparators_greaterThan a b = true
          /\ strict_equals (JSNumber a) (JSNumber b) = false)
      \/ (comparators_lessThan a b = false /\ comparators_greaterThan a b = false
          /\ strict_equals (JSNumber a) (JSNumber b) = true))
  /\ comparators_greaterThan a b = comparators_lessThan b a
  /\ comparators_range value min max
     = negb (is_nan value || is_nan min || is_nan max)
       && negb (comparators_lessThan value min)
       && negb (comparators_greaterThan value max).
Proof.
  unfold comparators_greaterThan, comparators_lessThan, comparators_range,
    SFltb, SFleb. cbn [strict_equals]. unfold SFeqb.
  split; [|split; [|split; [reflexivity|]]].
  - intros Hn. apply SFcompare_None in Hn as Hab.
    rewrite (SFcompare_antisym a b), Hab. done.
  - intros Hn. rewrite (SFcompare_antisym a b).
    destruct (SFcompare a b) as [[]|] eqn:E; cbn; auto.
    apply SFcompare_None in E. congruence.
  - rewrite (SFcompare_antisym value min), (SFcompare_antisym value max).
    destruct (SFcompare value min) as [c1|] eqn:E1;
      destruct (SFcompare value max) as [c2|] eqn:E2.
    + assert (H1 : is_nan value || is_nan min = false).
      { destruct (is_nan value || is_nan min) eqn:H; [|done].
        apply SFcompare_None in H. congruence. }
      assert (H2 : is_nan value || is_nan max = false).
      { destruct (is_nan value || is_nan max) eqn:H; [|done].
        apply SFcompare_None in H. congruence. }
      apply orb_false_elim in H1 as [-> ->]. apply orb_false_elim in H2 as [_ ->].
      by destruct c1, c2.
    + apply SFcompare_None in E2.
      destruct (is_nan value), (is_nan max), (is_nan min), c1; done.
    + apply SFcompare_None in E1.
      destruct (is_nan value), (is_nan min), (is_nan max), c2; done.
    + apply SFcompare_None in E1.
      destruct (is_nan value), (is_nan min), (is_nan max); done.
Qed.

(** X18. [comparators.includes] is true exactly when its first argument is
    an array one of whose elements [defaultComparator] equates with the
    value. *)
Theorem includes_finds_what_default_matches (array : Includable) (value : JsValue) :
  comparators_includes array value = true <->
  exists elements x,
    array = an_array elements /\ x ∈ elements
    /\ defaultComparator x value = JSBoolean true.
Proof.
  assert (Hsv : forall x, SameValueZero x value = true <->
                          defaultComparator x value = JSBoolean true).
  { intros x. unfold SameValueZero, defaultComparator.
    destruct (Number_isNaN x && Number_isNaN value); cbn; [done|].
    split; [by intros ->|congruence]. }
  destruct array as [elements|v]; cbn.
  - rewrite existsb_exists. split.
    + intros (x & Hx & Hs). exists elements, x.
      split; [done|]. split; [by apply list_elem_of_In|by apply Hsv].
    + intros (els & x & Heq & Hx & Hd). injection Heq as <-.
      exists x. split; [by apply list_elem_of_In|by apply Hsv].
  - split; [done|]. by intros (els & x & Heq & _).
Qed.

Section Keeps.

Variable Q : World -> Prop.

Lemma keeps_ret {A} (a : A) : keeps Q (ret a).
Proof. by intros w H. Qed.

Lemma keeps_throw {A} (e : JsValue) : keeps Q (throw (A := A) e).
Proof. by intros w H. Qed.

Lemma keeps_bind {A B} (c : M A) (k : A -> M B) :
  keeps Q c -> (forall a, keeps Q (k a)) -> keeps Q (bind c k).
Proof.
  intros Hc Hk w H. specialize (Hc w H). unfold exec, bind in *.
  destruct (c w) as [[a|e] w1]; cbn in *; [by apply Hk|done].
Qed.

Lemma keeps_try_catch {A} (c : M A) (h : JsValue -> M A) :
  keeps Q c -> (forall e, keeps Q (h e)) -> keeps Q (try_catch c h).
Proof.
  intros Hc Hh w H. specialize (Hc w H). unfold exec, try_catch in *.
  destruct (c w) as [[a|e] w1]; cbn in *; [done|by apply Hh].
Qed.

Lemma keeps_modify (f : World -> World) :
  (forall w, Q w -> Q (f w)) -> keeps Q (modify f).
Proof. intros Hf w H. by apply Hf. Qed.

Lemma keeps_when_true (b : bool) (c : M unit) :
  keeps Q c -> keeps Q (when_true b c).
Proof. intros Hc. destruct b; [done|apply keeps_ret]. Qed.

End Keeps.

Section FrozenArray.

Variables (s : nat) (ls : list nat).

Lemma frozen_console c : keeps (frozen_at s ls) (console_call c).
Proof. apply keeps_modify. by intros w H. Qed.

Lemma frozen_load l : keeps (frozen_at s ls) (load l).
Proof. intros w H. unfold exec, load. by destruct (objects w !! l). Qed.

Lemma frozen_load_array a : keeps (frozen_at s ls) (load_array a).
Proof. intros w H. unfold exec, load_array. by destruct (arrays w !! a). Qed.

Lemma frozen_update_object l f : keeps (frozen_at s ls) (update_object l f).
Proof.
  apply keeps_bind; [apply frozen_load|]. intros c.
  apply keeps_modify. by intros w H.
Qed.

Lemma frozen_new_object c : keeps (frozen_at s ls) (new_object c).
Proof. by intros w H. Qed.

Lemma frozen_new_array arr : keeps (frozen_at s ls) (new_array arr).
Proof.
  intros w H. unfold exec, new_array, frozen_at in *. cbn.
  by apply lookup_app_l_Some.
Qed.

Lemma frozen_write a (arr' : JsArray) (w : World) arr :
  arrays w !! a = Some arr -> frozen arr = false -> frozen_at s ls w ->
  frozen_at s ls (set_arrays (<[a := arr']> (arrays w)) w).
Proof.
  intros Ha Hf H. unfold frozen_at in *. cbn.
  rewrite list_lookup_insert_ne; [done|]. intros ->.
  rewrite H in Ha. injection Ha as <-. done.
Qed.

Lemma frozen_array_push a x : keeps (frozen_at s ls) (array_push a x).
Proof.
  intros w H. unfold exec, array_push, bind, load_array.
  destruct (arrays w !! a) as [arr|] eqn:E; [|done].
  destruct (frozen arr) eqn:F; [done|]. cbn. by eapply frozen_write.
Qed.

Lemma frozen_freeze a : keeps (frozen_at s ls) (Object_freeze a).
Proof.
  intros w H. unfold exec, Object_freeze, bind, load_array, modify, ret.
  destruct (arrays w !! a) as [arr|] eqn:E; [|done]. cbn.
  unfold frozen_at in *. cbn.
  destruct (decide (a = s)) as [->|Hne].
  - rewrite H in E. injection E as <-.
    rewrite list_lookup_insert_eq by (by eapply lookup_lt_Some). done.
  - by rewrite list_lookup_insert_ne.
Qed.

Lemma frozen_find_in p l : keeps (frozen_at s ls) (find_in p l).
Proof.
  induction l as [|x l IH]; [apply keeps_ret|]. cbn.
  apply keeps_bind; [apply frozen_load|]. intros c.
  destruct (p c); [apply keeps_ret|apply IH].
Qed.

Lemma frozen_count_in p l : keeps (frozen_at s ls) (count_in p l).
Proof.
  induction l as [|x l IH]; [apply keeps_ret|]. cbn.
  apply keeps_bind; [apply frozen_load|]. intros c.
  apply keeps_bind; [apply IH|]. intros n. apply keeps_ret.
Qed.

Lemma frozen_get_meta : keeps (frozen_at s ls) get_meta.
Proof. by intros w H. Qed.
Lemma frozen_put_meta m : keeps (frozen_at s ls) (put_meta m).
Proof. apply keeps_modify. by intros w H. Qed.
Lemma frozen_get_conditions : keeps (frozen_at s ls) get_conditions.
Proof. by intros w H. Qed.
Lemma frozen_get_world : keeps (frozen_at s ls) get_world.
Proof. by intros w H. Qed.
Lemma frozen_next_id : keeps (frozen_at s ls) next_conditionIdCounter.
Proof. by intros w H. Qed.

Lemma frozen_otherwise_loop i l : keeps (frozen_at s ls) (otherwise_loop i l).
Proof.
  revert i. induction l as [|x l IH]; intros i; [apply keeps_ret|]. cbn.
  apply keeps_bind; [apply frozen_load|]. intros c.
  destruct (is_selected c); [|apply IH].
  apply keeps_bind; [apply frozen_get_meta|]. intros m.
  apply keeps_bind; [apply frozen_put_meta|]. intros _. apply keeps_ret.
Qed.

End FrozenArray.

Ltac keeps_step :=
  first
    [ apply keeps_ret | apply keeps_throw
    | apply frozen_console | apply frozen_load | apply frozen_load_array
    | apply frozen_update_object | apply frozen_new_object
    | apply frozen_new_array | apply frozen_array_push | apply frozen_freeze
    | apply frozen_find_in | apply frozen_count_in | apply frozen_get_meta
    | apply frozen_put_meta | apply frozen_get_conditions
    | apply frozen_get_world | apply frozen_next_id
    | apply frozen_otherwise_loop
    | apply keeps_when_true
    | apply keeps_bind; [|intros ?]
    | apply keeps_try_catch; [|intros ?]
    | apply keeps_modify; intros ? ?; assumption
    | match goal with
      | |- keeps _ (match ?x with _ => _ end) => destruct x
      | |- keeps _ (if ?b then _ else _) => destruct b
      end ].

Lemma frozen_perform cf s ls (c : ApiCall) :
  keeps (frozen_at s ls) (perform cf c).
Proof.
  destruct c; cbn [perform];
    unfold when, then_, match_, case, render, fallback, debug, reset,
      otherwise, getMatchedIndex, hasMatched, getConditions, read_array,
      validateChaining, attach, last_condition, call_comparator,
      console_warn, console_error;
    repeat keeps_step.
Qed.

Lemma frozen_perform_all cf s ls (cs : list ApiCall) :
  keeps (frozen_at s ls) (perform_all cf cs).
Proof.
  induction cs as [|c cs IH]; [apply keeps_ret|]. cbn.
  apply keeps_bind; [apply frozen_perform|]. intros r.
  apply keeps_bind; [apply IH|]. intros rs. apply keeps_ret.
Qed.

(** X19. The array [getConditions] returned is never touched again: after
    any later sequence of calls it is still frozen and still lists the records
    the chain had when it was taken, and every attempt to change the array
    itself throws a [TypeError]. *)
Theorem snapshot_is_never_extended
  (cf : nat -> JsValue -> JsValue -> Completion JsValue)
  (w : World) (cs : list ApiCall) :
  wf w = true ->
  let s := length (arrays w) in
  let w' := exec (perform_all cf cs) (exec getConditions w) in
  outcome getConditions w = Normal s
  /\ arrays w' !! s = Some (mkArray true (current_items w))
  /\ (forall m, on_sequence m = true -> mutate s m w' = (Throw JSTypeError, w')).
Proof.
  intros Hwf s w'.
  apply wf_Rep in Hwf as HR.
  pose proof (getConditions_run _ _ _ HR) as Hrun.
  assert (H : frozen_at s (current_items w) w').
  { apply frozen_perform_all. unfold exec, frozen_at. rewrite Hrun. cbn.
    by rewrite lookup_app_r, Nat.sub_diag. }
  split; [unfold outcome; by rewrite Hrun|]. split; [exact H|].
  intros [x|i x| |i f] Hm; [| | |done]; cbn;
    unfold array_push, array_store, array_clear, bind, load_array;
    unfold frozen_at in H; rewrite H; reflexivity.
Qed.

Lemma calls_never_throw_witness :
  wf sample_throwing = true
  /\ exists rs,
       outcome (perform_all sample_functions
                  [call_case (JSString "test"); call_then JSNull;
                   call_render (JSString "A"); call_otherwise JSUndefined])
               sample_throwing = Normal rs
       /\ length rs = 4.
Proof.
  split; [reflexivity|].
  destruct (calls_never_throw sample_functions sample_throwing
              [call_case (JSString "test"); call_then JSNull;
               call_render (JSString "A"); call_otherwise JSUndefined] eq_refl)
    as (rs & out & H1 & H2 & _).
  exists rs. split; [exact H1|exact H2].
Defined.

Lemma when_then_otherwise_witness :
  wf fresh_handle = true
  /\ first_selected (chain fresh_handle) = None
  /\ outcome (perform_all sample_functions
                [call_when (JSNumber (S754_zero false)); call_then (JSString "A");
                 call_otherwise (JSString "D"); call_hasMatched]) fresh_handle
     = Normal [result_api; result_api; result_node (JSString "D");
               result_boolean false].
Proof.
  split; [reflexivity|]. split; [reflexivity|].
  destruct (when_then_otherwise sample_functions fresh_handle
              (JSNumber (S754_zero false)) (JSString "A") (JSString "D")
              eq_refl eq_refl) as (H & _).
  exact H.
Defined.

Lemma match_opens_context_witness :
  wf sample_when = true
  /\ match_context (exec (match_ (JSString "v") (JSString "not a function"))
                         sample_when)
     = (JSString "v", comparator_default, true).
Proof.
  split; [reflexivity|].
  destruct (match_opens_context sample_functions sample_when (JSString "v")
              (JSString "not a function") JSNull JSUndefined JSNull eq_refl)
    as (_ & H & _).
  exact H.
Defined.

Lemma otherwise_repeatable_witness :
  wf sample_chain = true
  /\ outcome (otherwise JSUndefined)
             (exec (otherwise (JSString "D")) sample_chain)
     = outcome (otherwise JSUndefined) sample_chain.
Proof.
  split; [reflexivity|].
  destruct (otherwise_repeatable sample_chain JSUndefined (JSString "D") eq_refl)
    as (H & _).
  exact H.
Defined.

Lemma matchedIndex_names_the_result_witness :
  wf sample_chain = true
  /\ outcome hasMatched (exec (otherwise JSUndefined) sample_chain)
     = Normal true.
Proof.
  split; [reflexivity|].
  destruct (matchedIndex_names_the_result sample_chain JSUndefined eq_refl)
    as (_ & H & _).
  exact H.
Defined.

Lemma branches_are_append_only_witness :
  wf sample_chain = true
  /\ 3 <= length (chain (exec (perform_all sample_functions
                                 [call_then (JSString "Z"); call_fallback JSNull;
                                  call_otherwise JSUndefined])
                              sample_chain)).
Proof.
  split; [reflexivity|].
  destruct (branches_are_append_only sample_functions sample_chain
              [call_then (JSString "Z"); call_fallback JSNull;
               call_otherwise JSUndefined] eq_refl eq_refl) as (H & _).
  exact H.
Defined.

Lemma then_render_last_wins_witness :
  wf sample_when = true
  /\ abstract (exec (then_ (JSString "B")) (exec (then_ (JSString "A")) sample_when))
     = abstract (exec (then_ (JSString "B")) sample_when).
Proof.
  split; [reflexivity|].
  destruct (then_render_last_wins sample_when (JSString "A") (JSString "B")
              eq_refl) as (H & _).
  exact H.
Defined.

Lemma fallback_last_wins_witness :
  wf sample_when = true
  /\ abstract (exec (fallback (JSString "B"))
                    (exec (fallback (JSString "A")) sample_when))
     = abstract (exec (fallback (JSString "B")) sample_when).
Proof.
  split; [reflexivity|].
  destruct (fallback_last_wins sample_functions sample_when (JSString "A")
              (JSString "B") JSUndefined eq_refl) as (H & _).
  exact H.
Defined.

Lemma otherwise_returns_valid_nodes_witness :
  exists rs,
    outcome (perform_all sample_functions
               [call_when (JSBoolean true); call_then (JSString "A");
                call_otherwise JSUndefined]) fresh_handle = Normal rs
    /\ forall v, result_node v ∈ rs ->
         isValidReactNode (fun _ => false) (fun _ => false) v = true.
Proof.
  apply (otherwise_returns_valid_nodes (fun _ => false) (fun _ => false)
           sample_functions empty_world).
  intros c v Hc Hv.
  repeat (apply elem_of_cons in Hc as [->|Hc];
          [cbn in Hv;
           try (apply list_elem_of_singleton in Hv as ->; reflexivity);
           by apply elem_of_nil in Hv|]).
  by apply elem_of_nil in Hc.
Defined.

Lemma case_of_the_subject_matches_witness :
  JSString "P" <> JSNull
  /\ outcome (perform_all sample_functions
                [call_match NaN JSUndefined; call_case NaN;
                 call_render (JSString "P"); call_otherwise JSUndefined])
             fresh_handle
     = Normal [result_api; result_api; result_api; result_node (JSString "P")].
Proof.
  assert (H : JSString "P" <> JSNull) by discriminate.
  split; [exact H|].
  destruct (case_of_the_subject_matches sample_functions empty_world 0 NaN
              (JSString "P") JSUndefined H) as (H1 & _).
  exact H1.
Defined.

Lemma snapshot_is_never_extended_witness :
  wf sample_when = true
  /\ arrays (exec (perform_all sample_functions
                     [call_when (JSBoolean false); call_fallback (JSString "F");
                      call_reset; call_when (JSBoolean true)])
                  (exec getConditions sample_when)) !! 1
     = Some (mkArray true [0]).
Proof.
  split; [reflexivity|].
  destruct (snapshot_is_never_extended sample_functions sample_when
              [call_when (JSBoolean false); call_fallback (JSString "F");
               call_reset; call_when (JSBoolean true)] eq_refl) as (_ & H & _).
  exact H.
Defined.

Lemma keeps_guards_app rs rs' x :
  keeps_guards rs rs' -> keeps_guards rs (rs' ++ [x]).
Proof.
  intros [Hlen H]. split; [rewrite length_app; lia|].
  intros i r Hr. destruct (H i r Hr) as (r' & Hr' & Hf).
  exists r'. split; [by apply lookup_app_l_Some|done].
Qed.

Lemma keeps_guards_insert rs rs' j x y :
  keeps_guards rs rs' -> rs' !! j = Some x ->
  is_fallback y = is_fallback x ->
  (length rs <= j \/ is_fallback x = true) ->
  keeps_guards rs (<[j := y]> rs').
Proof.
  intros [Hlen H] Hx Hy Hj. split; [by rewrite length_insert|].
  intros i r Hr. destruct (H i r Hr) as (r' & Hr' & Hf & Heq).
  destruct (decide (i = j)) as [->|Hne].
  - exists y. rewrite list_lookup_insert_eq by (by eapply lookup_lt_Some).
    assert (r' = x) as -> by congruence.
    apply lookup_lt_Some in Hr as Hlt.
    destruct Hj as [Hj|Hj]; [lia|].
    split; [done|]. split; [congruence|]. intros Hn. congruence.
  - exists r'. by rewrite list_lookup_insert_ne.
Qed.

Lemma pure_perform_keeps_guards cf (c : ApiCall) (s : Chain) rs :
  is_reset c = false -> keeps_guards rs (branches s) ->
  keeps_guards rs (branches (snd (snd (pure_perform cf c s)))).
Proof.
  intros Hc H.
  assert (Hattach : forall e o m p,
    keeps_guards rs (branches (snd (pure_attach e o m p s)))).
  { intros e o m p. unfold pure_attach.
    destruct (chaining_warning _ _ _); [done|].
    destruct (last (branches s)) as [r|] eqn:E; [|done]. cbn [snd branches].
    rewrite last_lookup in E.
    apply (keeps_guards_insert _ _ _ r); [done|done|reflexivity|].
    left. destruct H as [Hlen _]. lia. }
  destruct c; try discriminate; cbn [pure_perform fst snd].
  - unfold pure_when. cbn [snd branches]. by apply keeps_guards_app.
  - apply Hattach.
  - exact H.
  - unfold pure_case. destruct (negb _); [done|]. cbn [snd branches].
    by apply keeps_guards_app.
  - apply Hattach.
  - unfold pure_fallback.
    destruct (first_fallback (branches s)) as [[i f]|] eqn:E; cbn [snd branches].
    + apply list_find_Some in E as (Hi & Hf & _). apply Is_true_true in Hf.
      apply (keeps_guards_insert _ _ _ f); [done|done|reflexivity|by right].
    + by apply keeps_guards_app.
  - exact H.
  - unfold pure_otherwise. by destruct (first_selected _) as [[? ?]|].
  - exact H.
  - exact H.
  - exact H.
Qed.

Lemma pure_perform_all_keeps_guards cf (cs : list ApiCall) (s : Chain) rs :
  forallb (fun c => negb (is_reset c)) cs = true ->
  keeps_guards rs (branches s) ->
  keeps_guards rs (branches (snd (snd (pure_perform_all cf cs s)))).
Proof.
  revert s. induction cs as [|c cs IH]; intros s Hcs H; [done|].
  cbn in Hcs. apply andb_prop in Hcs as [Hc Hcs]. apply negb_true_iff in Hc.
  cbn [pure_perform_all snd]. apply IH; [done|].
  by apply pure_perform_keeps_guards.
Qed.

Lemma is_selected_not_fallback r : is_selected r = true -> is_fallback r = false.
Proof.
  intros H. apply is_selected_spec in H as ([Ht|Ht] & _);
    unfold is_fallback; by rewrite Ht.
Qed.

Lemma is_fallback_not_selected r : is_fallback r = true -> is_selected r = false.
Proof.
  intros H. apply is_fallback_spec in H. unfold is_selected. by rewrite H.
Qed.

Lemma keeps_guards_first_selected rs rs' i r :
  keeps_guards rs rs' -> first_selected rs = Some (i, r) ->
  first_selected rs' = Some (i, r).
Proof.
  intros [_ H] E. apply first_selected_Some in E as (Hr & Hs & Hlt).
  apply first_selected_Some. split; [|split; [done|]].
  - destruct (H i r Hr) as (r' & Hr' & _ & Heq).
    by rewrite Hr', (Heq (is_selected_not_fallback _ Hs)).
  - intros j y Hy Hji.
    assert (Hj : j < length rs) by (apply lookup_lt_Some in Hr; lia).
    destruct (lookup_lt_is_Some_2 rs j Hj) as [x Hx].
    destruct (H j x Hx) as (x' & Hx' & Hf & Heq).
    assert (x' = y) as -> by congruence.
    destruct (is_fallback x) eqn:F.
    + by apply is_fallback_not_selected.
    + rewrite (Heq eq_refl). by apply (Hlt j).
Qed.

(** X20. Branches added after the first selected one never win: if the
    record at index [i] is the first satisfied [when] or [case] with a
    payload, then after a further [when] and any calls other than [reset],
    [otherwise] still returns the payload of that record and sets the matched
    index to [i]. *)
Theorem earlier_match_keeps_winning
  (cf : nat -> JsValue -> JsValue -> Completion JsValue)
  (w : World) (c d : JsValue) (cs : list ApiCall) (i : nat) (r : ConditionCase) :
  wf w = true ->
  chain w !! i = Some r ->
  guarded r /\ satisfied r /\ payload_set r ->
  (forall j r', chain w !! j = Some r' -> j < i ->
                ~ (guarded r' /\ satisfied r' /\ payload_set r')) ->
  forallb (fun c => negb (is_reset c)) cs = true ->
  let w' := exec (perform_all cf (call_when c :: cs)) w in
  outcome (otherwise d) w' = Normal (component r)
  /\ matchedIndex (meta_current (exec (otherwise d) w')) = Z.of_nat i.
Proof.
  intros Hwf Hr Hsel Hfirst Hcs w'.
  assert (E : first_selected (chain w) = Some (i, r)).
  { apply first_selected_Some. split; [done|]. split; [by apply is_selected_spec|].
    intros j r' Hj Hlt. apply not_true_iff_false. intros Hs.
    by apply (Hfirst j r' Hj Hlt), is_selected_spec. }
  destruct (outcome_perform_all cf (call_when c :: cs) w Hwf)
    as (_ & Ha & Hwf' & _). fold w' in Ha, Hwf'.
  assert (Hk : keeps_guards (chain w) (chain w')).
  { change (chain w') with (branches (abstract w')). rewrite Ha.
    cbn [pure_perform_all pure_perform fst snd].
    apply pure_perform_all_keeps_guards; [done|].
    unfold pure_when, abstract. cbn [snd branches].
    split; [rewrite length_app; cbn; lia|].
    intros j x Hx. exists x. split; [by apply lookup_app_l_Some|done]. }
  pose proof (keeps_guards_first_selected _ _ _ _ Hk E) as E'.
  destruct (otherwise_refines w' d Hwf') as (Ho & _ & Ha' & _).
  unfold pure_otherwise, abstract in Ho, Ha'. cbn [branches info counter] in *.
  rewrite E' in Ho, Ha'. cbn [fst snd] in *.
  split; [exact Ho|]. apply (f_equal info) in Ha'. cbn in Ha'. by rewrite Ha'.
Qed.

Lemma earlier_match_keeps_winning_witness :
  wf sample_chain = true
  /\ outcome (otherwise JSUndefined)
             (exec (perform_all sample_functions
                      [call_when (JSBoolean true); call_then (JSString "New");
                       call_fallback (JSString "F")])
                   sample_chain)
     = Normal (JSString "B").
Proof.
  split; [reflexivity|].
  destruct (earlier_match_keeps_winning sample_functions sample_chain
              (JSBoolean true) JSUndefined
              [call_then (JSString "New"); call_fallback (JSString "F")]
              1 (mkCase type_when (Some (JSBoolean true)) None (JSString "B")
                        "when-2") eq_refl eq_refl) as (H & _).
  - unfold guarded, satisfied, payload_set. cbn.
    split; [by left|]. split; [reflexivity|discriminate].
  - intros j r' Hj Hlt. assert (j = 0) as -> by lia.
    vm_compute in Hj. injection Hj as <-.
    unfold satisfied. cbn. intros (_ & Hs & _). discriminate.
  - reflexivity.
  - exact H.
Defined.

Lemma case_without_match_is_noop_witness :
  isInMatchMode (meta_current sample_when) = false
  /\ chain (exec (case sample_functions (JSString "a")) sample_when)
     = chain sample_when.
Proof.
  split; [reflexivity|].
  destruct (case_without_match_is_noop sample_functions sample_when
              (JSString "a")) as (H & _).
  unfold exec. rewrite (H eq_refl). reflexivity.
Defined.

Lemma debug_only_logs_witness :
  wf sample_when = true
  /\ outcome (perform_all sample_functions
                [call_then (JSString "A"); call_otherwise JSUndefined])
             (exec debug sample_when)
     = outcome (perform_all sample_functions
                  [call_then (JSString "A"); call_otherwise JSUndefined])
               sample_when.
Proof.
  split; [reflexivity|].
  destruct (debug_only_logs sample_functions sample_when
              [call_then (JSString "A"); call_otherwise JSUndefined])
    as (_ & H).
  destruct (H eq_refl) as (H1 & _). exact H1.
Defined.

Lemma matchedIndex_in_range_witness :
  outcome hasMatched
    (exec (perform_all sample_functions
             [call_when (JSBoolean true); call_then (JSString "A");
              call_otherwise JSUndefined]) fresh_handle) = Normal true
  /\ exists r,
       chain (exec (perform_all sample_functions
                      [call_when (JSBoolean true); call_then (JSString "A");
                       call_otherwise JSUndefined]) fresh_handle)
       !! Z.to_nat
            (matchedIndex
               (meta_current
                  (exec (perform_all sample_functions
                           [call_when (JSBoolean true);
                            call_then (JSString "A");
                            call_otherwise JSUndefined]) fresh_handle)))
       = Some r.
Proof.
  split; [reflexivity|].
  destruct (matchedIndex_in_range sample_functions empty_world
              [call_when (JSBoolean true); call_then (JSString "A");
               call_otherwise JSUndefined]) as (_ & _ & H).
  exact (H eq_refl).
Defined.

Lemma numeric_comparators_witness :
  is_nan S754_nan || is_nan (S754_zero false) = true
  /\ comparators_greaterThan S754_nan (S754_zero false) = false
  /\ comparators_lessThan S754_nan (S754_zero false) = false.
Proof.
  split; [reflexivity|].
  destruct (numeric_comparators S754_nan (S754_zero false) (S754_zero false)
              (S754_zero false) (S754_zero false)) as (H & _).
  exact (H eq_refl).
Defined.
